(** * Curated match resolver of the PSP game explorer

    A shallow embedding of the curated-collection code of [UIManager]
    ([levenshteinDistance], [findBestMatch], [fetchCuratedGameData],
    [displayCuratedGamesForGenre], [renderCuratedPagination]) and of
    [SearchManager.addToHistory], with the properties that the
    specification states about them. *)

From Stdlib Require Import ZArith Lia Ascii String.
From stdpp Require Import base option numbers list sorting gmap strings pretty.

Local Open Scope nat_scope.

(** ** JavaScript values used by the resolver *)

(** A JavaScript string is a sequence of UTF-16 code units; [s.length] is
    the number of code units and [s[i]] is the i-th one. *)
Abbreviation jsstring := (list N) (only parsing).

(** String literals of the examples. *)
Definition js (s : string) : jsstring :=
  (λ c, N_of_ascii c) <$> list_ascii_of_string s.

(** Lower-casing of the ASCII range, the part of [String.prototype.toLowerCase]
    that the examples exercise.  The development itself is parametric in
    [toLowerCase]. *)
Definition ascii_toLowerCase (s : jsstring) : jsstring :=
  (λ c, if bool_decide (65 ≤ c ≤ 90)%N then (c + 32)%N else c) <$> s.

(** ** Edit-distance scorer: [levenshteinDistance] *)

Module Levenshtein.

(** The table built by [Array(b.length + 1).fill(null).map(() =>
    Array(a.length + 1).fill(null))]: a cell is [None] while it still
    holds [null]. *)
Abbreviation Matrix := (list (list (option nat))) (only parsing).

(** Reading a cell inside an arithmetic expression goes through
    [ToNumber], which sends [null] to [0]. *)
Definition toNumber (c : option nat) : nat := default 0 c.

(** [matrix[j][i]] as a raw value ([None] when the cell is [null]; the
    loops below never index outside the table). *)
Definition matrix_get (m : Matrix) (j i : nat) : option nat :=
  row ← m !! j; mjoin (row !! i).

(** [matrix[j][i] = v]. Row [j] and column [i] are always inside the
    table at the places where the source assigns, so the assignment never
    extends an array. *)
Definition matrix_set (m : Matrix) (j i v : nat) : Matrix :=
  alter (<[i := Some v]>) j m.

(** [Math.min(x, y, z)] on numbers. *)
Definition Math_min (x y z : nat) : nat := (x `min` y) `min` z.

(** [for (let k = lo; k <= hi; k += 1) body], with [n = hi + 1 - lo]
    iterations, threading the table. *)
Definition for_loop {St : Type} (lo n : nat) (body : St → nat → St) (s : St) : St :=
  foldl body s (seq lo n).

(** The body of the inner loop. *)
Definition fill_cell (a b : jsstring) (j : nat) (matrix : Matrix) (i : nat) : Matrix :=
  let indicator := if bool_decide (a !! (i - 1) = b !! (j - 1)) then 0 else 1 in
  matrix_set matrix j i
    (Math_min
       (toNumber (matrix_get matrix j (i - 1)) + 1)
       (toNumber (matrix_get matrix (j - 1) i) + 1)
       (toNumber (matrix_get matrix (j - 1) (i - 1)) + indicator)).

(** The table after the four loops of [levenshteinDistance]. *)
Definition levenshteinMatrix (a b : jsstring) : Matrix :=
  let matrix := replicate (length b + 1) (replicate (length a + 1) None) in
  let matrix := for_loop 0 (length a + 1) (λ m i, matrix_set m 0 i i) matrix in
  let matrix := for_loop 0 (length b + 1) (λ m j, matrix_set m j 0 j) matrix in
  for_loop 1 (length b)
    (λ m j, for_loop 1 (length a) (fill_cell a b j) m) matrix.

(** The value returned by the function, [matrix[b.length][a.length]], as
    it is stored in the table. *)
Definition levenshteinCell (a b : jsstring) : option nat :=
  matrix_get (levenshteinMatrix a b) (length b) (length a).

(** The returned value as the number every caller uses it as. *)
Definition levenshteinDistance (a b : jsstring) : nat :=
  toNumber (levenshteinCell a b).

(** *** The contract, as the specification words it

    One single-character edit: an insertion, a deletion or a
    substitution at any position of the string. *)
Inductive edit1 : jsstring → jsstring → Prop :=
| edit_insert (l1 : jsstring) (c : N) (l2 : jsstring) :
    edit1 (l1 ++ l2) (l1 ++ c :: l2)
| edit_delete (l1 : jsstring) (c : N) (l2 : jsstring) :
    edit1 (l1 ++ c :: l2) (l1 ++ l2)
| edit_substitute (l1 : jsstring) (c d : N) (l2 : jsstring) :
    edit1 (l1 ++ c :: l2) (l1 ++ d :: l2).

(** [edits n a b]: [n] successive single-character edits transform [a]
    into [b]. *)
Inductive edits : nat → jsstring → jsstring → Prop :=
| edits_done (a : jsstring) : edits 0 a a
| edits_step (n : nat) (a b c : jsstring) :
    edit1 a b → edits n b c → edits (S n) a c.

(** [d] is the minimum number of edits that transform [a] into [b]. *)
Definition min_edits (a b : jsstring) (d : nat) : Prop :=
  edits d a b ∧ ∀ n, edits n a b → d ≤ n.

(** The textbook recurrence on the first characters, used to relate the
    table to edit scripts. *)
Definition indicator (x y : N) : nat := if bool_decide (x = y) then 0 else 1.

Fixpoint lev (a b : jsstring) {struct a} : nat :=
  match a with
  | [] => length b
  | x :: a' =>
      (fix lev_row (b : jsstring) : nat :=
         match b with
         | [] => length a
         | y :: b' =>
             Math_min (lev a' b + 1) (lev_row b' + 1) (lev a' b' + indicator x y)
         end) b
  end.

(** *** The invariant of the table

    The value that cell [matrix[j][i]] must hold: the distance between
    the first [i] characters of [a] and the first [j] characters of [b]. *)
Definition prefix_distance (a b : jsstring) (j i : nat) : nat :=
  lev (reverse (take i a)) (reverse (take j b)).

Definition well_shaped (a b : jsstring) (m : Matrix) : Prop :=
  length m = length b + 1 ∧ ∀ j row, m !! j = Some row → length row = length a + 1.

(** [filled a b K m]: the table has its dimensions and every cell selected
    by [K] holds its final value. *)
Definition filled (a b : jsstring) (K : nat → nat → Prop) (m : Matrix) : Prop :=
  well_shaped a b m ∧
  ∀ j i, K j i → j ≤ length b → i ≤ length a →
         matrix_get m j i = Some (prefix_distance a b j i).

End Levenshtein.

Import Levenshtein.

(** ** Match selector: [findBestMatch] *)

(** A game record as [GameAPI.formatGameData] builds it. The resolver reads
    [name], [slug] and [image]; the other fields of the record travel with
    it untouched and are not repeated here. The field [id] is called
    [game_id], as [id] is the identity function. *)
Record GameRecord : Type := {
  game_id : Z;
  slug : jsstring;
  name : jsstring;
  image : option jsstring;
}.

Global Instance GameRecord_eq_dec : EqDecision GameRecord.
Proof. solve_decision. Defined.

(** A record for the examples, named and addressed by [title]. *)
Definition sample_game (n : Z) (title : string) : GameRecord :=
  {| game_id := n; slug := js title; name := js title; image := None |}.

Module Matching.
Section matching.

(** [String.prototype.toLowerCase]. *)
Variable toLowerCase : jsstring → jsstring.

(** An element of [scoredResults]: [{ game, score }]. *)
Record Scored : Type := { game : GameRecord; score : nat }.

(** [Array.prototype.sort((a, b) => a.score - b.score)]. The sort of
    ECMAScript is stable, and the comparator is a total preorder on the
    integer scores, so the result is the one stable ascending arrangement
    of the array, which insertion from the right computes. *)
Fixpoint sort_insert (x : Scored) (l : list Scored) : list Scored :=
  match l with
  | [] => [x]
  | y :: l' =>
      if decide (score x ≤ score y) then x :: l else y :: sort_insert x l'
  end.

Definition sort_by_score (l : list Scored) : list Scored :=
  foldr sort_insert [] l.

(** [results] is [None] for a [null] or [undefined] argument. The
    threshold [score < targetTitle.length / 2] is a comparison of an
    integer with a half-integer, written without the division. When the
    array is not empty so is [scoredResults], hence the last branch never
    runs. *)
Definition findBestMatch (targetTitle : jsstring)
    (results : option (list GameRecord)) : option GameRecord :=
  match results with
  | None => None
  | Some [] => None
  | Some results =>
      let normalizedTarget := toLowerCase targetTitle in
      let exactMatch :=
        List.find (λ game, bool_decide (toLowerCase (name game) = normalizedTarget))
                  results in
      match exactMatch with
      | Some exactMatch => Some exactMatch
      | None =>
          let scoredResults :=
            sort_by_score
              ((λ game,
                 {| game := game;
                    score := levenshteinDistance normalizedTarget
                               (toLowerCase (name game)) |}) <$> results) in
          match scoredResults !! 0 with
          | Some best =>
              if bool_decide (2 * score best < length targetTitle)
              then Some (game best) else None
          | None => None
          end
      end
  end.

End matching.

(** An ascending arrangement, and two arrangements that list the entries
    of each score in the same order. *)
Definition ascending (l : list Scored) : Prop :=
  StronglySorted (λ x y, score x ≤ score y) l.

Definition same_order_per_score (l1 l2 : list Scored) : Prop :=
  ∀ k, filter (λ x, score x = k) l1 = filter (λ x, score x = k) l2.

End Matching.

Import Matching.

(** ** Resolution pipeline: [fetchCuratedGameData] and its caller *)

(** An entry of the curated list, [{ title, slug }]. *)
Record CuratedEntry : Type := { entry_title : jsstring; entry_slug : jsstring }.

(** A list of [n] distinct entries for the examples. *)
Definition sample_entries (n : nat) : list CuratedEntry :=
  (λ i, {| entry_title := [N.of_nat i]; entry_slug := [N.of_nat i] |}) <$> seq 0 n.

Module Pipeline.

(** The children of the curated grid, by the template that produced them:
    [createGameCardPlaceholderHTML] (a skeleton carrying
    [data-placeholder-id]), the same element after the pipeline removed its
    [skeleton] class and wrote [createGameCardSearchingHTML] into it,
    [createGameCardHTMLFromData] and [createGameCardNotFoundHTML]. *)
Inductive Cell : Type :=
| Skeleton (placeholderId : nat)
| Searching (placeholderId : nat) (title : jsstring)
| GameCard (data : GameRecord) (displayTitle : jsstring)
| NotFoundCard (title : jsstring).

(** The part of the [UIManager] and of the document that a resolution
    reads or writes: the active-tab token ([None] when it is [undefined])
    and the cells of the grid in document order. *)
Record World : Type := {
  activeCuratedTab : option string;
  grid : list Cell;
}.

Inductive Status : Type := found | not_found | aborted.

(** [{ status, data }]; [data] is [None] when it is [null] or missing. *)
Record Result : Type := { status : Status; data : option GameRecord }.

(** The calls made on [app.gameAPI]. *)
Inductive Request : Type :=
| GetGameDetails (gameSlug : jsstring)
| SearchGames (query : jsstring) (pageSize : nat) (platforms : string).

Global Instance Cell_eq_dec : EqDecision Cell.
Proof. solve_decision. Defined.

Definition placeholder_id (c : Cell) : option nat :=
  match c with
  | Skeleton i | Searching i _ => Some i
  | GameCard _ _ | NotFoundCard _ => None
  end.

(** [querySelector('[data-placeholder-id="id"]')] followed by a write to
    the element found: the first cell carrying the id is replaced; when
    there is none the selector returns [null] and nothing is written. *)
Fixpoint patch_placeholder (placeholderId : nat) (new : Cell) (cells : list Cell)
    : list Cell :=
  match cells with
  | [] => []
  | c :: cells' =>
      if decide (placeholder_id c = Some placeholderId) then new :: cells'
      else c :: patch_placeholder placeholderId new cells'
  end.

Definition set_grid (f : list Cell → list Cell) (w : World) : World :=
  {| activeCuratedTab := activeCuratedTab w; grid := f (grid w) |}.

Section pipeline.

Variable toLowerCase : jsstring → jsstring.

(** The metadata client as the pipeline sees it: the value a call resolves
    to, or [None] when its promise rejects. *)
Variable getGameDetails : jsstring → option GameRecord.
Variable searchGames : jsstring → nat → string → option (list GameRecord).

(** Whatever other callbacks (tab clicks, other resolutions) do to the
    world while this resolution is suspended at its first and at its
    second [await]. *)
Variables during_lookup during_search : World → World.

(** Stage 2 to 4, entered when the slug lookup threw. *)
Definition searchFallback (gameObject : CuratedEntry) (currentGenre : option string)
    (placeholderId : nat) (w : World) : Result * World * list Request :=
  let w :=
    set_grid (patch_placeholder placeholderId
                (Searching placeholderId (entry_title gameObject))) w in
  let request := SearchGames (entry_title gameObject) 5 "17" in
  let w := during_search w in
  match searchGames (entry_title gameObject) 5 "17" with
  | Some games =>
      if decide (activeCuratedTab w ≠ currentGenre)
      then ({| status := aborted; data := None |}, w, [request])
      else
        match findBestMatch toLowerCase (entry_title gameObject) (Some games) with
        | Some bestMatch =>
            ({| status := found; data := Some bestMatch |}, w, [request])
        | None => ({| status := not_found; data := None |}, w, [request])
        end
  | None => ({| status := not_found; data := None |}, w, [request])
  end.

(** The result, the world when the function returns and the requests it
    made, in order. [getGameDetails] resolves to a freshly built object,
    so the test [if (gameData)] always succeeds. *)
Definition fetchCuratedGameData (gameObject : CuratedEntry)
    (currentGenre : option string) (placeholderId : nat) (w : World)
    : Result * World * list Request :=
  let request := GetGameDetails (entry_slug gameObject) in
  let w := during_lookup w in
  match getGameDetails (entry_slug gameObject) with
  | Some gameData =>
      if decide (activeCuratedTab w ≠ currentGenre)
      then ({| status := aborted; data := None |}, w, [request])
      else ({| status := found; data := Some gameData |}, w, [request])
  | None =>
      let '(result, w, requests) :=
        searchFallback gameObject currentGenre placeholderId w in
      (result, w, request :: requests)
  end.

(** What happens between the return of [fetchCuratedGameData] and the
    resumption of the callback that awaits it. *)
Variable before_render : World → World.

(** The callback that [displayCuratedGamesForGenre] maps over the entries
    of the page. *)
Definition renderEntry (gameObject : CuratedEntry) (genre : option string)
    (placeholderId : nat) (w : World) : World :=
  let '(result, w, _) := fetchCuratedGameData gameObject genre placeholderId w in
  let w := before_render w in
  if decide (activeCuratedTab w ≠ genre) then w
  else
    let final :=
      match status result, data result with
      | found, Some d => GameCard d (entry_title gameObject)
      | _, _ => NotFoundCard (entry_title gameObject)
      end in
    set_grid (patch_placeholder placeholderId final) w.

End pipeline.

(** *** The state machine of the specification, and sample runs *)

(** The terminal state that the state machine of the specification
    prescribes for an entry when the tab does not change. *)
Definition resolution (toLowerCase : jsstring → jsstring)
    (getGameDetails : jsstring → option GameRecord)
    (searchGames : jsstring → nat → string → option (list GameRecord))
    (gameObject : CuratedEntry) : Result * list Request :=
  let lookup := GetGameDetails (entry_slug gameObject) in
  let search := SearchGames (entry_title gameObject) 5 "17" in
  match getGameDetails (entry_slug gameObject) with
  | Some record => ({| status := found; data := Some record |}, [lookup])
  | None =>
      match searchGames (entry_title gameObject) 5 "17" with
      | None => ({| status := not_found; data := None |}, [lookup; search])
      | Some games =>
          match findBestMatch toLowerCase (entry_title gameObject) (Some games) with
          | Some selected =>
              ({| status := found; data := Some selected |}, [lookup; search])
          | None => ({| status := not_found; data := None |}, [lookup; search])
          end
      end
  end.

(** The tab is unchanged throughout a resolution: it is the dispatching
    genre at the start and no callback that runs during an [await] writes
    another one. *)
Definition tab_unchanged (currentGenre : option string)
    (during_lookup during_search : World → World) (w : World) : Prop :=
  activeCuratedTab w = currentGenre ∧
  (∀ w', activeCuratedTab (during_lookup w') = activeCuratedTab w') ∧
  (∀ w', activeCuratedTab (during_search w') = activeCuratedTab w').

(** The user is on the RPG tab, whose first page shows two skeletons; the
    slug lookup of the first entry is in flight. *)
Definition rpg_entry : CuratedEntry :=
  {| entry_title := js "Crisis Core"; entry_slug := js "crisis-core" |}.

Definition rpg_world : World :=
  {| activeCuratedTab := Some "RPG"%string; grid := [Skeleton 0; Skeleton 1] |}.

(** A click on the Action tab while the lookup is in flight: the token
    changes and the grid is refilled with the skeletons of Action's first
    page, numbered from 0 like those of RPG. *)
Definition switch_to_action (w : World) : World :=
  {| activeCuratedTab := Some "Action"%string; grid := [Skeleton 0; Skeleton 1] |}.

(** A search that answers with two candidates. *)
Definition sample_search (query : jsstring) (pageSize : nat) (platforms : string)
    : option (list GameRecord) :=
  Some [sample_game 7 "Crisis Core: Final Fantasy VII"; sample_game 8 "crisis core"].

(** Another state of the page for the same resolution: the grid already
    shows other cards, and it is emptied while the lookup is in flight. *)
Definition other_world : World :=
  {| activeCuratedTab := Some "RPG"%string;
     grid := [NotFoundCard (js "Persona 3 Portable"); Skeleton 5] |}.

End Pipeline.

(** ** Pagination and navigation: [displayCuratedGamesForGenre],
       [renderCuratedTabs], [renderCuratedPagination] *)

Module Pagination.

(** A value of the catalog, [{ link, games }]; [games] is [None] when the
    property is missing. *)
Record CategoryData : Type := {
  link : jsstring;
  games : option (list CuratedEntry);
}.

Definition gamesPerPage : Z := 8.

(** [Array.prototype.slice(start, end)]: a negative index counts from the
    end of the array and both indices are clamped to its bounds. *)
Definition slice {A : Type} (l : list A) (start end_ : Z) : list A :=
  let len := Z.of_nat (length l) in
  let k := if decide (start < 0)%Z then Z.max (len + start) 0 else Z.min start len in
  let final := if decide (end_ < 0)%Z then Z.max (len + end_) 0 else Z.min end_ len in
  take (Z.to_nat (final - k)) (drop (Z.to_nat k) l).

(** [Math.ceil(n / d)] for integers [n] and [d > 0]. *)
Definition Math_ceil_div (n d : Z) : Z := (- ((- n) / d))%Z.

Definition totalPages (allGameObjects : list CuratedEntry) : Z :=
  Math_ceil_div (Z.of_nat (length allGameObjects)) gamesPerPage.

(** The entries shown on a page. *)
Definition pageGameObjects (allGameObjects : list CuratedEntry) (page : Z)
    : list CuratedEntry :=
  let startIndex := ((page - 1) * gamesPerPage)%Z in
  let endIndex := (startIndex + gamesPerPage)%Z in
  slice allGameObjects startIndex endIndex.

(** The handlers installed on the buttons of [#curated-pagination]: each
    remembers the [genre] and [currentPage] it was rendered for. *)
Record Controls : Type := {
  prev : option (option string * Z);
  next : option (option string * Z);
}.

(** A call of [displayCuratedGamesForGenre] suspended at
    [await Promise.all(...)], with the locals it still uses. *)
Record Rendering : Type := {
  rendering_genre : option string;
  rendering_page : Z;
  rendering_totalPages : Z;
  rendering_entries : list CuratedEntry;
}.

(** The navigation state of the curated section: the two fields of the
    [UIManager], the content of the pagination container and the pending
    page renders. The grid and the link container are written but never
    read by navigation, and are left out. *)
Record Nav : Type := {
  activeCuratedTab : option string;
  currentPageByGenre : gmap string Z;
  pagination : Controls;
  rendering : list Rendering;
}.

(** The clicks of the user and the completion of a pending render. *)
Inductive Event : Type :=
| ClickTab (genre : string)
| ClickPrevious
| ClickNext
| RenderDone (k : nat).

(** The key under which [obj[genre]] reads or writes. *)
Definition property_key (genre : option string) : string :=
  default "undefined" genre.

Definition no_controls : Controls := {| prev := None; next := None |}.

Section navigation.

(** The catalog of [CuratedGames.js], property by property in the order
    of the object literal; the property names of an object are distinct. *)
Variable curatedGames : list (string * CategoryData).

(** Whether the document has the three containers. *)
Variables has_grid has_linkContainer has_pagination : bool.

Definition curatedGenres : list string := curatedGames.*1.

Definition category (key : string) : option CategoryData :=
  (list_to_map curatedGames : gmap string CategoryData) !! key.

Definition games_of (key : string) : option (list CuratedEntry) :=
  category key ≫= games.

Definition displayCuratedGamesForGenre (genre : option string) (page : Z)
    (s : Nav) : Nav :=
  let s :=
    {| activeCuratedTab := activeCuratedTab s;
       currentPageByGenre := <[property_key genre := page]> (currentPageByGenre s);
       pagination := pagination s;
       rendering := rendering s |} in
  if negb (has_grid && has_linkContainer) then s
  else if decide (activeCuratedTab s ≠ genre) then s
  else
    match games_of (property_key genre) with
    | None => s
    | Some allGameObjects =>
        {| activeCuratedTab := activeCuratedTab s;
           currentPageByGenre := currentPageByGenre s;
           pagination := pagination s;
           rendering :=
             rendering s ++
             [{| rendering_genre := genre;
                 rendering_page := page;
                 rendering_totalPages := totalPages allGameObjects;
                 rendering_entries := pageGameObjects allGameObjects page |}] |}
    end.

Definition renderCuratedPagination (genre : option string)
    (currentPage totalPages : Z) (s : Nav) : Nav :=
  if negb has_pagination then s
  else
    {| activeCuratedTab := activeCuratedTab s;
       currentPageByGenre := currentPageByGenre s;
       pagination :=
         if decide (totalPages ≤ 1)%Z then no_controls
         else
           {| prev := if decide (currentPage > 1)%Z
                      then Some (genre, currentPage) else None;
              next := if decide (currentPage < totalPages)%Z
                      then Some (genre, currentPage) else None |};
       rendering := rendering s |}.

(** The state left by the constructor, and by [setupCuratedSection], which
    displays the first genre on its default page 1. *)
Definition constructed : Nav :=
  {| activeCuratedTab := head curatedGenres;
     currentPageByGenre := ∅;
     pagination := no_controls;
     rendering := [] |}.

Definition setupCuratedSection (s : Nav) : Nav :=
  displayCuratedGamesForGenre (activeCuratedTab s) 1 s.

(** One event; [None] when the button clicked does not exist or no such
    render is pending. *)
Definition step (e : Event) (s : Nav) : option Nav :=
  match e with
  | ClickTab genre =>
      if decide (genre ∈ curatedGenres) then
        Some (displayCuratedGamesForGenre (Some genre) 1
                {| activeCuratedTab := Some genre;
                   currentPageByGenre := currentPageByGenre s;
                   pagination := pagination s;
                   rendering := rendering s |})
      else None
  | ClickPrevious =>
      '(genre, currentPage) ← prev (pagination s);
      Some (displayCuratedGamesForGenre genre (currentPage - 1) s)
  | ClickNext =>
      '(genre, currentPage) ← next (pagination s);
      Some (displayCuratedGamesForGenre genre (currentPage + 1) s)
  | RenderDone k =>
      r ← rendering s !! k;
      Some (renderCuratedPagination (rendering_genre r) (rendering_page r)
              (rendering_totalPages r)
              {| activeCuratedTab := activeCuratedTab s;
                 currentPageByGenre := currentPageByGenre s;
                 pagination := pagination s;
                 rendering := delete k (rendering s) |})
  end.

Inductive reachable : Nav → Prop :=
| reachable_setup : reachable (setupCuratedSection constructed)
| reachable_step (e : Event) (s s' : Nav) :
    reachable s → step e s = Some s' → reachable s'.

Fixpoint run (events : list Event) (s : Nav) : option Nav :=
  match events with
  | [] => Some s
  | e :: events' => s' ← step e s; run events' s'
  end.

(** A page number that may be stored for a genre: at least 1, and at most
    the number of pages when the genre has a game. *)
Definition valid_page (key : string) (page : Z) : Prop :=
  (1 ≤ page)%Z ∧
  ∀ l, games_of key = Some l → l ≠ [] → (page ≤ totalPages l)%Z.

(** The invariant of navigation: the stored pages are valid, the buttons
    lead to valid pages, and so do the pending renders, which hold the
    page count of their genre. *)
Definition nav_invariant (s : Nav) : Prop :=
  (∀ key page, currentPageByGenre s !! key = Some page → valid_page key page) ∧
  (∀ genre page, prev (pagination s) = Some (genre, page) →
                 valid_page (property_key genre) (page - 1)) ∧
  (∀ genre page, next (pagination s) = Some (genre, page) →
                 valid_page (property_key genre) (page + 1)) ∧
  (∀ r, r ∈ rendering s →
        valid_page (property_key (rendering_genre r)) (rendering_page r) ∧
        ∃ l, games_of (property_key (rendering_genre r)) = Some l ∧
             rendering_totalPages r = totalPages l).

End navigation.

(** *** A sample catalog and session *)

(** A catalog with a genre of two pages and a genre of one page. *)
Definition demo_catalog : list (string * CategoryData) :=
  [("Action"%string, {| link := js "https://example.org/action";
                        games := Some (sample_entries 9) |});
   ("RPG"%string, {| link := js "https://example.org/rpg";
                     games := Some (sample_entries 3) |})].

Definition demo_setup : Nav :=
  setupCuratedSection demo_catalog true true (constructed demo_catalog).

(** The first render completes, the user goes to page 2 of Action and then
    selects the RPG tab. *)
Definition demo_events : list Event := [RenderDone 0; ClickNext; ClickTab "RPG"].

Definition demo_state : Nav :=
  default demo_setup (run demo_catalog true true true demo_events demo_setup).

(** The stored pages as the specification words them: the bounds hold of
    every stored page, and a tab switch keeps every stored page. *)
Definition pages_bounded_and_kept (curatedGames : list (string * CategoryData)) : Prop :=
  ∀ s, reachable curatedGames true true true s →
    (∀ key page l,
       currentPageByGenre s !! key = Some page →
       games_of curatedGames key = Some l →
       (1 ≤ page ≤ totalPages l)%Z) ∧
    (∀ genre s',
       step curatedGames true true true (ClickTab genre) s = Some s' →
       ∀ key page,
         currentPageByGenre s !! key = Some page →
         currentPageByGenre s' !! key = Some page).

End Pagination.

(** ** Search history: [SearchManager.addToHistory] *)

Module SearchHistory.

(** An element of [searchHistory], [{ query, timestamp }]. *)
Record HistoryItem : Type := { query : jsstring; timestamp : Z }.

(** [config.maxHistoryItems]. *)
Definition maxHistoryItems : nat := 50.

(** The in-memory list after [addToHistory(query)] called when [Date.now()]
    is [now]. [!query] holds of the empty string. The function then saves
    the list, which does not change it. *)
Definition addToHistory (query0 : jsstring) (now : Z)
    (searchHistory : list HistoryItem) : list HistoryItem :=
  if decide (query0 = []) then searchHistory
  else
    let searchHistory := filter (λ item, query item ≠ query0) searchHistory in
    let searchHistory := {| query := query0; timestamp := now |} :: searchHistory in
    take maxHistoryItems searchHistory.

(** A sequence of calls, from the oldest. *)
Definition addAll (calls : list (jsstring * Z)) (searchHistory : list HistoryItem)
    : list HistoryItem :=
  foldl (λ h call, addToHistory call.1 call.2 h) searchHistory calls.

(** What every list that [addToHistory] has produced satisfies. *)
Definition history_ok (h : list HistoryItem) : Prop :=
  length h ≤ maxHistoryItems ∧ NoDup (query <$> h).

Definition item_of (call : jsstring * Z) : HistoryItem :=
  {| query := call.1; timestamp := call.2 |}.

(** The calls that add something: those with a query that is not empty. *)
Definition effective (calls : list (jsstring * Z)) : list (jsstring * Z) :=
  filter (λ call, call.1 ≠ []) calls.

End SearchHistory.

(** ** The rest of the [SearchManager]: [removeFromHistory],
       [navigateResults] *)

Module SearchManager.

Import SearchHistory.

(** The in-memory list after [removeFromHistory(query)]. *)
Definition removeFromHistory (query0 : jsstring) (searchHistory : list HistoryItem)
    : list HistoryItem :=
  filter (λ item, query item ≠ query0) searchHistory.

(** A call on the history: an addition at some [Date.now()], or a removal. *)
Inductive HistoryCall : Type :=
| Add (query0 : jsstring) (now : Z)
| Remove (query0 : jsstring).

Definition call (c : HistoryCall) (searchHistory : list HistoryItem)
    : list HistoryItem :=
  match c with
  | Add q now => addToHistory q now searchHistory
  | Remove q => removeFromHistory q searchHistory
  end.

Definition callAll (calls : list HistoryCall) (searchHistory : list HistoryItem)
    : list HistoryItem :=
  foldl (λ h c, call c h) searchHistory calls.

(** *** Keyboard navigation of the result list

    The elements matched by [.search-result, .search-history-item], in
    document order, each by whether its class list has [selected]. *)
Inductive Direction : Type := down | up.

(** The [forEach] that looks for the selected item: the index of the last
    one that is selected, [-1] when there is none. *)
Fixpoint last_selected (index : nat) (items : list bool) (currentIndex : Z) : Z :=
  match items with
  | [] => currentIndex
  | selected :: items' =>
      last_selected (S index) items'
        (if selected then Z.of_nat index else currentIndex)
  end.

(** [items[i]?.classList.remove('selected')] and [.add('selected')]: an
    index outside the list reads [undefined] and nothing happens. *)
Definition set_selected (i : Z) (selected : bool) (items : list bool) : list bool :=
  if decide (0 ≤ i)%Z then <[Z.to_nat i := selected]> items else items.

(** The index that gets the highlight: one further in the direction of
    the key, wrapping around at both ends. *)
Definition next_index (direction : Direction) (currentIndex : Z) (length : nat) : Z :=
  let nextIndex :=
    match direction with
    | down => (currentIndex + 1)%Z
    | up => (currentIndex - 1)%Z
    end in
  let nextIndex := if decide (Z.of_nat length ≤ nextIndex)%Z then 0%Z else nextIndex in
  if decide (nextIndex < 0)%Z then (Z.of_nat length - 1)%Z else nextIndex.

(** [items] is [None] when there is no results container. *)
Definition navigateResults (direction : Direction) (items : option (list bool))
    : option (list bool) :=
  match items with
  | None => None
  | Some items =>
      if decide (length items = 0) then Some items
      else
        let currentIndex := last_selected 0 items (-1) in
        let items := set_selected currentIndex false items in
        let nextIndex := next_index direction currentIndex (length items) in
        Some (set_selected nextIndex true items)
  end.

(** The list of [n] items in which only item [i] is selected. *)
Definition only_selected (n i : nat) : list bool :=
  <[i := true]> (replicate n false).

Definition selected_count (items : list bool) : nat :=
  length (filter (λ b, b = true) items).

End SearchManager.

(** ** The metadata client: [GameAPI.makeRequest], [searchGames],
       [getGameDetails] *)

Module GameAPI.

(** A value given to [url.searchParams.set], which turns it into text. *)
Inductive ParamValue : Type :=
| PNum (n : Z)
| PStr (s : jsstring).

Global Instance ParamValue_eq_dec : EqDecision ParamValue.
Proof. solve_decision. Defined.

(** [URLSearchParams.prototype.set]: the first pair with that name gets the
    value and the other pairs with that name are removed; without such a
    pair, the pair is appended. *)
Fixpoint searchParams_set (name0 : string) (value : ParamValue)
    (pairs : list (string * ParamValue)) : list (string * ParamValue) :=
  match pairs with
  | [] => [(name0, value)]
  | (n, v) :: pairs' =>
      if decide (n = name0)
      then (n, value) :: filter (λ pair, pair.1 ≠ name0) pairs'
      else (n, v) :: searchParams_set name0 value pairs'
  end.

(** The options of [searchGames]; a field is [None] when it is missing or
    [null]. *)
Record SearchOptions : Type := {
  pageSize : option Z;
  page : option Z;
  ordering : option jsstring;
  platforms : option jsstring;
  genres : option jsstring;
}.

(** [x || d] on a number and on a string: [0] and the empty string are
    falsy, like a missing value. *)
Definition num_or (x : option Z) (d : Z) : Z :=
  match x with
  | Some n => if decide (n = 0%Z) then d else n
  | None => d
  end.

Definition str_or (x : option jsstring) (d : jsstring) : jsstring :=
  match x with
  | Some s => if decide (s = []) then d else s
  | None => d
  end.

(** [if (x)] on a string that may be missing. *)
Definition truthy (x : option jsstring) : option jsstring :=
  match x with
  | Some s => if decide (s = []) then None else Some s
  | None => None
  end.

(** The [params] object that [searchGames] builds, property by property. *)
Definition searchGames_params (query : jsstring) (options : SearchOptions)
    : list (string * ParamValue) :=
  [("search"%string, PStr query);
   ("page_size"%string, PNum (num_or (pageSize options) 20));
   ("page"%string, PNum (num_or (page options) 1));
   ("ordering"%string, PStr (str_or (ordering options) (js "-rating")))]
  ++ match truthy (platforms options) with
     | Some p => [("platforms"%string, PStr p)]
     | None => []
     end
  ++ match truthy (genres options) with
     | Some g => [("genres"%string, PStr g)]
     | None => []
     end.

(** The options with every default written out. *)
Definition effective (options : SearchOptions) : SearchOptions :=
  {| pageSize := Some (num_or (pageSize options) 20);
     page := Some (num_or (page options) 1);
     ordering := Some (str_or (ordering options) (js "-rating"));
     platforms := truthy (platforms options);
     genres := truthy (genres options) |}.

Section client.

(** The parsed body of a response. *)
Context {Data : Type}.

(** [this.apiKey], and the text of a URL made of the base URL, an endpoint
    and search parameters, as [URL.prototype.toString] gives it. *)
Variable apiKey : jsstring.
Variable href : jsstring → list (string * ParamValue) → string.

(** An entry of [this.cache]. *)
Record Cached : Type := { cached_data : Data; cached_timestamp : Z }.

(** [this.cacheExpiry]. *)
Definition cacheExpiry : Z := (15 * 60 * 1000)%Z.

(** The text of the URL that [makeRequest] builds, which is its cache key. *)
Definition cacheKey (endpoint : jsstring) (params : list (string * ParamValue))
    : string :=
  href endpoint
    (foldl (λ pairs param, searchParams_set param.1 param.2 pairs)
           (searchParams_set "key" (PStr apiKey) []) params).

(** [makeRequest(endpoint, params)]. [now] is [Date.now()] at the cache
    check and [now_stored] when the response is stored; [fetch] gives the
    body that the network returns for a URL, [None] when the request
    fails, answers with an error status or has no JSON body; [during] is
    what the responses of other requests do to the cache while this one
    is in flight. The result is the resolved value ([None] when the
    promise rejects), the cache and the URLs fetched. *)
Definition makeRequest (endpoint : jsstring) (params : list (string * ParamValue))
    (now : Z) (fetch : string → option Data)
    (during : gmap string Cached → gmap string Cached) (now_stored : Z)
    (cache : gmap string Cached)
    : option Data * gmap string Cached * list string :=
  let key := cacheKey endpoint params in
  let request :=
    let cache := during cache in
    match fetch key with
    | Some data =>
        (Some data,
         <[key := {| cached_data := data; cached_timestamp := now_stored |}]> cache,
         [key])
    | None => (None, cache, [key])
    end in
  match cache !! key with
  | Some cached =>
      if decide (now - cached_timestamp cached < cacheExpiry)%Z
      then (Some (cached_data cached), cache, [])
      else request
  | None => request
  end.

(** The copy of a body that the cache holds for a URL and that has not
    expired at time [now]. *)
Definition fresh_copy (cache : gmap string Cached) (url : string) (now : Z)
    : option Data :=
  match cache !! url with
  | Some cached =>
      if decide (now - cached_timestamp cached < cacheExpiry)%Z
      then Some (cached_data cached) else None
  | None => None
  end.

(** The times, the network and the other traffic of one call of
    [makeRequest]. *)
Record Moment : Type := {
  now : Z;
  fetch : string → option Data;
  during : gmap string Cached → gmap string Cached;
  now_stored : Z;
}.

Definition request (endpoint : jsstring) (params : list (string * ParamValue))
    (m : Moment) (cache : gmap string Cached)
    : option Data * gmap string Cached * list string :=
  makeRequest endpoint params (now m) (fetch m) (during m) (now_stored m) cache.

(** What [searchGames] and [getGameDetails] build from the bodies
    ([formatGameData] and the rest); [None] when building throws on a body
    of an unexpected shape. *)
Context {SearchResult Details : Type}.
Variable searchResult_of : Data → option SearchResult.
Variable details_of : Data → Data → option Details.

(** [searchGames(query, options)]. *)
Definition searchGames (query : jsstring) (options : SearchOptions)
    (m : Moment) (cache : gmap string Cached)
    : option SearchResult * gmap string Cached * list string :=
  let '(data, cache, fetched) :=
    request (js "games") (searchGames_params query options) m cache in
  (data ≫= searchResult_of, cache, fetched).

(** [getGameDetails(gameSlug)]: the game and its screenshots are requested
    one after the other; the second request is made only when the first
    has resolved. [between] is what other requests do to the cache between
    the two. *)
Definition getGameDetails (gameSlug : jsstring) (m1 : Moment)
    (between : gmap string Cached → gmap string Cached) (m2 : Moment)
    (cache : gmap string Cached)
    : option Details * gmap string Cached * list string :=
  match request (js "games/" ++ gameSlug) [] m1 cache with
  | (Some game, cache, fetched1) =>
      match request (js "games/" ++ gameSlug ++ js "/screenshots") [] m2
                    (between cache) with
      | (Some screenshots, cache, fetched2) =>
          (details_of game screenshots, cache, fetched1 ++ fetched2)
      | (None, cache, fetched2) => (None, cache, fetched1 ++ fetched2)
      end
  | (None, cache, fetched1) => (None, cache, fetched1)
  end.

(** Other traffic that leaves the entry of a URL alone. *)
Definition keeps (url : string) (other : gmap string Cached → gmap string Cached)
    : Prop :=
  ∀ cache, other cache !! url = cache !! url.

End client.

(** *** Sample traffic: bodies are numbers, a URL is written without
    percent-encoding, and nothing else is in flight. *)
Definition text (s : jsstring) : string :=
  string_of_list_ascii ((λ c, ascii_of_N c) <$> s).

Definition value_text (value : ParamValue) : string :=
  match value with
  | PNum n => pretty n
  | PStr s => text s
  end.

Definition sample_href (endpoint : jsstring) (params : list (string * ParamValue))
    : string :=
  String.append "https://api.rawg.io/api/"
    (String.append (text endpoint)
       (String.append "?"
          (String.concat "&"
             ((λ pair, String.append pair.1 (String.append "=" (value_text pair.2)))
                <$> params)))).

Definition moment (now0 : Z) (response : option nat) (stored : Z) : @Moment nat :=
  {| now := now0; fetch := λ _, response; during := λ cache, cache;
     now_stored := stored |}.

End GameAPI.

(** * The screenshot lightbox of the UI manager *)

Module Lightbox.

(** What [updateLightboxContent] writes into the page: the source of the
    image ([None] for [undefined]), the two numbers of the counter text and
    the [hidden] class of the two buttons. *)
Record Content : Type := {
  src : option jsstring;
  counter : Z * nat;
  prev_hidden : bool;
  next_hidden : bool;
}.

(** The fields of the manager and the parts of the page that the lightbox
    functions touch. [currentLightboxIndex] is an index of [forEach] or the
    result of [++] and [--] on one, which the code guards; [content] is
    [None] as long as nothing has been written; [scroll_locked] is
    [document.body.style.overflow] being ['hidden']; [listening] says that
    [handleLightboxKeydown] is a [keydown] listener of the document. *)
Record UI : Type := {
  lightboxImages : list jsstring;
  currentLightboxIndex : nat;
  content : option Content;
  active : bool;
  scroll_locked : bool;
  listening : bool;
}.

Inductive Key : Type := ArrowRight | ArrowLeft | Escape | OtherKey.

Inductive Event : Type :=
| ClickScreenshot (index : nat)
| ClickNext
| ClickPrev
| ClickClose
| Keydown (key : Key).

Section page.

(** Whether the page has the element [#screenshot-lightbox], and whether it
    has the image, the counter and the two buttons. *)
Variable has_lightbox : bool.
Variable has_parts : bool.

Definition updateLightboxContent (ui : UI) : UI :=
  if has_parts then
    {| lightboxImages := lightboxImages ui;
       currentLightboxIndex := currentLightboxIndex ui;
       content :=
         Some {| src := lightboxImages ui !! currentLightboxIndex ui;
                 counter := ((Z.of_nat (currentLightboxIndex ui) + 1)%Z,
                             length (lightboxImages ui));
                 prev_hidden := bool_decide (currentLightboxIndex ui = 0);
                 next_hidden :=
                   bool_decide (Z.of_nat (currentLightboxIndex ui)
                                = Z.of_nat (length (lightboxImages ui)) - 1)%Z |};
       active := active ui;
       scroll_locked := scroll_locked ui;
       listening := listening ui |}
  else ui.

Definition set_index (index : nat) (ui : UI) : UI :=
  {| lightboxImages := lightboxImages ui;
     currentLightboxIndex := index;
     content := content ui;
     active := active ui;
     scroll_locked := scroll_locked ui;
     listening := listening ui |}.

Definition set_open (open : bool) (ui : UI) : UI :=
  {| lightboxImages := lightboxImages ui;
     currentLightboxIndex := currentLightboxIndex ui;
     content := content ui;
     active := open;
     scroll_locked := open;
     listening := open |}.

Definition openLightbox (startIndex : nat) (ui : UI) : UI :=
  let ui := set_index startIndex ui in
  if has_lightbox then set_open true (updateLightboxContent ui) else ui.

Definition closeLightbox (ui : UI) : UI :=
  if has_lightbox then set_open false ui else ui.

Definition showNextImage (ui : UI) : UI :=
  if decide (Z.of_nat (currentLightboxIndex ui)
             < Z.of_nat (length (lightboxImages ui)) - 1)%Z
  then updateLightboxContent (set_index (currentLightboxIndex ui + 1) ui)
  else ui.

Definition showPrevImage (ui : UI) : UI :=
  if decide (0 < currentLightboxIndex ui)
  then updateLightboxContent (set_index (currentLightboxIndex ui - 1) ui)
  else ui.

Definition handleLightboxKeydown (key : Key) (ui : UI) : UI :=
  match key with
  | ArrowRight => showNextImage ui
  | ArrowLeft => showPrevImage ui
  | Escape => closeLightbox ui
  | OtherKey => ui
  end.

(** The listeners of [setupScreenshotClickListeners], of the lightbox
    buttons and of the document. *)
Definition step (event : Event) (ui : UI) : UI :=
  match event with
  | ClickScreenshot index => openLightbox index ui
  | ClickNext => showNextImage ui
  | ClickPrev => showPrevImage ui
  | ClickClose => closeLightbox ui
  | Keydown key => if listening ui then handleLightboxKeydown key ui else ui
  end.

Definition run (events : list Event) (ui : UI) : UI :=
  foldl (λ ui event, step event ui) ui events.

End page.




End Lightbox.


(** * Page navigation of the UI manager *)

Module Navigation.

(** The fields and the parts of the browser that [handleNavClick] and
    [navigateToPage] touch: the pages (by page id, the element being
    [`${id}-page`]) and the navigation link with the class [active], the
    URLs that [navigateToPage] pushes on the history (a caller that pushes
    a URL of its own before it calls [navigateToPage], as the router
    does, adds to the history of the browser, not to this list), the
    pages whose content was loaded and the [from] and [to] of the tracked
    [page_navigation] events, oldest first. *)
Record State : Type := {
  currentPage : jsstring;
  active_pages : gset jsstring;
  active_link : option nat;
  pushed : list jsstring;
  loaded : list jsstring;
  tracked : list (jsstring * jsstring);
}.

Inductive Event : Type :=
| ClickLink (link : nat) (page : option jsstring)
| Navigate (pageId : jsstring).

Section document.

(** Whether the document has the element of a page, and whether the
    browser has [history.pushState]. *)
Variable has_page : jsstring → bool.
Variable has_pushState : bool.

Definition navigateToPage (pageId : jsstring) (st : State) : State :=
  let active :=
    if has_page (currentPage st) then active_pages st ∖ {[currentPage st]}
    else active_pages st in
  let active := if has_page pageId then active ∪ {[pageId]} else active in
  {| currentPage := pageId;
     active_pages := active;
     active_link := active_link st;
     pushed :=
       if has_pushState
       then pushed st ++ [if decide (pageId = js "home") then js "/"
                          else js "/" ++ pageId]
       else pushed st;
     loaded := loaded st ++ [pageId];
     tracked := tracked st |}.

(** [handleNavClick] on a link with the given [data-page], [None] when the
    attribute is missing. *)
Definition handleNavClick (link : nat) (page : option jsstring) (st : State) : State :=
  match page with
  | Some page =>
      if decide (page ≠ [] ∧ page ≠ currentPage st) then
        let st := navigateToPage page st in
        {| currentPage := currentPage st;
           active_pages := active_pages st;
           active_link := Some link;
           pushed := pushed st;
           loaded := loaded st;
           tracked := tracked st ++ [(currentPage st, page)] |}
      else st
  | None => st
  end.

(** A click on a navigation link, or a call of [navigateToPage] by
    another caller, as a genre card makes with ['genre-detail']. *)
Definition step (event : Event) (st : State) : State :=
  match event with
  | ClickLink link page => handleNavClick link page st
  | Navigate pageId => navigateToPage pageId st
  end.

Definition run (events : list Event) (st : State) : State :=
  foldl (λ st event, step event st) st events.

End document.

(** The application before the first navigation: the home page is the
    current page, shown or not. *)
Definition start (shown : bool) : State :=
  {| currentPage := js "home";
     active_pages := if shown then {[js "home"]} else ∅;
     active_link := None; pushed := []; loaded := []; tracked := [] |}.

End Navigation.


(** * The games page of the UI manager *)

Module GamesPage.

(** [currentSort.direction], which starts as ['desc'] and is only ever
    assigned ['asc'] or ['desc']. *)
Inductive Direction : Type := desc | asc.

(** [s.startsWith('-')]. *)
Definition startsWith_dash (s : jsstring) : bool :=
  match s with
  | c :: _ => bool_decide (c = 45%N)
  | [] => false
  end.

(** The [ordering] that [loadGamesPageWithNumber] computes from
    [currentSort]. *)
Definition ordering_of (field : jsstring) (direction : Direction) : jsstring :=
  match direction with
  | desc => if startsWith_dash field then field else js "-" ++ field
  | asc => if startsWith_dash field then drop 1 field else field
  end.

(** What the grid shows: nothing yet, the spinner, the games of a request
    (or the text for an empty result) or the error text. *)
Inductive Grid : Type :=
| Untouched
| Loading
| Games (request : nat)
| Failed.

(** The fields of the manager and the parts of the page that the games
    page touches. [label] is the number in the [Page n] text, [None] before
    the first rendering of the controls; [listening] says that the filter
    listeners are installed; [requests] are the options of the calls of
    [searchGames] so far, oldest first, and [answered] the indices of those
    that have settled. *)
Record State : Type := {
  currentGamesPage : Z;
  field : jsstring;
  direction : Direction;
  genres_filter : jsstring;
  grid : Grid;
  label : option Z;
  prev_button : bool;
  next_button : bool;
  listening : bool;
  requests : list (GameAPI.SearchOptions * bool);
  answered : list nat;
}.

Inductive Event : Type :=
| Open
| GenreChange (value : jsstring)
| SortChange (value : jsstring)
| SortDirection
| Previous
| Next
| Resolve (request : nat) (hasPrevious hasNext : bool)
| Reject (request : nat).

(** The state at construction. *)
Definition initial : State :=
  {| currentGamesPage := 1; field := js "-rating"; direction := desc;
     genres_filter := []; grid := Untouched; label := None;
     prev_button := false; next_button := false; listening := false;
     requests := []; answered := [] |}.

Section page.

(** Whether the page has the elements [#games-grid] and
    [#games-pagination]. *)
Variable has_grid : bool.
Variable has_pagination : bool.

(** [searchGames] is called with the options, after the spinner is shown;
    the flag tells the call of [loadGamesPage] from the others. *)
Definition call (options : GameAPI.SearchOptions) (first : bool) (st : State) : State :=
  {| currentGamesPage := currentGamesPage st; field := field st;
     direction := direction st; genres_filter := genres_filter st;
     grid := Loading; label := label st;
     prev_button := prev_button st; next_button := next_button st;
     listening := listening st;
     requests := requests st ++ [(options, first)];
     answered := answered st |}.

(** [loadGamesPage], up to its [await]. *)
Definition loadGamesPage (st : State) : State :=
  if has_grid then
    call {| GameAPI.pageSize := Some 20%Z; GameAPI.page := None;
            GameAPI.ordering := Some (field st);
            GameAPI.platforms := Some (js "17"); GameAPI.genres := None |}
         true st
  else st.

(** [loadGamesPageWithNumber], up to its [await]. *)
Definition loadGamesPageWithNumber (pageNumber : Z) (st : State) : State :=
  if has_grid then
    call {| GameAPI.pageSize := Some 20%Z; GameAPI.page := Some pageNumber;
            GameAPI.ordering := Some (ordering_of (field st) (direction st));
            GameAPI.platforms := Some (js "17");
            GameAPI.genres :=
              if decide (genres_filter st = []) then None
              else Some (genres_filter st) |}
         false st
  else st.

Definition set_page (page : Z) (st : State) : State :=
  {| currentGamesPage := page; field := field st;
     direction := direction st; genres_filter := genres_filter st;
     grid := grid st; label := label st;
     prev_button := prev_button st; next_button := next_button st;
     listening := listening st; requests := requests st;
     answered := answered st |}.

Definition set_filters (field0 : jsstring) (direction0 : Direction)
    (genres0 : jsstring) (st : State) : State :=
  {| currentGamesPage := currentGamesPage st; field := field0;
     direction := direction0; genres_filter := genres0;
     grid := grid st; label := label st;
     prev_button := prev_button st; next_button := next_button st;
     listening := listening st; requests := requests st;
     answered := answered st |}.

Definition applyFiltersAndReloadGames (st : State) : State :=
  loadGamesPageWithNumber 1 (set_page 1 st).

(** [setupPagination] with the flags of a response. *)
Definition setupPagination (hasPrevious hasNext : bool) (st : State) : State :=
  if has_pagination then
    {| currentGamesPage := currentGamesPage st; field := field st;
       direction := direction st; genres_filter := genres_filter st;
       grid := grid st; label := Some (currentGamesPage st);
       prev_button := hasPrevious; next_button := hasNext;
       listening := listening st; requests := requests st;
       answered := answered st |}
  else st.

(** The rest of [loadGamesPage] and of [loadGamesPageWithNumber], when the
    call has resolved and when it has rejected. *)
Definition settle (request : nat) (shown : Grid) (first : bool) (st : State) : State :=
  {| currentGamesPage := currentGamesPage st; field := field st;
     direction := direction st; genres_filter := genres_filter st;
     grid := shown; label := label st;
     prev_button := prev_button st; next_button := next_button st;
     listening := listening st || first; requests := requests st;
     answered := request :: answered st |}.

Definition pending (request : nat) (st : State) : option bool :=
  if decide (request ∈ answered st) then None
  else snd <$> requests st !! request.

Definition step (event : Event) (st : State) : State :=
  match event with
  | Open => loadGamesPage st
  | GenreChange value =>
      if listening st
      then applyFiltersAndReloadGames (set_filters (field st) (direction st) value st)
      else st
  | SortChange value =>
      if listening st
      then applyFiltersAndReloadGames (set_filters value (direction st) (genres_filter st) st)
      else st
  | SortDirection =>
      if listening st
      then applyFiltersAndReloadGames
             (set_filters (field st)
                          (match direction st with desc => asc | asc => desc end)
                          (genres_filter st) st)
      else st
  | Previous =>
      if prev_button st then
        if decide (1 < currentGamesPage st)%Z
        then loadGamesPageWithNumber (currentGamesPage st - 1)
               (set_page (currentGamesPage st - 1) st)
        else st
      else st
  | Next =>
      if next_button st
      then loadGamesPageWithNumber (currentGamesPage st + 1)
             (set_page (currentGamesPage st + 1) st)
      else st
  | Resolve request hasPrevious hasNext =>
      match pending request st with
      | Some first =>
          setupPagination hasPrevious hasNext (settle request (Games request) first st)
      | None => st
      end
  | Reject request =>
      match pending request st with
      | Some first => settle request Failed false st
      | None => st
      end
  end.

Definition run (events : list Event) (st : State) : State :=
  foldl (λ st event, step event st) st events.

End page.

(** The page of a request, as [searchGames] sends it. *)
Definition page_sent (request : GameAPI.SearchOptions * bool) : Z :=
  GameAPI.num_or (GameAPI.page request.1) 1.

(** Use in which every call settles before the next event: an action of
    the user and the answer to the call that it makes, if it makes one. *)
Inductive Answer : Type :=
| Resolved (hasPrevious hasNext : bool)
| Rejected.

Definition answer_event (request : nat) (answer : Answer) : Event :=
  match answer with
  | Resolved hasPrevious hasNext => Resolve request hasPrevious hasNext
  | Rejected => Reject request
  end.

Definition act (has_grid has_pagination : bool) (action : Event) (answer : Answer)
    (st : State) : State :=
  let st' := step has_grid has_pagination action st in
  if decide (length (requests st') = length (requests st)) then st'
  else step has_grid has_pagination
         (answer_event (length (requests st)) answer) st'.

Definition user_action (event : Event) : Prop :=
  match event with
  | Resolve _ _ _ | Reject _ => False
  | _ => True
  end.

(** Every call has settled, and the label shows the page of the games in
    the grid. *)
Definition settled (st : State) : Prop :=
  (1 ≤ currentGamesPage st)%Z ∧
  (∀ request, request ∈ answered st → request < length (requests st)) ∧
  (∀ request, grid st = Games request →
     ∃ options,
       requests st !! request = Some options ∧
       label st = Some (page_sent options)).

Definition run_in_turn (has_grid has_pagination : bool)
    (turns : list (Event * Answer)) (st : State) : State :=
  foldl (λ st turn, act has_grid has_pagination turn.1 turn.2 st) st turns.

End GamesPage.


(** * The placeholders of the curated grid *)

Module Placeholders.
Import Pipeline.

(** The first cell of the grid that carries a placeholder id, which is
    the one that [querySelector] finds, is at position [p]. *)
Definition first_at (placeholderId p : nat) (cells : list Cell) : Prop :=
  (placeholder_id <$> cells !! p) = Some (Some placeholderId) ∧
  ∀ q c, q < p → cells !! q = Some c → placeholder_id c ≠ Some placeholderId.

(** Callbacks that leave the placeholder of an entry where it is, as the
    resolutions of the other entries of the page do. *)
Definition keeps_placeholder (placeholderId p : nat) (other : World → World) : Prop :=
  ∀ w, first_at placeholderId p (grid w) → first_at placeholderId p (grid (other w)).

(** [grid.innerHTML = pageGameObjects.map((_, index) =>
    createGameCardPlaceholderHTML(startIndex + index)).join('')]. *)
Definition placeholders (startIndex count : nat) : list Cell :=
  Skeleton <$> seq startIndex count.

End Placeholders.


(** * The router *)

Module Router.

(** [s.split(sep)] for a separator of one character: the parts between
    the separators, of which there is always at least one. *)
Fixpoint split (sep : N) (s : jsstring) : list jsstring :=
  match s with
  | [] => [[]]
  | c :: s' =>
      if decide (c = sep) then [] :: split sep s'
      else match split sep s' with
           | part :: parts => (c :: part) :: parts
           | [] => [[c]]
           end
  end.

(** The first occurrence of a pattern in a string, as the text before it
    and the text after it. *)
Fixpoint indexOf (pattern s : jsstring) : option (jsstring * jsstring) :=
  if decide (take (length pattern) s = pattern) then Some ([], drop (length pattern) s)
  else match s with
       | [] => None
       | c :: s' =>
           match indexOf pattern s' with
           | Some (before, after) => Some (c :: before, after)
           | None => None
           end
       end.

(** The replacement text of [String.prototype.replace] for a pattern that
    is a string, which has no capture groups: [$$] stands for a dollar,
    [$&] for the matched text, [$`] for the text before it and [$'] for the
    text after it; any other character stands for itself. *)
Fixpoint substitution (matched before after replacement : jsstring) : jsstring :=
  match replacement with
  | 36%N :: 36%N :: rest => 36%N :: substitution matched before after rest
  | 36%N :: 38%N :: rest => matched ++ substitution matched before after rest
  | 36%N :: 96%N :: rest => before ++ substitution matched before after rest
  | 36%N :: 39%N :: rest => after ++ substitution matched before after rest
  | c :: rest => c :: substitution matched before after rest
  | [] => []
  end.

(** [s.replace(pattern, replacement)] with two strings: the first
    occurrence only. *)
Definition replace (pattern replacement s : jsstring) : jsstring :=
  match indexOf pattern s with
  | Some (before, after) =>
      before ++ substitution pattern before after replacement ++ after
  | None => s
  end.

(** A value of [this.routes]; [dynamic] is [false] when the property is
    missing. *)
Record RouteConfig : Type := {
  page : jsstring;
  title : jsstring;
  description : jsstring;
  dynamic : bool;
}.

(** The object that [matchRoute] returns. *)
Record Route : Type := {
  config : RouteConfig;
  path : jsstring;
  params : gmap jsstring jsstring;
}.

(** [this.routes] after [defineRoutes], in insertion order. *)
Definition routes : list (jsstring * RouteConfig) :=
  [(js "/", {| page := js "home"; title := js "PSP Game Explorer";
               description := js "Discover the ultimate PlayStation Portable collection";
               dynamic := false |});
   (js "/games", {| page := js "games"; title := js "All PSP Games";
                    description := js "Browse the complete PSP game library";
                    dynamic := false |});
   (js "/genres", {| page := js "genres"; title := js "Game Genres";
                     description := js "Explore PSP games by category";
                     dynamic := false |});
   (js "/collection", {| page := js "collection"; title := js "My Collection";
                         description := js "Manage your PSP game collection";
                         dynamic := false |});
   (js "/about", {| page := js "about"; title := js "About PSP Game Explorer";
                    description := js "Learn about the ultimate PSP gaming resource";
                    dynamic := false |});
   (js "/game/:id", {| page := js "game-detail"; title := js "Game Details";
                       description := js "Detailed information about a PSP game";
                       dynamic := true |});
   (js "/genre/:slug", {| page := js "genre-detail"; title := js "Genre Games";
                          description := js "Games in a specific genre";
                          dynamic := true |})].

(** The loop of [matchDynamicRoute] over the parts of the two paths, which
    are as many. *)
Fixpoint match_parts (routeParts pathParts : list jsstring)
    (params : gmap jsstring jsstring) : option (gmap jsstring jsstring) :=
  match routeParts, pathParts with
  | routePart :: routeParts', pathPart :: pathParts' =>
      if decide (take 1 routePart = js ":")
      then match_parts routeParts' pathParts' (<[drop 1 routePart := pathPart]> params)
      else if decide (routePart ≠ pathPart) then None
      else match_parts routeParts' pathParts' params
  | _, _ => Some params
  end.

Definition matchDynamicRoute (routePath actualPath : jsstring)
    : option (gmap jsstring jsstring) :=
  let routeParts := split 47 routePath in
  let pathParts := split 47 actualPath in
  if decide (length routeParts ≠ length pathParts) then None
  else match_parts routeParts pathParts ∅.

(** The loop of [matchRoute] over the entries of the map. *)
Fixpoint match_dynamic (entries : list (jsstring * RouteConfig)) (path0 : jsstring)
    : option Route :=
  match entries with
  | [] => None
  | (routePath, routeConfig) :: entries' =>
      if dynamic routeConfig then
        match matchDynamicRoute routePath path0 with
        | Some params0 =>
            Some {| config := routeConfig; path := routePath; params := params0 |}
        | None => match_dynamic entries' path0
        end
      else match_dynamic entries' path0
  end.

Definition routes_get (path0 : jsstring) : option RouteConfig :=
  snd <$> List.find (λ entry, bool_decide (entry.1 = path0)) routes.

Definition matchRoute (path0 : jsstring) : option Route :=
  match routes_get path0 with
  | Some routeConfig => Some {| config := routeConfig; path := path0; params := ∅ |}
  | None => match_dynamic routes path0
  end.

(** [generateUrl(routeName, params)], the parameters in the order of the
    properties of the object. *)
Definition generateUrl (routeName : jsstring) (params0 : list (jsstring * jsstring))
    : jsstring :=
  match List.find (λ entry, bool_decide (page entry.2 = routeName)) routes with
  | Some (targetPath, _) =>
      foldl (λ finalPath param, replace (js ":" ++ param.1) param.2 finalPath)
            targetPath params0
  | None => js "/"
  end.

(** The route that [navigateTo] ends on: the route of the path, or the
    one that a new call with the path [/] ends on. [fuel] bounds the number
    of calls. *)
Fixpoint navigateTo (fuel : nat) (path0 : jsstring) : option Route :=
  match fuel with
  | 0 => None
  | S fuel' =>
      match matchRoute path0 with
      | Some route => Some route
      | None => navigateTo fuel' (js "/")
      end
  end.

End Router.


(** * The notification manager *)

Module Notifications.

(** What an [onClose] callback does to the manager in the run considered:
    the calls of [show] and [clearAll] it makes, in order, and whether it
    ends by throwing. The callbacks considered use the manager as its
    other callers do: through [show], or a method that ends in it
    ([success], [error], [confirm] and the like), and [clearAll], which
    change the bookkeeping at once; through [remove], which schedules a
    removal, an event of its own below; and through [update], which
    leaves the keys of [this.notifications] and the queue as they are. *)
Inductive Call (N : Type) : Type :=
| CallShow (notification : N)
| CallClearAll.

Arguments CallShow {N} notification.
Arguments CallClearAll {N}.

Record Callback (N : Type) : Type := {
  calls : list (Call N);
  throws : bool;
}.

Arguments calls {N} _.
Arguments throws {N} _.

(** A notification object, as far as the bookkeeping reads it; [onClose]
    is [None] when the option is missing or [null]. The manager is
    initialised and not destroyed: its container exists. *)
#[warnings="-register-all"]
Inductive Notification : Type := Build_Notification {
  notification_id : jsstring;
  message : jsstring;
  onClose : option (Callback Notification);
}.

Definition maxNotifications : nat := 5.

(** [this.notifications], [this.queue], and the notifications passed to
    [displayNotification] so far, oldest first. *)
Record State : Type := {
  notifications : gmap jsstring Notification;
  queue : list Notification;
  displayed : list Notification;
}.

(** [processQueue] and, through it, [displayNotification], which call
    each other until the queue is empty or five notifications are
    active. *)
Fixpoint processQueue (queue0 : list Notification)
    (active : gmap jsstring Notification) (shown : list Notification) : State :=
  match queue0 with
  | [] => {| notifications := active; queue := []; displayed := shown |}
  | nextNotification :: queue' =>
      if decide (size active < maxNotifications)
      then processQueue queue'
             (<[notification_id nextNotification := nextNotification]> active)
             (shown ++ [nextNotification])
      else {| notifications := active; queue := queue0; displayed := shown |}
  end.

Definition displayNotification (notification : Notification) (st : State) : State :=
  processQueue (queue st)
    (<[notification_id notification := notification]> (notifications st))
    (displayed st ++ [notification]).

(** [show], for the notification that [createNotification] has made. *)
Definition show (notification : Notification) (st : State) : State :=
  if decide (maxNotifications ≤ size (notifications st))
  then {| notifications := notifications st;
          queue := queue st ++ [notification];
          displayed := displayed st |}
  else displayNotification notification st.

Definition clearAll (st : State) : State :=
  {| notifications := ∅; queue := []; displayed := displayed st |}.

(** One call made by an [onClose] callback. *)
Definition call (c : Call Notification) (st : State) : State :=
  match c with
  | CallShow notification => show notification st
  | CallClearAll => clearAll st
  end.

(** The callback that [remove(notificationId)] schedules for the
    notification it found under that id, when the exit animation is over:
    the id is deleted, the [onClose] of the notification runs if it has
    one, and the queue is processed, unless [onClose] threw, which ends
    the callback there. *)
Definition removed (notificationId : jsstring) (notification : Notification)
    (st : State) : State :=
  let st :=
    {| notifications := delete notificationId (notifications st);
       queue := queue st;
       displayed := displayed st |} in
  match onClose notification with
  | Some callback =>
      let st := foldl (λ st c, call c st) st (calls callback) in
      if throws callback then st
      else processQueue (queue st) (notifications st) (displayed st)
  | None => processQueue (queue st) (notifications st) (displayed st)
  end.

Inductive Event : Type :=
| Show (notification : Notification)
| Removed (notificationId : jsstring) (notification : Notification)
| ClearAll.

Definition step (event : Event) (st : State) : State :=
  match event with
  | Show notification => show notification st
  | Removed notificationId notification => removed notificationId notification st
  | ClearAll => clearAll st
  end.

Definition run (events : list Event) (st : State) : State :=
  foldl (λ st event, step event st) st events.

Definition initial : State :=
  {| notifications := ∅; queue := []; displayed := [] |}.

(** What the [onClose] of a notification does: the notifications it
    shows, whether it calls [clearAll], whether it throws. *)
Definition shown_on_close (notification : Notification) : list Notification :=
  match onClose notification with
  | Some callback =>
      calls callback ≫= λ c,
        match c with
        | CallShow shown => [shown]
        | CallClearAll => []
        end
  | None => []
  end.

Definition clears_on_close (notification : Notification) : bool :=
  match onClose notification with
  | Some callback =>
      existsb (λ c, match c with CallClearAll => true | CallShow _ => false end)
        (calls callback)
  | None => false
  end.

Definition throws_on_close (notification : Notification) : bool :=
  match onClose notification with
  | Some callback => throws callback
  | None => false
  end.

(** The notifications that were shown during the events, by the
    application or by a callback, oldest first. *)
Definition shown_by (events : list Event) : list Notification :=
  events ≫= λ event,
    match event with
    | Show notification => [notification]
    | Removed _ notification => shown_on_close notification
    | ClearAll => []
    end.

(** An event during which [clearAll] runs. *)
Definition clears (event : Event) : bool :=
  match event with
  | Show _ => false
  | Removed _ notification => clears_on_close notification
  | ClearAll => true
  end.

(** An event during which no callback shows a notification or throws. *)
Definition quiet (event : Event) : bool :=
  match event with
  | Removed _ notification =>
      bool_decide (shown_on_close notification = [])
      && negb (throws_on_close notification)
  | Show _ | ClearAll => true
  end.

(** An event that ends before [processQueue] has run: a removal whose
    [onClose] throws. *)
Definition interrupted (event : Event) : bool :=
  match event with
  | Removed _ notification => throws_on_close notification
  | Show _ | ClearAll => false
  end.

(** Notifications without and with a callback. *)
Definition sample (name : string) : Notification :=
  {| notification_id := js name; message := js "saved"; onClose := None |}.

Definition sample_closing (name : string) (callback : Callback Notification)
    : Notification :=
  {| notification_id := js name; message := js "saved"; onClose := Some callback |}.

(** Seven notifications in a row, and the end of the first one, whose
    callback does nothing to the manager. *)
Definition sample_events : list Event :=
  [Show (sample_closing "n1" {| calls := []; throws := false |});
   Show (sample "n2"); Show (sample "n3"); Show (sample "n4");
   Show (sample "n5"); Show (sample "n6"); Show (sample "n7");
   Removed (js "n1") (sample_closing "n1" {| calls := []; throws := false |})].

(** Six notifications in a row, and the end of the first one, whose
    callback shows another one. *)
Definition reentrant_events : list Event :=
  let follow_up := {| calls := [CallShow (sample "n7")]; throws := false |} in
  [Show (sample_closing "n1" follow_up);
   Show (sample "n2"); Show (sample "n3"); Show (sample "n4");
   Show (sample "n5"); Show (sample "n6");
   Removed (js "n1") (sample_closing "n1" follow_up)].

(** Six notifications in a row, and the end of the first one, whose
    callback throws. *)
Definition throwing_events : list Event :=
  let failing := {| calls := []; throws := true |} in
  [Show (sample_closing "n1" failing);
   Show (sample "n2"); Show (sample "n3"); Show (sample "n4");
   Show (sample "n5"); Show (sample "n6");
   Removed (js "n1") (sample_closing "n1" failing)].

End Notifications.


(** * The search dialog: input, results and history *)

Module SearchFlow.
Import SearchHistory.

(** The code units that [String.prototype.trim] removes: white space and
    line terminators. *)
Definition is_space (c : N) : bool :=
  bool_decide (c ∈ [9; 10; 11; 12; 13; 32; 160; 5760; 8232; 8233; 8239; 8287;
                    12288; 65279]%N)
  || bool_decide (8192 ≤ c ≤ 8202)%N.

Fixpoint trimStart (s : jsstring) : jsstring :=
  match s with
  | c :: s' => if is_space c then trimStart s' else s
  | [] => []
  end.

Definition trim (s : jsstring) : jsstring :=
  reverse (trimStart (reverse (trimStart s))).

(** What the results container shows. *)
Inductive View : Type :=
| Untouched
| Blank
| EmptyState
| Recent (queries : list jsstring)
| Searching
| Results (games : list GameRecord)
| NoResults (query0 : jsstring)
| Failure.

(** The fields of the manager that the dialog uses, the container, and
    the queries passed to [searchGames] (with [pageSize] 20), oldest
    first, with the indices of those that have settled. *)
Record State : Type := {
  currentQuery : jsstring;
  searchResults : list GameRecord;
  searchHistory : list HistoryItem;
  view : View;
  requests : list (jsstring * Z);
  answered : list nat;
}.

Inductive Event : Type :=
| Input (value : jsstring)
| Resolve (request : nat) (games : list GameRecord) (now : Z)
| Reject (request : nat)
| RemoveHistory (query0 : jsstring)
| ClearSearch
| Open
| Close.

Section dialog.

(** Whether [this.resultsContainer] is an element. *)
Variable has_container : bool.

Definition set_view (shown : View) (st : State) : State :=
  {| currentQuery := currentQuery st; searchResults := searchResults st;
     searchHistory := searchHistory st;
     view := if has_container then shown else view st;
     requests := requests st; answered := answered st |}.

Definition showSearchHistory (st : State) : State :=
  if has_container then
    if decide (length (searchHistory st) = 0) then set_view EmptyState st
    else set_view (Recent (query <$> take 10 (searchHistory st))) st
  else st.

Definition clearResults (st : State) : State :=
  let st := set_view Blank st in
  {| currentQuery := currentQuery st; searchResults := [];
     searchHistory := searchHistory st; view := view st;
     requests := requests st; answered := answered st |}.

Definition set_query (query0 : jsstring) (st : State) : State :=
  {| currentQuery := query0; searchResults := searchResults st;
     searchHistory := searchHistory st; view := view st;
     requests := requests st; answered := answered st |}.

(** [handleSearchInput], up to its [await]. *)
Definition handleSearchInput (value : jsstring) (st : State) : State :=
  let query0 := trim value in
  let st := set_query query0 st in
  if decide (length query0 = 0) then showSearchHistory st
  else if decide (length query0 < 2) then clearResults st
  else
    let st := set_view Searching st in
    {| currentQuery := currentQuery st; searchResults := searchResults st;
       searchHistory := searchHistory st; view := view st;
       requests := requests st ++ [(query0, 20%Z)]; answered := answered st |}.

Definition displayResults (games : list GameRecord) (now : Z) (st : State) : State :=
  if has_container then
    if decide (length games = 0) then set_view (NoResults (currentQuery st)) st
    else
      let st := set_view (Results games) st in
      {| currentQuery := currentQuery st; searchResults := searchResults st;
         searchHistory := addToHistory (currentQuery st) now (searchHistory st);
         view := view st; requests := requests st; answered := answered st |}
  else st.

Definition settle (request : nat) (st : State) : State :=
  {| currentQuery := currentQuery st; searchResults := searchResults st;
     searchHistory := searchHistory st; view := view st;
     requests := requests st; answered := request :: answered st |}.

Definition pending (request : nat) (st : State) : bool :=
  bool_decide (request < length (requests st) ∧ request ∉ answered st).

Definition step (event : Event) (st : State) : State :=
  match event with
  | Input value => handleSearchInput value st
  | Resolve request games now =>
      if pending request st then
        let st := settle request st in
        displayResults games now
          {| currentQuery := currentQuery st; searchResults := games;
             searchHistory := searchHistory st; view := view st;
             requests := requests st; answered := answered st |}
      else st
  | Reject request =>
      if pending request st then set_view Failure (settle request st) else st
  | RemoveHistory query0 =>
      showSearchHistory
        {| currentQuery := currentQuery st; searchResults := searchResults st;
           searchHistory := SearchManager.removeFromHistory query0 (searchHistory st);
           view := view st; requests := requests st; answered := answered st |}
  | ClearSearch => set_view EmptyState (clearResults (set_query [] st))
  | Open =>
      if decide (currentQuery st = []) then showSearchHistory st else st
  | Close => clearResults st
  end.

Definition run (events : list Event) (st : State) : State :=
  foldl (λ st event, step event st) st events.

End dialog.

(** The manager after [loadSearchHistory] has read the stored history. *)
Definition loaded (stored : list HistoryItem) : State :=
  {| currentQuery := []; searchResults := []; searchHistory := stored;
     view := Untouched; requests := []; answered := [] |}.

(** The texts with which [handleSearchInput] has run. *)
Definition inputs (events : list Event) : list jsstring :=
  events ≫= λ event,
    match event with
    | Input value => [value]
    | _ => []
    end.

End SearchFlow.


(** * The event queue of the analytics manager *)

Module Analytics.

(** [config.batchSize]. *)
Definition batchSize : nat := 10.

(** [l.slice(-n)]: the last [n] elements. *)
Definition slice_last {A : Type} (n : nat) (l : list A) : list A :=
  drop (length l - n) l.

(** The manager and the store, for events of any type: [eventQueue], the
    events in [localStorage], and two records of what happened: the events
    written to the store so far and the batches whose sending has failed
    and whose [catch] block has not run yet, oldest first. *)
Record State {A : Type} : Type := {
  enabled : bool;
  eventQueue : list A;
  stored : list A;
  written : list A;
  failed : list (list A);
}.
Arguments State : clear implicits.

Inductive Event {A : Type} : Type :=
| Track (event : A) (storage_ok : bool)
| Flush (force : bool) (storage_ok : bool)
| Caught.
Arguments Event : clear implicits.

Section manager.
Context {A : Type}.

(** [sendEvents], which fails when the store cannot be read or written. *)
Definition sendEvents (events : list A) (storage_ok : bool) (st : State A) : State A :=
  if storage_ok then
    {| enabled := enabled st; eventQueue := eventQueue st;
       stored := slice_last 1000 (stored st ++ events);
       written := written st ++ events;
       failed := failed st |}
  else
    {| enabled := enabled st; eventQueue := eventQueue st;
       stored := stored st; written := written st;
       failed := failed st ++ [events] |}.

(** [flush(force)], up to its [await]. *)
Definition flush (force : bool) (storage_ok : bool) (st : State A) : State A :=
  if decide (length (eventQueue st) = 0) then st
  else if negb force && bool_decide (length (eventQueue st) < batchSize) then st
  else
    sendEvents (eventQueue st) storage_ok
      {| enabled := enabled st; eventQueue := [];
         stored := stored st; written := written st; failed := failed st |}.

(** The [catch] block of the oldest failed [flush]. *)
Definition caught (st : State A) : State A :=
  match failed st with
  | [] => st
  | events :: failed' =>
      {| enabled := enabled st; eventQueue := events ++ eventQueue st;
         stored := stored st; written := written st; failed := failed' |}
  end.

(** [track], for the event object that it builds. *)
Definition track (event : A) (storage_ok : bool) (st : State A) : State A :=
  if enabled st then
    let st :=
      {| enabled := enabled st; eventQueue := eventQueue st ++ [event];
         stored := stored st; written := written st; failed := failed st |} in
    if decide (batchSize ≤ length (eventQueue st)) then flush false storage_ok st
    else st
  else st.

Definition step (event : Event A) (st : State A) : State A :=
  match event with
  | Track event storage_ok => track event storage_ok st
  | Flush force storage_ok => flush force storage_ok st
  | Caught => caught st
  end.

Definition run (events : list (Event A)) (st : State A) : State A :=
  foldl (λ st event, step event st) st events.

(** The manager at construction, over a store left by earlier sessions. *)
Definition constructed (enabled0 : bool) (stored0 : list A) : State A :=
  {| enabled := enabled0; eventQueue := []; stored := stored0;
     written := []; failed := [] |}.

(** The events tracked, oldest first, and whether the store ever failed. *)
Definition tracked (events : list (Event A)) : list A :=
  events ≫= λ event,
    match event with
    | Track event _ => [event]
    | _ => []
    end.

Definition storage_fine (event : Event A) : Prop :=
  match event with
  | Track _ storage_ok | Flush _ storage_ok => storage_ok = true
  | Caught => True
  end.

End manager.

End Analytics.


(** * The collection manager *)

Module Collections.

(** An entry of a collection, or a game passed to [addToCollection]: its
    [id], its [name], and the properties that the manager adds, [None]
    when missing. The collections are read and written under the seven
    names of [collectionTypes] only. *)
Record Item : Type := {
  item_id : Z;
  item_name : jsstring;
  addedAt : option Z;
  updatedAt : option Z;
  collectionType : option jsstring;
}.

(** [{ ...base, ...over }] for two such objects, of which [over] has an
    [id] and a [name]. *)
Definition spread (base over : Item) : Item :=
  {| item_id := item_id over;
     item_name := item_name over;
     addedAt := match addedAt over with Some t => Some t | None => addedAt base end;
     updatedAt := match updatedAt over with Some t => Some t | None => updatedAt base end;
     collectionType :=
       match collectionType over with Some c => Some c | None => collectionType base end |}.

(** The keys of [this.collectionTypes]. *)
Definition collectionTypes : list jsstring :=
  [js "owned"; js "wishlist"; js "completed"; js "playing"; js "dropped";
   js "favorites"; js "backlog"].

(** [this.collections]. *)
Abbreviation Store := (gmap jsstring (list Item)) (only parsing).

Definition getGameFromCollection (collectionType0 : jsstring) (gameId : Z)
    (collections : Store) : option Item :=
  match collections !! collectionType0 with
  | None => None
  | Some games => List.find (λ game, bool_decide (item_id game = gameId)) games
  end.

Definition isGameInCollection (collectionType0 : jsstring) (gameId : Z)
    (collections : Store) : bool :=
  bool_decide (is_Some (getGameFromCollection collectionType0 gameId collections)).

(** The part of [addToCollection] before its first [await], for a valid
    collection type and the default options: the entry with the id of the
    game is updated, or the game is appended. *)
Definition upsert (collectionType0 : jsstring) (game : Item) (now : Z)
    (collections : Store) : Store :=
  let games := default [] (collections !! collectionType0) in
  match list_find (λ item, item_id item = item_id game) games with
  | Some (existingIndex, existing) =>
      let updated := spread existing game in
      <[collectionType0 :=
          <[existingIndex :=
              {| item_id := item_id updated; item_name := item_name updated;
                 addedAt := addedAt updated; updatedAt := Some now;
                 collectionType := collectionType updated |}]> games]> collections
  | None =>
      <[collectionType0 :=
          games ++ [{| item_id := item_id game; item_name := item_name game;
                       addedAt := Some now; updatedAt := updatedAt game;
                       collectionType := Some collectionType0 |}]]> collections
  end.

(** [removeFromCollection], up to its [await]: the new collections and
    [wasRemoved]. *)
Definition removeFromCollection (collectionType0 : jsstring) (gameId : Z)
    (collections : Store) : Store * bool :=
  match collections !! collectionType0 with
  | None => (collections, false)
  | Some games =>
      let kept := filter (λ game, item_id game ≠ gameId) games in
      (<[collectionType0 := kept]> collections,
       bool_decide (length kept < length games))
  end.

(** The [rules] of [autoManageCollections]. *)
Definition rules (addedToCollection : jsstring) : list jsstring :=
  if decide (addedToCollection = js "completed") then [js "playing"; js "backlog"]
  else if decide (addedToCollection = js "playing") then [js "backlog"]
  else if decide (addedToCollection = js "dropped") then [js "playing"; js "backlog"]
  else [].

(** One round of the loop of [autoManageCollections]. *)
Definition autoRemove (collectionType0 : jsstring) (gameId : Z) (collections : Store)
    : Store :=
  if isGameInCollection collectionType0 gameId collections
  then (removeFromCollection collectionType0 gameId collections).1
  else collections.

(** The special case of [autoManageCollections] for [owned]. *)
Definition autoBacklog (gameId : Z) (now : Z) (collections : Store) : Store :=
  let isInPlayingOrCompleted :=
    isGameInCollection (js "playing") gameId collections
    || isGameInCollection (js "completed") gameId collections
    || isGameInCollection (js "dropped") gameId collections in
  if negb isInPlayingOrCompleted
     && negb (isGameInCollection (js "backlog") gameId collections)
  then
    match getGameFromCollection (js "owned") gameId collections with
    | Some game =>
        <[js "backlog" :=
            default [] (collections !! js "backlog")
            ++ [{| item_id := item_id game; item_name := item_name game;
                   addedAt := Some now; updatedAt := updatedAt game;
                   collectionType := Some (js "backlog") |}]]> collections
    | None => collections
    end
  else collections.

Definition autoManageCollections (gameId : Z) (addedToCollection : jsstring)
    (now : Z) (collections : Store) : Store :=
  let collections :=
    foldl (λ collections collectionType0, autoRemove collectionType0 gameId collections)
          collections (rules addedToCollection) in
  if decide (addedToCollection = js "owned") then autoBacklog gameId now collections
  else collections.

(** [addToCollection] for one of the seven collection types, when no
    other call runs during its awaits. [now] and [later] are the two
    readings of the clock. *)
Definition addToCollection (collectionType0 : jsstring) (game : Item) (now later : Z)
    (collections : Store) : Store :=
  autoManageCollections (item_id game) collectionType0 later
    (upsert collectionType0 game now collections).

(** The pieces of the calls that run without interruption; calls that
    overlap interleave these pieces. A piece is well formed when its
    collection type is one of the seven. *)
Inductive Piece : Type :=
| Upsert (collectionType0 : jsstring) (game : Item) (now : Z)
| Remove (collectionType0 : jsstring) (gameId : Z)
| AutoRemove (collectionType0 : jsstring) (gameId : Z)
| AutoBacklog (gameId : Z) (now : Z).

Definition piece (p : Piece) (collections : Store) : Store :=
  match p with
  | Upsert collectionType0 game now => upsert collectionType0 game now collections
  | Remove collectionType0 gameId =>
      (removeFromCollection collectionType0 gameId collections).1
  | AutoRemove collectionType0 gameId => autoRemove collectionType0 gameId collections
  | AutoBacklog gameId now => autoBacklog gameId now collections
  end.

Definition well_formed (p : Piece) : Prop :=
  match p with
  | Upsert collectionType0 _ _ | Remove collectionType0 _
  | AutoRemove collectionType0 _ => collectionType0 ∈ collectionTypes
  | AutoBacklog _ _ => True
  end.

Definition pieces (ps : list Piece) (collections : Store) : Store :=
  foldl (λ collections p, piece p collections) collections ps.

(** No collection lists a game twice. *)
Definition distinct (collections : Store) : Prop :=
  ∀ collectionType0 games,
    collections !! collectionType0 = Some games → NoDup (item_id <$> games).

Definition listed (collectionType0 : jsstring) (gameId : Z) (collections : Store)
    : Prop :=
  ∃ games game,
    collections !! collectionType0 = Some games ∧ game ∈ games ∧ item_id game = gameId.

Definition sample_item (n : Z) (title : string) : Item :=
  {| item_id := n; item_name := js title; addedAt := None; updatedAt := None;
     collectionType := None |}.

End Collections.


(** * Properties *)

Example lev_ex1 : levenshteinCell (js "") (js "abc") = Some 3.
Proof. vm_compute. reflexivity. Qed.

Example lev_ex2 : levenshteinCell (js "kitten") (js "sitting") = Some 3.
Proof. vm_compute. reflexivity. Qed.

(** ** The recurrence computes the minimum number of edits *)

Section lev_facts.

Lemma lev_nil_r (a : jsstring) : lev a [] = length a.
Proof. by destruct a. Qed.

Lemma lev_cons (x y : N) (a b : jsstring) :
  lev (x :: a) (y :: b) =
  Math_min (lev a (y :: b) + 1) (lev (x :: a) b + 1) (lev a b + indicator x y).
Proof. reflexivity. Qed.

Lemma Math_min_le (x y z n : nat) :
  n ≤ Math_min x y z ↔ n ≤ x ∧ n ≤ y ∧ n ≤ z.
Proof. unfold Math_min. lia. Qed.

Lemma Math_min_cases (x y z : nat) :
  Math_min x y z = x ∨ Math_min x y z = y ∨ Math_min x y z = z.
Proof. unfold Math_min. lia. Qed.

Lemma indicator_le (x y : N) : indicator x y ≤ 1.
Proof. unfold indicator. case_bool_decide; lia. Qed.

(** Dropping the first character of the source costs at most one edit
    in either direction. *)
Lemma lev_cons_l_le (x : N) (a b : jsstring) : lev (x :: a) b ≤ S (lev a b).
Proof.
  destruct b as [|y b]; [rewrite !lev_nil_r; simpl; lia|].
  rewrite lev_cons. unfold Math_min. lia.
Qed.

Lemma lev_cons_r_le (y : N) (a b : jsstring) : lev a (y :: b) ≤ S (lev a b).
Proof.
  destruct a as [|x a]; [simpl; lia|].
  rewrite lev_cons. unfold Math_min. lia.
Qed.

Lemma lev_uncons_l_le (x : N) (a b : jsstring) : lev a b ≤ S (lev (x :: a) b).
Proof.
  induction b as [|y b IH]; [rewrite !lev_nil_r; simpl; lia|].
  rewrite lev_cons. pose proof (lev_cons_r_le y a b).
  pose proof (indicator_le x y). unfold Math_min. lia.
Qed.

Lemma lev_subst_l_le (x x' : N) (a b : jsstring) :
  lev (x :: a) b ≤ S (lev (x' :: a) b).
Proof.
  induction b as [|y b IH]; [rewrite !lev_nil_r; simpl; lia|].
  rewrite !lev_cons. pose proof (indicator_le x y).
  pose proof (indicator_le x' y). unfold Math_min. lia.
Qed.

Lemma lev_cons_mono (x : N) (a a' : jsstring) :
  (∀ b, lev a b ≤ S (lev a' b)) → ∀ b, lev (x :: a) b ≤ S (lev (x :: a') b).
Proof.
  intros H b. induction b as [|y b IH].
  - rewrite !lev_nil_r. specialize (H []). rewrite !lev_nil_r in H. simpl. lia.
  - rewrite !lev_cons. pose proof (H (y :: b)). pose proof (H b).
    unfold Math_min. lia.
Qed.

(** One edit of the source changes the value of the recurrence by at
    most one. *)
Lemma lev_edit1 (a a' : jsstring) :
  edit1 a a' → ∀ b, lev a b ≤ S (lev a' b).
Proof.
  intros He. destruct He as [l1 c l2|l1 c l2|l1 c d l2];
    induction l1 as [|x l1 IH]; rewrite <- ?app_comm_cons, ?app_nil_l.
  - apply lev_uncons_l_le.
  - by apply lev_cons_mono.
  - apply lev_cons_l_le.
  - by apply lev_cons_mono.
  - apply lev_subst_l_le.
  - by apply lev_cons_mono.
Qed.

Lemma lev_lower_bound (n : nat) (a b : jsstring) : edits n a b → lev a b ≤ n.
Proof.
  induction 1 as [a|n a a' b He _ IH].
  - induction a as [|x a IH]; [done|].
    rewrite lev_cons. unfold indicator. rewrite bool_decide_eq_true_2 by done.
    unfold Math_min. lia.
  - pose proof (lev_edit1 _ _ He b). lia.
Qed.

Lemma edit1_cons (x : N) (a b : jsstring) : edit1 a b → edit1 (x :: a) (x :: b).
Proof.
  destruct 1 as [l1 c l2|l1 c l2|l1 c d l2].
  - apply (edit_insert (x :: l1)).
  - apply (edit_delete (x :: l1)).
  - apply (edit_substitute (x :: l1)).
Qed.

Lemma edits_cons (x : N) (n : nat) (a b : jsstring) :
  edits n a b → edits n (x :: a) (x :: b).
Proof.
  induction 1; econstructor; eauto using edit1_cons.
Qed.

Lemma edits_insert_all (b : jsstring) : edits (length b) [] b.
Proof.
  induction b as [|y b IH]; [constructor|].
  simpl. eapply edits_step; [apply (edit_insert [] y [])|].
  by apply edits_cons.
Qed.

Lemma edits_delete_all (a : jsstring) : edits (length a) a [].
Proof.
  induction a as [|x a IH]; [constructor|].
  simpl. eapply edits_step; [apply (edit_delete [] x a)|done].
Qed.

Lemma lev_script (a b : jsstring) : edits (lev a b) a b.
Proof.
  revert b. induction a as [|x a IHa]; intros b; [apply edits_insert_all|].
  induction b as [|y b IHb]; [rewrite lev_nil_r; apply edits_delete_all|].
  rewrite lev_cons.
  destruct (Math_min_cases (lev a (y :: b) + 1) (lev (x :: a) b + 1)
              (lev a b + indicator x y)) as [->|[->| ->]].
  - rewrite Nat.add_1_r. eapply edits_step; [apply (edit_delete [] x a)|].
    apply IHa.
  - rewrite Nat.add_1_r. eapply edits_step; [apply (edit_insert [] y (x :: a))|].
    by apply edits_cons.
  - unfold indicator. case_bool_decide as Hxy.
    + subst y. rewrite Nat.add_0_r. apply edits_cons, IHa.
    + rewrite Nat.add_1_r. eapply edits_step; [apply (edit_substitute [] x y a)|].
      apply edits_cons, IHa.
Qed.

Lemma lev_min_edits (a b : jsstring) : min_edits a b (lev a b).
Proof. split; [apply lev_script|]. intros n. apply lev_lower_bound. Qed.

Lemma min_edits_unique (a b : jsstring) (d d' : nat) :
  min_edits a b d → min_edits a b d' → d = d'.
Proof. intros [H1 H2] [H3 H4]. apply H2 in H3. apply H4 in H1. lia. Qed.

(** Edit scripts can be run backwards and on the mirrored strings, so
    the minimum is symmetric and invariant under reversal. *)
Lemma edit1_sym (a b : jsstring) : edit1 a b → edit1 b a.
Proof. destruct 1; constructor. Qed.

Lemma edits_snoc (n : nat) (a b c : jsstring) :
  edits n a b → edit1 b c → edits (S n) a c.
Proof.
  induction 1 as [a|n a a' b He _ IH]; intros Hc.
  - eapply edits_step; [done|constructor].
  - eapply edits_step; [done|]. by apply IH.
Qed.

Lemma edits_sym (n : nat) (a b : jsstring) : edits n a b → edits n b a.
Proof.
  induction 1 as [a|n a a' b He _ IH]; [constructor|].
  eapply edits_snoc; [done|]. by apply edit1_sym.
Qed.

Lemma reverse_middle (l1 l2 : jsstring) (c : N) :
  reverse (l1 ++ c :: l2) = reverse l2 ++ c :: reverse l1.
Proof. by rewrite reverse_app, reverse_cons, <- app_assoc. Qed.

Lemma edit1_reverse (a b : jsstring) : edit1 a b → edit1 (reverse a) (reverse b).
Proof.
  destruct 1; rewrite ?reverse_middle, ?reverse_app; constructor.
Qed.

Lemma edits_reverse (n : nat) (a b : jsstring) :
  edits n a b → edits n (reverse a) (reverse b).
Proof. induction 1; econstructor; eauto using edit1_reverse. Qed.

Lemma lev_sym (a b : jsstring) : lev a b = lev b a.
Proof.
  apply (min_edits_unique a b); [apply lev_min_edits|].
  split; [apply edits_sym, lev_script|].
  intros n Hn. by apply lev_lower_bound, edits_sym.
Qed.

Lemma lev_reverse (a b : jsstring) : lev (reverse a) (reverse b) = lev a b.
Proof.
  apply (min_edits_unique a b); [|apply lev_min_edits].
  split.
  - rewrite <- (reverse_involutive a), <- (reverse_involutive b) at 2.
    apply edits_reverse, lev_script.
  - intros n Hn. by apply lev_lower_bound, edits_reverse.
Qed.

Lemma lev_refl (a : jsstring) : lev a a = 0.
Proof. pose proof (lev_lower_bound 0 a a (edits_done a)). lia. Qed.

End lev_facts.

(** ** The table of [levenshteinDistance] holds the recurrence *)

Section table.
Variables a b : jsstring.

Lemma well_shaped_set (m : Matrix) (j i v : nat) :
  well_shaped a b m → well_shaped a b (matrix_set m j i v).
Proof.
  intros [Hlen Hrows]. unfold matrix_set. split.
  - by rewrite length_alter.
  - intros j' row. destruct (decide (j = j')) as [<-|Hne].
    + rewrite list_lookup_alter_eq. destruct (m !! j) as [r|] eqn:Hr; [|done].
      intros [= <-]. rewrite length_insert. eauto.
    + rewrite list_lookup_alter_ne by done. eauto.
Qed.

Lemma matrix_get_set_eq (m : Matrix) (j i v : nat) :
  well_shaped a b m → j ≤ length b → i ≤ length a →
  matrix_get (matrix_set m j i v) j i = Some v.
Proof.
  intros [Hlen Hrows] Hj Hi. unfold matrix_get, matrix_set.
  rewrite list_lookup_alter_eq.
  destruct (lookup_lt_is_Some_2 m j) as [row Hrow]; [lia|].
  rewrite Hrow. simpl. rewrite list_lookup_insert_eq; [done|].
  rewrite (Hrows _ _ Hrow). lia.
Qed.

Lemma matrix_get_set_ne (m : Matrix) (j i v j' i' : nat) :
  (j', i') ≠ (j, i) →
  matrix_get (matrix_set m j i v) j' i' = matrix_get m j' i'.
Proof.
  intros Hne. unfold matrix_get, matrix_set.
  destruct (decide (j = j')) as [<-|Hj].
  - rewrite list_lookup_alter_eq. destruct (m !! j) as [row|]; [|done].
    simpl. rewrite list_lookup_insert_ne; [done|congruence].
  - by rewrite list_lookup_alter_ne.
Qed.

Lemma filled_set (K K' : nat → nat → Prop) (m : Matrix) (j i v : nat) :
  filled a b K m → j ≤ length b → i ≤ length a → v = prefix_distance a b j i →
  (∀ j' i', j' ≤ length b → i' ≤ length a →
            K' j' i' → K j' i' ∨ (j' = j ∧ i' = i)) →
  filled a b K' (matrix_set m j i v).
Proof.
  intros [Hshape Hcells] Hj Hi -> HK. split; [by apply well_shaped_set|].
  intros j' i' HK' Hj' Hi'.
  destruct (decide ((j', i') = (j, i))) as [[= -> ->]|Hne].
  - by apply matrix_get_set_eq.
  - rewrite matrix_get_set_ne by done.
    destruct (HK _ _ Hj' Hi' HK') as [?|[-> ->]]; [by apply Hcells|done].
Qed.

Lemma filled_weaken (K K' : nat → nat → Prop) (m : Matrix) :
  filled a b K m →
  (∀ j i, j ≤ length b → i ≤ length a → K' j i → K j i) →
  filled a b K' m.
Proof.
  intros [Hshape Hcells] HK. split; [done|]. intros j i ???. apply Hcells; auto.
Qed.

(** Induction principle of a counting loop. *)
Lemma for_loop_ind {St : Type} (P : nat → St → Prop) (body : St → nat → St)
    (lo n : nat) (s : St) :
  P lo s →
  (∀ k s, lo ≤ k < lo + n → P k s → P (1 + k) (body s k)) →
  P (lo + n) (for_loop lo n body s).
Proof.
  unfold for_loop. revert lo s. induction n as [|n IH]; intros lo s H0 Hstep.
  - by rewrite Nat.add_0_r.
  - simpl. replace (lo + S n) with (S lo + n) by lia. apply IH.
    + apply Hstep; [lia|done].
    + intros k s' Hk. apply Hstep. lia.
Qed.

Lemma prefix_distance_row0 (i : nat) : i ≤ length a → prefix_distance a b 0 i = i.
Proof.
  intros Hi. unfold prefix_distance. rewrite take_0, reverse_nil, lev_nil_r.
  rewrite length_reverse, length_take. lia.
Qed.

Lemma prefix_distance_col0 (j : nat) : j ≤ length b → prefix_distance a b j 0 = j.
Proof.
  intros Hj. unfold prefix_distance. rewrite take_0, reverse_nil. simpl.
  rewrite length_reverse, length_take. lia.
Qed.

Lemma prefix_distance_step (j i : nat) (x y : N) :
  a !! i = Some x → b !! j = Some y →
  prefix_distance a b (S j) (S i) =
  Math_min (prefix_distance a b (S j) i + 1) (prefix_distance a b j (S i) + 1)
           (prefix_distance a b j i + indicator x y).
Proof.
  intros Hx Hy. unfold prefix_distance.
  rewrite (take_S_r a i x), (take_S_r b j y) by done.
  by rewrite !reverse_snoc, lev_cons.
Qed.

Lemma fill_cell_filled (K K' : nat → nat → Prop) (m : Matrix) (j i : nat) :
  1 ≤ j ≤ length b → 1 ≤ i ≤ length a →
  filled a b K m → K j (i - 1) → K (j - 1) i → K (j - 1) (i - 1) →
  (∀ j' i', j' ≤ length b → i' ≤ length a →
            K' j' i' → K j' i' ∨ (j' = j ∧ i' = i)) →
  filled a b K' (fill_cell a b j m i).
Proof.
  intros Hj Hi Hm K1 K2 K3 HK. unfold fill_cell.
  eapply filled_set; [done|lia|lia| |done].
  destruct Hm as [_ Hcells].
  rewrite !Hcells by (done || lia). simpl.
  destruct j as [|j]; [lia|]. destruct i as [|i]; [lia|]. simpl.
  rewrite !Nat.sub_0_r.
  destruct (lookup_lt_is_Some_2 a i) as [x Hx]; [lia|].
  destruct (lookup_lt_is_Some_2 b j) as [y Hy]; [lia|].
  rewrite (prefix_distance_step j i x y) by done.
  rewrite Hx, Hy. unfold indicator. f_equal.
  repeat case_bool_decide; congruence.
Qed.

Lemma levenshteinMatrix_filled : filled a b (λ _ _, True) (levenshteinMatrix a b).
Proof.
  unfold levenshteinMatrix.
  set (m0 := replicate _ _).
  assert (H0 : filled a b (λ j i, j = 0 ∧ i < 0) m0).
  { split; [|intros ?? [_ ?]; lia]. subst m0. split.
    - by rewrite length_replicate.
    - intros j row [-> _]%lookup_replicate. by rewrite length_replicate. }
  set (m1 := for_loop 0 (length a + 1) _ m0).
  assert (H1 : filled a b (λ j i, j = 0 ∧ i < 0 + (length a + 1)) m1).
  { apply (for_loop_ind (λ k m, filled a b (λ j i, j = 0 ∧ i < k) m)); [done|].
    intros k m Hk Hm. eapply filled_set; [done|lia|lia| |].
    - symmetry. apply prefix_distance_row0. lia.
    - intros j' i' _ _ [-> ?]. destruct (decide (i' = k)); [by right|left; lia]. }
  set (m2 := for_loop 0 (length b + 1) _ m1).
  assert (H2 : filled a b (λ j i, j = 0 ∨ (i = 0 ∧ j < 0 + (length b + 1))) m2).
  { apply (for_loop_ind (λ k m, filled a b (λ j i, j = 0 ∨ (i = 0 ∧ j < k)) m)).
    - eapply filled_weaken; [done|]. intros j i _ Hi [->|[_ ?]]; lia.
    - intros k m Hk Hm. eapply filled_set; [done|lia|lia| |].
      + symmetry. apply prefix_distance_col0. lia.
      + intros j' i' _ _ [->|[-> ?]]; [by left; left|].
        destruct (decide (j' = k)); [by right|left; right; lia]. }
  assert (H3 : filled a b (λ j i, j < 1 ∨ i = 0) m2).
  { eapply filled_weaken; [done|]. intros j i Hj _ [?| ->]; lia. }
  eapply filled_weaken.
  - apply (for_loop_ind (λ k m, filled a b (λ j i, j < k ∨ i = 0) m)); [done|].
    intros j m Hj Hm.
    eapply filled_weaken.
    + apply (for_loop_ind
               (λ k m, filled a b (λ j' i', (j' < j ∨ i' = 0) ∨ (j' = j ∧ i' < k)) m)).
      * eapply filled_weaken; [done|]. intros j' i' _ _ [?|[_ ?]]; [done|lia].
      * intros i m' Hi Hm'. eapply fill_cell_filled; [lia|lia|done|..].
        -- destruct (decide (i - 1 = 0)); [left; by right|right; lia].
        -- left; left; lia.
        -- left; left; lia.
        -- intros j' i' _ _ [?|[-> ?]]; [by left; left|].
           destruct (decide (i' = i)); [by right|left; right; lia].
    + simpl. intros j' i' _ Hi' [?| ->]; [|left; by right].
      destruct (decide (j' = j)); [right; lia|left; left; lia].
  - simpl. intros j i Hj _ _. left. lia.
Qed.

(** The returned cell is a number (never [null]) and holds the
    recurrence's value for the whole strings. *)
Lemma levenshteinCell_lev : levenshteinCell a b = Some (lev a b).
Proof.
  unfold levenshteinCell.
  destruct levenshteinMatrix_filled as [_ Hcells].
  rewrite Hcells by done. unfold prefix_distance.
  by rewrite !firstn_all, lev_reverse.
Qed.

Lemma levenshteinDistance_lev : levenshteinDistance a b = lev a b.
Proof. unfold levenshteinDistance. by rewrite levenshteinCell_lev. Qed.

End table.


(** ** What [levenshteinDistance] computes *)

(** C4: [levenshteinDistance a b] is the minimum number of single-character
    insertions, deletions and substitutions that transform [a] into [b];
    the function returns a number for every pair of strings (the returned
    cell is never [null]), the distance from the empty string to [b] is the
    length of [b], and the table has [b.length + 1] rows of [a.length + 1]
    cells. *)
Theorem levenshteinDistance_is_min_edits (a b : jsstring) :
  levenshteinCell a b = Some (levenshteinDistance a b) ∧
  min_edits a b (levenshteinDistance a b) ∧
  levenshteinDistance [] b = length b ∧
  length (levenshteinMatrix a b) = length b + 1 ∧
  Forall (λ row, length row = length a + 1) (levenshteinMatrix a b).
Proof.
  rewrite levenshteinCell_lev, !levenshteinDistance_lev.
  destruct (levenshteinMatrix_filled a b) as [[Hrows Hcols] _].
  split_and!; [done|apply lev_min_edits|done|done|].
  apply Forall_lookup. intros j row. apply Hcols.
Qed.

(** C7: the distance of a string to itself is zero, the distance is
    symmetric, and the two sample values of the specification hold. *)
Theorem levenshteinDistance_refl_sym_samples :
  (∀ s : jsstring, levenshteinDistance s s = 0) ∧
  (∀ a b : jsstring, levenshteinDistance a b = levenshteinDistance b a) ∧
  levenshteinDistance (js "") (js "abc") = 3 ∧
  levenshteinDistance (js "kitten") (js "sitting") = 3.
Proof.
  split; [|split; [|split]].
  - intros s. rewrite levenshteinDistance_lev. apply lev_refl.
  - intros a b. rewrite !levenshteinDistance_lev. apply lev_sym.
  - vm_compute. reflexivity.
  - vm_compute. reflexivity.
Qed.

(** ** The match selector *)

Section matching_facts.
Variable toLowerCase : jsstring → jsstring.
Variable targetTitle : jsstring.

Let exact (g : GameRecord) : Prop :=
  toLowerCase (name g) = toLowerCase targetTitle.
Let dist (g : GameRecord) : nat :=
  levenshteinDistance (toLowerCase targetTitle) (toLowerCase (name g)).
Let scored (g : GameRecord) : Scored :=
  {| game := g; score := dist g |}.

Lemma find_first {A : Type} (f : A → bool) (pre : list A) (x : A) (post : list A) :
  f x = true → (∀ y, y ∈ pre → f y = false) →
  List.find f (pre ++ x :: post) = Some x.
Proof.
  intros Hx. induction pre as [|y pre IH]; intros Hpre; simpl.
  - by rewrite Hx.
  - rewrite (Hpre y) by left. apply IH. intros z Hz. apply Hpre. by right.
Qed.

Lemma find_absent {A : Type} (f : A → bool) (l : list A) :
  (∀ y, y ∈ l → f y = false) → List.find f l = None.
Proof.
  induction l as [|y l IH]; intros Hl; simpl; [done|].
  rewrite (Hl y) by left. apply IH. intros z Hz. apply Hl. by right.
Qed.

Lemma find_elem {A : Type} (f : A → bool) (l : list A) (x : A) :
  List.find f l = Some x → x ∈ l.
Proof. intros [H _]%find_some. by apply list_elem_of_In. Qed.

(** The first element of the sorted array is the first candidate of
    least score. *)
Lemma sort_by_score_first (results : list GameRecord) :
  results ≠ [] →
  ∃ pre g post,
    results = pre ++ g :: post ∧
    (∀ x, x ∈ pre → dist g < dist x) ∧
    (∀ x, x ∈ post → dist g ≤ dist x) ∧
    sort_by_score (scored <$> results) !! 0 = Some (scored g).
Proof.
  induction results as [|x l IH]; [done|]. intros _.
  destruct l as [|y l'].
  { exists [], x, []. split_and!; [done|by intros ? ?%elem_of_nil..|done]. }
  destruct IH as (pre & g & post & Heq & Hpre & Hpost & Hhd); [done|].
  rewrite Heq. rewrite fmap_cons. simpl.
  rewrite Heq in Hhd.
  destruct (sort_by_score (scored <$> pre ++ g :: post)) as [|s rest] eqn:Hs;
    [done|].
  simpl in Hhd. injection Hhd as ->. simpl.
  destruct (decide (dist x ≤ dist g)) as [Hle|Hgt].
  - exists [], x, (pre ++ g :: post). split_and!; [done| |  |done].
    + by intros ? ?%elem_of_nil.
    + intros z [Hz|[->|Hz]%elem_of_cons]%elem_of_app.
      * specialize (Hpre z Hz). lia.
      * done.
      * specialize (Hpost z Hz). lia.
  - exists (x :: pre), g, post. split_and!; [done| |done|done].
    intros z [->|Hz]%elem_of_cons; [lia|auto].
Qed.

End matching_facts.

(** *** The sort

    [sort_by_score] yields an ascending arrangement of the array that
    keeps entries of equal score in their original order, and there is
    only one such arrangement: whatever algorithm the engine uses, a
    stable sort returns this list. *)

Lemma sort_insert_elem_of (x y : Scored) (l : list Scored) :
  y ∈ sort_insert x l ↔ y = x ∨ y ∈ l.
Proof.
  induction l as [|z l IH]; simpl.
  - rewrite list_elem_of_singleton, elem_of_nil. tauto.
  - case_decide.
    + by rewrite elem_of_cons.
    + rewrite !elem_of_cons, IH. tauto.
Qed.

Lemma sort_insert_ascending (x : Scored) (l : list Scored) :
  ascending l → ascending (sort_insert x l).
Proof.
  unfold ascending. induction 1 as [|y l Hl IH Hy]; simpl.
  - repeat constructor.
  - case_decide as Hxy.
    + constructor; [by constructor|]. constructor; [done|].
      eapply Forall_impl; [done|]. simpl. intros; lia.
    + constructor; [done|]. apply Forall_forall.
      intros z [->|Hz]%sort_insert_elem_of; [lia|].
      by eapply Forall_forall in Hy.
Qed.

Lemma sort_by_score_ascending (l : list Scored) : ascending (sort_by_score l).
Proof.
  induction l as [|x l IH]; simpl; [constructor|].
  by apply sort_insert_ascending.
Qed.

Lemma sort_insert_stable (x : Scored) (l : list Scored) :
  same_order_per_score (sort_insert x l) (x :: l).
Proof.
  intros k. induction l as [|y l IH]; simpl; [done|].
  case_decide as Hxy; [done|].
  rewrite !filter_cons in *. rewrite IH.
  repeat case_decide; (done || lia).
Qed.

Lemma sort_by_score_stable (l : list Scored) :
  same_order_per_score (sort_by_score l) l.
Proof.
  intros k. induction l as [|x l IH]; simpl; [done|].
  rewrite sort_insert_stable, !filter_cons. by rewrite IH.
Qed.

Lemma ascending_stable_unique (l1 l2 : list Scored) :
  ascending l1 → ascending l2 → same_order_per_score l1 l2 → l1 = l2.
Proof.
  unfold ascending. intros H1. revert l2.
  induction H1 as [|x l1 Hl1 IH Hx]; intros l2 H2 Hsame.
  - destruct l2 as [|y l2]; [done|].
    specialize (Hsame (score y)). rewrite filter_nil, filter_cons_True in Hsame; done.
  - destruct H2 as [|y l2 Hl2 Hy].
    { specialize (Hsame (score x)). by rewrite filter_nil, filter_cons_True in Hsame. }
    assert (score x = score y) as Hscore.
    { apply Nat.le_antisymm.
      - assert (y ∈ filter (λ z, score z = score y) (x :: l1)) as Hin.
        { rewrite Hsame, filter_cons_True by done. left. }
        apply list_elem_of_filter in Hin as [_ [->|Hin]%elem_of_cons]; [done|].
        by eapply Forall_forall in Hx.
      - assert (x ∈ filter (λ z, score z = score x) (y :: l2)) as Hin.
        { rewrite <- Hsame, filter_cons_True by done. left. }
        apply list_elem_of_filter in Hin as [_ [->|Hin]%elem_of_cons]; [done|].
        by eapply Forall_forall in Hy. }
    pose proof (Hsame (score x)) as Hhead.
    rewrite !filter_cons_True in Hhead by done. injection Hhead as -> Htail.
    f_equal. apply IH; [done|]. intros k. specialize (Hsame k).
    rewrite !filter_cons in Hsame. case_decide; [|done]. by injection Hsame.
Qed.

(** Any stable ascending arrangement of the array is the modelled one. *)
Lemma sort_by_score_unique (l sorted : list Scored) :
  ascending sorted → same_order_per_score sorted l → sorted = sort_by_score l.
Proof.
  intros Hasc Hstable. apply ascending_stable_unique; [done| |].
  - apply sort_by_score_ascending.
  - intros k. by rewrite Hstable, sort_by_score_stable.
Qed.

(** C1: on an empty list (or no list) the selector returns [null]; when
    some candidate's lower-cased name equals the lower-cased target it
    returns the first such candidate, whatever the distances of the others;
    otherwise it takes the first candidate of minimum distance to the
    lower-cased target and returns it exactly when twice that distance is
    below [targetTitle.length], and [null] when it is not. *)
Theorem findBestMatch_selects (toLowerCase : jsstring → jsstring)
    (targetTitle : jsstring) (results : list GameRecord) :
  let exact g := toLowerCase (name g) = toLowerCase targetTitle in
  let dist g :=
    levenshteinDistance (toLowerCase targetTitle) (toLowerCase (name g)) in
  findBestMatch toLowerCase targetTitle None = None ∧
  findBestMatch toLowerCase targetTitle (Some []) = None ∧
  (∀ pre g post,
     results = pre ++ g :: post → exact g → (∀ x, x ∈ pre → ¬ exact x) →
     findBestMatch toLowerCase targetTitle (Some results) = Some g) ∧
  (results ≠ [] → (∀ x, x ∈ results → ¬ exact x) →
   ∃ pre g post,
     results = pre ++ g :: post ∧
     (∀ x, x ∈ pre → dist g < dist x) ∧
     (∀ x, x ∈ post → dist g ≤ dist x) ∧
     findBestMatch toLowerCase targetTitle (Some results) =
       if decide (2 * dist g < length targetTitle) then Some g else None).
Proof.
  intros exact dist. split_and!; [done|done| |].
  - intros pre g post -> Hg Hpre. unfold findBestMatch.
    rewrite (find_first _ pre g post).
    + by destruct pre.
    + by apply bool_decide_eq_true_2.
    + intros y Hy. apply bool_decide_eq_false_2. by apply Hpre.
  - intros Hne Hnone.
    destruct (sort_by_score_first toLowerCase targetTitle results Hne)
      as (pre & g & post & Heq & Hpre & Hpost & Hhd).
    exists pre, g, post. split_and!; [done..|].
    unfold findBestMatch. destruct results as [|r rs]; [done|].
    rewrite find_absent.
    2:{ intros y Hy. apply bool_decide_eq_false_2. by apply Hnone. }
    rewrite Hhd. cbn [score game]. fold (dist g).
    case_bool_decide; case_decide; done.
Qed.

(** C9: the selector returns [null] or one of the candidates it was given,
    at the position it has in the list; the list itself is only read. *)
Theorem findBestMatch_returns_candidate (toLowerCase : jsstring → jsstring)
    (targetTitle : jsstring) (results : list GameRecord) :
  findBestMatch toLowerCase targetTitle None = None ∧
  (findBestMatch toLowerCase targetTitle (Some results) = None ∨
   ∃ g i, findBestMatch toLowerCase targetTitle (Some results) = Some g ∧
          results !! i = Some g ∧ g ∈ results).
Proof.
  split; [done|].
  destruct (findBestMatch toLowerCase targetTitle (Some results)) as [g|] eqn:Hf;
    [right|by left].
  assert (g ∈ results) as Hin.
  { unfold findBestMatch in Hf. destruct results as [|r rs]; [done|].
    set (l := r :: rs) in *.
    destruct (List.find _ l) as [e|] eqn:He.
    - injection Hf as <-. by eapply find_elem.
    - destruct (sort_by_score_first toLowerCase targetTitle l)
        as (pre & g' & post & Heq & _ & _ & Hhd); [done|].
      rewrite Hhd in Hf. simpl in Hf. case_bool_decide; [|done].
      injection Hf as <-. rewrite Heq. set_solver. }
  destruct (proj1 (list_elem_of_lookup _ _) Hin) as [i Hi]. eauto.
Qed.

(** The sample selections of the specification. *)
Example findBestMatch_no_candidates :
  findBestMatch ascii_toLowerCase (js "Final Fantasy") (Some []) = None.
Proof. reflexivity. Qed.

Example findBestMatch_exact_wins :
  findBestMatch ascii_toLowerCase (js "Crisis Core")
    (Some [sample_game 1 "Crisis Core: Final Fantasy VII";
           sample_game 2 "CRISIS core"; sample_game 3 "Crisis Core"])
  = Some (sample_game 2 "CRISIS core").
Proof. vm_compute. reflexivity. Qed.

Example findBestMatch_close_enough :
  findBestMatch ascii_toLowerCase (js "God of War")
    (Some [sample_game 1 "Gods of Warr"])
  = Some (sample_game 1 "Gods of Warr").
Proof. vm_compute. reflexivity. Qed.

Example findBestMatch_too_far :
  findBestMatch ascii_toLowerCase (js "Go")
    (Some [sample_game 1 "Completely Unrelated Title"])
  = None.
Proof. vm_compute. reflexivity. Qed.

(** The threshold is strict: a distance of exactly half the length is
    rejected. *)
Example findBestMatch_half_rejected :
  findBestMatch ascii_toLowerCase (js "abcd") (Some [sample_game 1 "abxy"]) = None
  ∧ findBestMatch ascii_toLowerCase (js "abcde") (Some [sample_game 1 "abcxy"])
    = Some (sample_game 1 "abcxy").
Proof. vm_compute. split; reflexivity. Qed.

Lemma findBestMatch_selects_witness :
  let exact_name := sample_game 2 "CRISIS core" in
  let longer := sample_game 1 "Crisis Core: Final Fantasy VII" in
  let near := sample_game 1 "Gods of Warr" in
  findBestMatch ascii_toLowerCase (js "Crisis Core")
    (Some ([longer] ++ exact_name :: [sample_game 3 "Crisis Core"]))
  = Some exact_name
  ∧ findBestMatch ascii_toLowerCase (js "God of War") (Some [near]) = Some near.
Proof.
  intros exact_name longer near. split.
  - apply (proj1 (proj2 (proj2
      (findBestMatch_selects ascii_toLowerCase (js "Crisis Core")
         ([longer] ++ exact_name :: [sample_game 3 "Crisis Core"]))))
      [longer] exact_name [sample_game 3 "Crisis Core"]).
    + reflexivity.
    + vm_compute. reflexivity.
    + intros x ->%list_elem_of_singleton. vm_compute. discriminate.
  - destruct (proj2 (proj2 (proj2
      (findBestMatch_selects ascii_toLowerCase (js "God of War") [near]))))
      as (pre & g & post & Heq & _ & _ & ->).
    + discriminate.
    + intros x ->%list_elem_of_singleton. vm_compute. discriminate.
    + destruct pre as [|? [|? ?]]; try discriminate.
      injection Heq as <- _. vm_compute. reflexivity.
Defined.

(** ** The resolution pipeline *)

Import Pipeline.

Lemma activeCuratedTab_set_grid (f : list Cell → list Cell) (w : World) :
  activeCuratedTab (set_grid f w) = activeCuratedTab w.
Proof. reflexivity. Qed.

Lemma fetchCuratedGameData_unchanged (toLowerCase : jsstring → jsstring)
    (getGameDetails : jsstring → option GameRecord)
    (searchGames : jsstring → nat → string → option (list GameRecord))
    (during_lookup during_search : World → World)
    (gameObject : CuratedEntry) (currentGenre : option string)
    (placeholderId : nat) (w : World) :
  tab_unchanged currentGenre during_lookup during_search w →
  let '(result, _, requests) :=
    fetchCuratedGameData toLowerCase getGameDetails searchGames
      during_lookup during_search gameObject currentGenre placeholderId w in
  (result, requests) = resolution toLowerCase getGameDetails searchGames gameObject.
Proof.
  intros (Hw & H1 & H2). unfold fetchCuratedGameData, searchFallback, resolution.
  destruct (getGameDetails _) as [record|].
  - rewrite decide_False; [done|]. rewrite H1. by intros [].
  - destruct (searchGames _ _ _) as [games|]; [|done].
    rewrite decide_False.
    + by destruct (findBestMatch _ _ _).
    + rewrite H2, activeCuratedTab_set_grid, H1. by intros [].
Qed.

(** C3: while the active tab is unchanged, a successful slug lookup ends
    the resolution as found with that record after that one request; a
    failed slug lookup is followed by exactly one title search (page size
    5, platform 17) and nothing else; a successful search ends as found
    with the record the match selector chose, or as not found when it
    chose none; a failed search ends as not found. *)
Theorem fetchCuratedGameData_state_machine (toLowerCase : jsstring → jsstring)
    (getGameDetails : jsstring → option GameRecord)
    (searchGames : jsstring → nat → string → option (list GameRecord))
    (during_lookup during_search : World → World)
    (gameObject : CuratedEntry) (currentGenre : option string)
    (placeholderId : nat) (w : World) :
  tab_unchanged currentGenre during_lookup during_search w →
  let '(result, _, requests) :=
    fetchCuratedGameData toLowerCase getGameDetails searchGames
      during_lookup during_search gameObject currentGenre placeholderId w in
  let lookup := GetGameDetails (entry_slug gameObject) in
  let search := SearchGames (entry_title gameObject) 5 "17" in
  match getGameDetails (entry_slug gameObject) with
  | Some record =>
      result = {| status := found; data := Some record |} ∧ requests = [lookup]
  | None =>
      requests = [lookup; search] ∧
      match searchGames (entry_title gameObject) 5 "17" with
      | None => result = {| status := not_found; data := None |}
      | Some games =>
          match findBestMatch toLowerCase (entry_title gameObject) (Some games) with
          | Some selected => result = {| status := found; data := Some selected |}
          | None => result = {| status := not_found; data := None |}
          end
      end
  end.
Proof.
  intros Htab.
  pose proof (fetchCuratedGameData_unchanged toLowerCase getGameDetails searchGames
                during_lookup during_search gameObject currentGenre placeholderId
                w Htab) as H.
  destruct (fetchCuratedGameData _ _ _ _ _ _ _ _ _) as [[result w'] requests].
  unfold resolution in H.
  destruct (getGameDetails _) as [record|].
  - by injection H as -> ->.
  - destruct (searchGames _ _ _) as [games|].
    + destruct (findBestMatch _ _ _); by injection H as -> ->.
    + by injection H as -> ->.
Qed.

(** C6: two resolutions of the same entry against the same responses of
    the metadata API, each with the tab unchanged, end with the same
    status and the same record (so the same [data.slug]), whatever the
    state of the grid, the placeholder addressed and the other callbacks
    that ran in between; the match selector is a function of the title and
    the candidates. *)
Theorem fetchCuratedGameData_deterministic (toLowerCase : jsstring → jsstring)
    (getGameDetails : jsstring → option GameRecord)
    (searchGames : jsstring → nat → string → option (list GameRecord))
    (during_lookup1 during_search1 during_lookup2 during_search2 : World → World)
    (gameObject : CuratedEntry) (currentGenre1 currentGenre2 : option string)
    (placeholderId1 placeholderId2 : nat) (w1 w2 : World) :
  tab_unchanged currentGenre1 during_lookup1 during_search1 w1 →
  tab_unchanged currentGenre2 during_lookup2 during_search2 w2 →
  let first :=
    (fetchCuratedGameData toLowerCase getGameDetails searchGames
       during_lookup1 during_search1 gameObject currentGenre1 placeholderId1 w1).1.1 in
  let second :=
    (fetchCuratedGameData toLowerCase getGameDetails searchGames
       during_lookup2 during_search2 gameObject currentGenre2 placeholderId2 w2).1.1 in
  status first = status second ∧
  slug <$> data first = slug <$> data second ∧
  data first = data second.
Proof.
  intros Htab1 Htab2.
  pose proof (fetchCuratedGameData_unchanged toLowerCase getGameDetails searchGames
                _ _ gameObject _ placeholderId1 _ Htab1) as H1.
  pose proof (fetchCuratedGameData_unchanged toLowerCase getGameDetails searchGames
                _ _ gameObject _ placeholderId2 _ Htab2) as H2.
  destruct (fetchCuratedGameData _ _ _ during_lookup1 _ _ _ _ _) as [[r1 ?] ?].
  destruct (fetchCuratedGameData _ _ _ during_lookup2 _ _ _ _ _) as [[r2 ?] ?].
  simpl. assert (r1 = r2) as -> by congruence. done.
Qed.

(** Without the condition on the tab the two runs can differ, although
    the entry and the responses are the same and both resolutions are
    dispatched on the active tab: the slug lookup of an RPG entry
    succeeds; the run during which the tab stays on RPG ends as found,
    the run during which the user switches to Action is aborted. *)
Lemma fetchCuratedGameData_depends_on_tab :
  ¬ ∀ (toLowerCase : jsstring → jsstring)
      (getGameDetails : jsstring → option GameRecord)
      (searchGames : jsstring → nat → string → option (list GameRecord))
      (during_lookup1 during_search1 during_lookup2 during_search2 : World → World)
      (gameObject : CuratedEntry) (currentGenre : option string)
      (placeholderId : nat) (w : World),
      activeCuratedTab w = currentGenre →
      let first :=
        (fetchCuratedGameData toLowerCase getGameDetails searchGames
           during_lookup1 during_search1 gameObject currentGenre placeholderId w).1.1 in
      let second :=
        (fetchCuratedGameData toLowerCase getGameDetails searchGames
           during_lookup2 during_search2 gameObject currentGenre placeholderId w).1.1 in
      status first = status second ∧
      (status first = found → slug <$> data first = slug <$> data second).
Proof.
  intros Hclaim.
  specialize (Hclaim ascii_toLowerCase (λ _, Some (sample_game 1 "Crisis Core"))
                (λ _ _ _, None) id id switch_to_action id rpg_entry
                (Some "RPG"%string) 0 rpg_world eq_refl).
  vm_compute in Hclaim. destruct Hclaim as [Hstatus _]. discriminate Hstatus.
Qed.

(** The two runs, evaluated. *)
Example fetchCuratedGameData_found_or_aborted :
  let run (during_lookup : World → World) :=
    (fetchCuratedGameData ascii_toLowerCase (λ _, Some (sample_game 1 "Crisis Core"))
       (λ _ _ _, None) during_lookup id rpg_entry (Some "RPG"%string) 0 rpg_world).1.1 in
  run id = {| status := found; data := Some (sample_game 1 "Crisis Core") |} ∧
  run switch_to_action = {| status := aborted; data := None |}.
Proof. vm_compute. by split. Qed.

(** *** Cancellation *)

(** Where the token is checked, a changed tab aborts the resolution and
    nothing is written: after a successful slug lookup, *)
Lemma fetchCuratedGameData_aborts_after_lookup (toLowerCase : jsstring → jsstring)
    (getGameDetails : jsstring → option GameRecord)
    (searchGames : jsstring → nat → string → option (list GameRecord))
    (during_lookup during_search : World → World)
    (gameObject : CuratedEntry) (currentGenre : option string)
    (placeholderId : nat) (w : World) :
  is_Some (getGameDetails (entry_slug gameObject)) →
  activeCuratedTab (during_lookup w) ≠ currentGenre →
  let '(result, w', _) :=
    fetchCuratedGameData toLowerCase getGameDetails searchGames
      during_lookup during_search gameObject currentGenre placeholderId w in
  status result = aborted ∧ data result = None ∧ w' = during_lookup w.
Proof.
  intros [record Hrecord] Htab. unfold fetchCuratedGameData.
  rewrite Hrecord. by rewrite decide_True.
Qed.

(** and in the callback of [displayCuratedGamesForGenre], which leaves
    the grid as it finds it. *)
Lemma renderEntry_skips_when_switched (toLowerCase : jsstring → jsstring)
    (getGameDetails : jsstring → option GameRecord)
    (searchGames : jsstring → nat → string → option (list GameRecord))
    (during_lookup during_search before_render : World → World)
    (gameObject : CuratedEntry) (genre : option string)
    (placeholderId : nat) (w : World) :
  let fetched :=
    (fetchCuratedGameData toLowerCase getGameDetails searchGames
       during_lookup during_search gameObject genre placeholderId w).1.2 in
  activeCuratedTab (before_render fetched) ≠ genre →
  renderEntry toLowerCase getGameDetails searchGames during_lookup during_search
    before_render gameObject genre placeholderId w
  = before_render fetched.
Proof.
  intros fetched Htab. unfold renderEntry. subst fetched.
  destruct (fetchCuratedGameData _ _ _ _ _ _ _ _ _) as [[result w'] requests].
  simpl in *. by rewrite decide_True.
Qed.

(** After a failed slug lookup the token is not read: the placeholder with
    the entry's id is rewritten whatever the active tab is, and a failed
    search then ends as not found. *)
Lemma fetchCuratedGameData_unchecked_after_failed_lookup
    (toLowerCase : jsstring → jsstring)
    (getGameDetails : jsstring → option GameRecord)
    (searchGames : jsstring → nat → string → option (list GameRecord))
    (during_lookup : World → World)
    (gameObject : CuratedEntry) (currentGenre : option string)
    (placeholderId : nat) (w : World) :
  getGameDetails (entry_slug gameObject) = None →
  searchGames (entry_title gameObject) 5 "17" = None →
  let '(result, w', _) :=
    fetchCuratedGameData toLowerCase getGameDetails searchGames
      during_lookup id gameObject currentGenre placeholderId w in
  status result = not_found ∧
  grid w' = patch_placeholder placeholderId
              (Searching placeholderId (entry_title gameObject))
              (grid (during_lookup w)).
Proof.
  intros Hlookup Hsearch. unfold fetchCuratedGameData, searchFallback.
  by rewrite Hlookup, Hsearch.
Qed.

(** C2: the run on which the code departs from the claim. The slug lookup
    of an RPG entry fails after the user has switched to Action, and so
    does the search: the resolution ends as not found instead of aborted,
    and it has written its searching state into the first placeholder of
    the Action grid, without reading the token after the failed lookup. *)
Theorem fetchCuratedGameData_stale_write :
  let '(result, w', requests) :=
    fetchCuratedGameData ascii_toLowerCase (λ _, None) (λ _ _ _, None)
      switch_to_action id rpg_entry (Some "RPG"%string) 0 rpg_world in
  activeCuratedTab w' = Some "Action"%string ∧
  status result = not_found ∧
  grid (switch_to_action rpg_world) = [Skeleton 0; Skeleton 1] ∧
  grid w' = [Searching 0 (js "Crisis Core"); Skeleton 1].
Proof. vm_compute. by split_and!. Qed.

(** With a search that succeeds the result is aborted, but the write has
    happened all the same. *)
Example fetchCuratedGameData_stale_write_then_abort :
  let '(result, w', requests) :=
    fetchCuratedGameData ascii_toLowerCase (λ _, None)
      (λ _ _ _, Some [sample_game 1 "Crisis Core"])
      switch_to_action id rpg_entry (Some "RPG"%string) 0 rpg_world in
  status result = aborted ∧
  grid w' = [Searching 0 (js "Crisis Core"); Skeleton 1].
Proof. vm_compute. by split_and!. Qed.

(** *** Sample resolutions *)

Lemma tab_unchanged_idle (w : World) : tab_unchanged (activeCuratedTab w) id id w.
Proof. by split_and!. Qed.

Lemma fetchCuratedGameData_state_machine_witness :
  tab_unchanged (Some "RPG"%string) id id rpg_world ∧
  let fetched :=
    fetchCuratedGameData ascii_toLowerCase (λ _, None) sample_search
      id id rpg_entry (Some "RPG"%string) 0 rpg_world in
  fetched.2 = [GetGameDetails (js "crisis-core"); SearchGames (js "Crisis Core") 5 "17"] ∧
  fetched.1.1 = {| status := found; data := Some (sample_game 8 "crisis core") |}.
Proof.
  split; [exact (tab_unchanged_idle rpg_world)|].
  pose proof (fetchCuratedGameData_state_machine ascii_toLowerCase (λ _, None)
                sample_search id id rpg_entry (Some "RPG"%string) 0 rpg_world
                (tab_unchanged_idle rpg_world)) as Hrun.
  destruct (fetchCuratedGameData _ _ _ _ _ _ _ _ _) as [[result w'] requests].
  simpl in Hrun. destruct Hrun as [Hrequests Hresult].
  split; [exact Hrequests|]. simpl. rewrite Hresult. vm_compute. reflexivity.
Defined.

Lemma tab_unchanged_emptied :
  tab_unchanged (Some "RPG"%string) (set_grid (λ _, [])) id other_world.
Proof. by split_and!. Qed.

Lemma fetchCuratedGameData_deterministic_witness :
  tab_unchanged (Some "RPG"%string) id id rpg_world ∧
  tab_unchanged (Some "RPG"%string) (set_grid (λ _, [])) id other_world ∧
  let first :=
    (fetchCuratedGameData ascii_toLowerCase (λ _, None) sample_search
       id id rpg_entry (Some "RPG"%string) 0 rpg_world).1.1 in
  let second :=
    (fetchCuratedGameData ascii_toLowerCase (λ _, None) sample_search
       (set_grid (λ _, [])) id rpg_entry (Some "RPG"%string) 5 other_world).1.1 in
  status first = status second ∧
  slug <$> data first = slug <$> data second ∧
  data first = data second.
Proof.
  split; [exact (tab_unchanged_idle rpg_world)|].
  split; [exact tab_unchanged_emptied|].
  exact (fetchCuratedGameData_deterministic ascii_toLowerCase (λ _, None)
           sample_search id id (set_grid (λ _, [])) id rpg_entry
           (Some "RPG"%string) (Some "RPG"%string) 0 5 rpg_world other_world
           (tab_unchanged_idle rpg_world) tab_unchanged_emptied).
Defined.

(** ** Search history *)

Import SearchHistory.

Lemma addToHistory_empty (now : Z) (h : list HistoryItem) :
  addToHistory [] now h = h.
Proof. reflexivity. Qed.

Lemma addToHistory_nonempty (q : jsstring) (now : Z) (h : list HistoryItem) :
  q ≠ [] →
  addToHistory q now h =
  {| query := q; timestamp := now |}
    :: take (maxHistoryItems - 1) (filter (λ item, query item ≠ q) h).
Proof. intros Hq. unfold addToHistory. by rewrite decide_False. Qed.

Lemma addToHistory_ok (q : jsstring) (now : Z) (h : list HistoryItem) :
  history_ok h → history_ok (addToHistory q now h).
Proof.
  intros [Hlen Hnd]. destruct (decide (q = [])) as [->|Hq]; [done|].
  rewrite addToHistory_nonempty by done. split.
  - simpl. rewrite length_take. unfold maxHistoryItems. lia.
  - rewrite fmap_cons. simpl. apply NoDup_cons. split.
    + intros (item & Heq & Hin)%list_elem_of_fmap.
      apply (subseteq_take (maxHistoryItems - 1)) in Hin.
      apply list_elem_of_filter in Hin as [Hne _]. by apply Hne.
    + eapply sublist_NoDup; [exact Hnd|].
      apply fmap_sublist. etrans; [apply sublist_take|apply sublist_filter].
Qed.

Lemma addAll_ok (calls : list (jsstring * Z)) (h : list HistoryItem) :
  history_ok h → history_ok (addAll calls h).
Proof.
  revert h. induction calls as [|call calls IH]; intros h Hh; [done|].
  apply IH. by apply addToHistory_ok.
Qed.

Lemma addAll_snoc (calls : list (jsstring * Z)) (call : jsstring * Z)
    (h : list HistoryItem) :
  addAll (calls ++ [call]) h = addToHistory call.1 call.2 (addAll calls h).
Proof. unfold addAll. by rewrite foldl_snoc. Qed.

Lemma addAll_head (calls : list (jsstring * Z)) (h : list HistoryItem) :
  effective calls ≠ [] →
  head (addAll calls h) = item_of <$> last (effective calls).
Proof.
  induction calls as [|call calls IH] using rev_ind; [done|].
  unfold effective. rewrite filter_app, addAll_snoc. intros Hne.
  destruct call as [q now].
  destruct (decide (q = [])) as [->|Hq].
  - rewrite filter_cons_False in * by (simpl; auto).
    rewrite filter_nil, app_nil_r in *. rewrite addToHistory_empty. by apply IH.
  - rewrite filter_cons_True by done. rewrite filter_nil, last_snoc.
    simpl. by rewrite addToHistory_nonempty.
Qed.

(** C10: starting from the empty history of the constructor, or from any
    list that [addToHistory] produced earlier, every sequence of calls
    leaves at most 50 entries, no two of them with the same query, and
    the query added last, with its timestamp, is the first entry. *)
Theorem addToHistory_invariant (calls : list (jsstring * Z))
    (searchHistory : list HistoryItem) :
  history_ok searchHistory →
  let h := addAll calls searchHistory in
  length h ≤ 50 ∧
  (∀ i j x y, h !! i = Some x → h !! j = Some y → query x = query y → i = j) ∧
  (∀ q now, last (effective calls) = Some (q, now) →
            head h = Some {| query := q; timestamp := now |}).
Proof.
  intros Hok h. destruct (addAll_ok calls searchHistory Hok) as [Hlen Hnd].
  split_and!.
  - exact Hlen.
  - intros i j x y Hi Hj Hq.
    apply (NoDup_lookup (query <$> h) i j (query x)); [done|..].
    + by rewrite list_lookup_fmap, Hi.
    + by rewrite list_lookup_fmap, Hj, Hq.
  - intros q now Hlast. subst h. rewrite addAll_head.
    + by rewrite Hlast.
    + intros Hnil. by rewrite Hnil in Hlast.
Qed.

Lemma history_ok_nil : history_ok [].
Proof. split; [simpl; lia|constructor]. Qed.

Lemma addToHistory_invariant_witness :
  history_ok [] ∧
  let h := addAll [(js "god of war", 10%Z); (js "", 20%Z);
                   (js "persona", 30%Z); (js "god of war", 40%Z)] [] in
  length h ≤ 50 ∧
  h = [ {| query := js "god of war"; timestamp := 40 |};
        {| query := js "persona"; timestamp := 30 |} ] ∧
  head h = Some {| query := js "god of war"; timestamp := 40 |}.
Proof.
  split; [exact history_ok_nil|].
  pose proof (addToHistory_invariant
                [(js "god of war", 10%Z); (js "", 20%Z);
                 (js "persona", 30%Z); (js "god of war", 40%Z)] []
                history_ok_nil) as (Hlen & _ & Hfront).
  split; [exact Hlen|]. split; [vm_compute; reflexivity|].
  apply Hfront. vm_compute. reflexivity.
Defined.

(** ** Pages of a curated list *)

Import Pagination.

Lemma totalPages_ceil (l : list CuratedEntry) :
  (Z.of_nat (length l) ≤ 8 * totalPages l < Z.of_nat (length l) + 8)%Z.
Proof.
  unfold totalPages, Math_ceil_div, gamesPerPage.
  pose proof (Z.div_mod (- Z.of_nat (length l)) 8 ltac:(lia)).
  pose proof (Z.mod_pos_bound (- Z.of_nat (length l)) 8 ltac:(lia)).
  lia.
Qed.

Lemma totalPages_pos (l : list CuratedEntry) : l ≠ [] → (1 ≤ totalPages l)%Z.
Proof.
  intros Hl. pose proof (totalPages_ceil l).
  destruct l; [done|]. simpl in *. lia.
Qed.

(** For a non-negative start, [slice] is [drop] followed by [take]. *)
Lemma slice_take_drop {A : Type} (l : list A) (start n : nat) :
  slice l (Z.of_nat start) (Z.of_nat start + Z.of_nat n) = take n (drop start l).
Proof.
  unfold slice. rewrite !decide_False by lia.
  set (len := Z.of_nat (length l)).
  destruct (decide (start ≤ length l)) as [Hle|Hgt].
  - rewrite (Z.min_l (Z.of_nat start)) by lia. rewrite Nat2Z.id.
    destruct (decide (start + n ≤ length l)).
    + rewrite (Z.min_l (Z.of_nat start + Z.of_nat n)) by lia. f_equal. lia.
    + rewrite (Z.min_r (Z.of_nat start + Z.of_nat n)) by lia.
      rewrite !take_ge; [done|rewrite length_drop; lia..].
  - rewrite (Z.min_r (Z.of_nat start)), (Z.min_r (Z.of_nat start + Z.of_nat n)) by lia.
    rewrite Z.sub_diag. simpl.
    rewrite (drop_ge l start) by lia. by rewrite take_nil.
Qed.

Lemma pageGameObjects_take_drop (allGameObjects : list CuratedEntry) (page : Z) :
  (1 ≤ page)%Z →
  pageGameObjects allGameObjects page =
  take 8 (drop (Z.to_nat ((page - 1) * 8)) allGameObjects).
Proof.
  intros Hp. unfold pageGameObjects, gamesPerPage.
  rewrite <- (slice_take_drop allGameObjects (Z.to_nat ((page - 1) * 8)) 8).
  f_equal; lia.
Qed.

(** C5: for a page number [p ≥ 1], the page view is the part of the
    genre's list from index [(p-1)*8] up to, and excluding, [p*8], in list
    order; page 1 is the first 8 entries (all of them when there are
    fewer), and the last page is the remainder, which has 1 to 8 entries. *)
Theorem pageGameObjects_is_slice (allGameObjects : list CuratedEntry) (page : Z) :
  (1 ≤ page)%Z →
  let view := pageGameObjects allGameObjects page in
  let start := Z.to_nat ((page - 1) * 8) in
  (∀ i, view !! i = if decide (i < 8) then allGameObjects !! (start + i) else None) ∧
  (page = 1%Z → view = take 8 allGameObjects) ∧
  (page = totalPages allGameObjects →
   view = drop start allGameObjects ∧ 1 ≤ length view ≤ 8).
Proof.
  intros Hp view start. subst view.
  rewrite pageGameObjects_take_drop by done. fold start. split_and!.
  - intros i. case_decide.
    + by rewrite lookup_take_lt, lookup_drop.
    + apply lookup_take_ge. lia.
  - intros ->. by subst start.
  - intros Hlast. pose proof (totalPages_ceil allGameObjects) as Hceil.
    rewrite <- Hlast in Hceil.
    assert (length (drop start allGameObjects) = length allGameObjects - start) as Hlen
      by apply length_drop.
    rewrite take_ge by (rewrite Hlen; lia).
    split; [done|]. rewrite Hlen. lia.
Qed.

Lemma pageGameObjects_is_slice_witness :
  (1 ≤ 2)%Z ∧
  pageGameObjects (sample_entries 10) 2 !! 1 = sample_entries 10 !! 9 ∧
  pageGameObjects (sample_entries 10) 2 = drop 8 (sample_entries 10) ∧
  1 ≤ length (pageGameObjects (sample_entries 10) 2) ≤ 8.
Proof.
  split; [lia|].
  destruct (pageGameObjects_is_slice (sample_entries 10) 2 ltac:(lia))
    as (Hcells & _ & Hlast).
  split; [exact (Hcells 1)|].
  apply Hlast. vm_compute. reflexivity.
Defined.

(** Page numbers start at 1. Below 1 the negative-index rule of [slice]
    applies, so the hypothesis of the theorem is needed. *)
Example pageGameObjects_below_first_page :
  pageGameObjects (sample_entries 20) 0 = []
  ∧ pageGameObjects (sample_entries 20) (-1) = take 8 (drop 4 (sample_entries 20)).
Proof. vm_compute. split; reflexivity. Qed.

Example pageGameObjects_first_page :
  pageGameObjects (sample_entries 10) 1 = sample_entries 8
  ∧ pageGameObjects (sample_entries 3) 1 = sample_entries 3.
Proof. vm_compute. split; reflexivity. Qed.

(** ** The stored page numbers *)

Section navigation_facts.
Variable curatedGames : list (string * CategoryData).
Variables has_grid has_linkContainer has_pagination : bool.

Let display := displayCuratedGamesForGenre curatedGames has_grid has_linkContainer.
Let step := step curatedGames has_grid has_linkContainer has_pagination.
Let reachable := reachable curatedGames has_grid has_linkContainer has_pagination.

Lemma valid_page_first (key : string) : valid_page curatedGames key 1.
Proof. split; [done|]. intros l _. apply totalPages_pos. Qed.

Lemma display_currentPageByGenre (genre : option string) (page : Z) (s : Nav) :
  currentPageByGenre (display genre page s) =
  <[property_key genre := page]> (currentPageByGenre s).
Proof.
  unfold display, displayCuratedGamesForGenre.
  destruct (negb _); [done|]. case_decide; [done|].
  by destruct (Pagination.games_of _ _).
Qed.

(** When the call gets past its guards, it dispatches the entries of the
    requested page and suspends with the page count of the genre. *)
Lemma display_dispatches (genre : option string) (page : Z) (s : Nav)
    (allGameObjects : list CuratedEntry) :
  has_grid = true → has_linkContainer = true →
  activeCuratedTab s = genre →
  games_of curatedGames (property_key genre) = Some allGameObjects →
  rendering (display genre page s) =
  rendering s ++
  [{| rendering_genre := genre;
      rendering_page := page;
      rendering_totalPages := totalPages allGameObjects;
      rendering_entries := pageGameObjects allGameObjects page |}].
Proof.
  intros -> -> Htab Hgames. unfold display, displayCuratedGamesForGenre.
  simpl. rewrite decide_False by (by intros []). by rewrite Hgames.
Qed.

Lemma display_invariant (genre : option string) (page : Z) (s : Nav) :
  nav_invariant curatedGames s → valid_page curatedGames (property_key genre) page →
  nav_invariant curatedGames (display genre page s).
Proof.
  intros (Hstored & Hprev & Hnext & Hrend) Hpage.
  assert (∀ key p, <[property_key genre := page]> (currentPageByGenre s) !! key = Some p
                   → valid_page curatedGames key p) as Hstored'.
  { intros key p. rewrite lookup_insert. case_decide as Hk.
    - intros [= <-]. by rewrite <- Hk.
    - apply Hstored. }
  unfold display, displayCuratedGamesForGenre.
  destruct (negb _); [by split_and!|]. case_decide; [by split_and!|].
  destruct (Pagination.games_of _ _) as [l|] eqn:Hl; [|by split_and!].
  split_and!; [done..|]. simpl.
  intros r [Hr| ->%list_elem_of_singleton]%elem_of_app; [by apply Hrend|].
  simpl. split; [done|]. by exists l.
Qed.

Lemma render_invariant (genre : option string) (page pages : Z) (s : Nav) :
  nav_invariant curatedGames s → valid_page curatedGames (property_key genre) page →
  (∃ l, games_of curatedGames (property_key genre) = Some l ∧ pages = totalPages l) →
  nav_invariant curatedGames (renderCuratedPagination has_pagination genre page pages s).
Proof.
  intros (Hstored & Hprev & Hnext & Hrend) [Hlo Hhi] (l & Hl & ->).
  unfold renderCuratedPagination. destruct (negb _); [by split_and!|].
  assert (l ≠ [] ∨ (totalPages l ≤ 1)%Z) as Hcase.
  { destruct l; [right|by left]. vm_compute. discriminate. }
  split_and!; [done| | |done]; simpl; intros g p;
    (case_decide; [done|]); simpl; (case_decide; [|done]); intros [= <- <-].
  - split; [lia|]. intros l' Hl' Hne. specialize (Hhi l' Hl' Hne). lia.
  - split; [lia|]. intros l' Hl' Hne.
    assert (l' = l) as -> by congruence. lia.
Qed.

Lemma step_invariant (e : Event) (s s' : Nav) :
  nav_invariant curatedGames s → step e s = Some s' → nav_invariant curatedGames s'.
Proof.
  intros Hs. pose proof Hs as (Hstored & Hprev & Hnext & Hrend).
  destruct e as [genre| | |k]; unfold step; simpl.
  - case_decide; [|done]. intros [= <-].
    apply display_invariant; [by split_and!|apply valid_page_first].
  - destruct (prev (pagination s)) as [[genre page]|] eqn:Hp; [|done].
    simpl. intros [= <-]. apply display_invariant; auto.
  - destruct (next (pagination s)) as [[genre page]|] eqn:Hn; [|done].
    simpl. intros [= <-]. apply display_invariant; auto.
  - destruct (rendering s !! k) as [r|] eqn:Hr; [|done].
    simpl. intros [= <-].
    destruct (Hrend r) as [Hpage Hpages]; [by eapply list_elem_of_lookup_2|].
    apply render_invariant; [|done..].
    split_and!; [done..|]. simpl. intros r' Hr'. apply Hrend.
    eapply elem_of_sublist; [done|]. apply sublist_delete.
Qed.

Lemma reachable_invariant (s : Nav) : reachable s → nav_invariant curatedGames s.
Proof.
  induction 1 as [|e s s' _ IH Hstep].
  - apply display_invariant; [|apply valid_page_first].
    split_and!; simpl; try done. by intros r ?%elem_of_nil.
  - by eapply step_invariant.
Qed.

Lemma reachable_run (events : list Event) (s s' : Nav) :
  reachable s →
  run curatedGames has_grid has_linkContainer has_pagination events s = Some s' →
  reachable s'.
Proof.
  revert s. induction events as [|e events IH]; intros s Hs; simpl.
  - by intros [= <-].
  - destruct (Pagination.step _ _ _ _ e s) as [s1|] eqn:Hstep; [|done].
    simpl. apply IH. by eapply reachable_step.
Qed.

(** What a click on a tab does to the stored pages. *)
Lemma click_tab_pages (genre : string) (s s' : Nav) :
  step (ClickTab genre) s = Some s' →
  currentPageByGenre s' = <[genre := 1%Z]> (currentPageByGenre s).
Proof.
  unfold step. simpl. case_decide; [|done]. intros [= <-].
  by rewrite display_currentPageByGenre.
Qed.

End navigation_facts.

(** C8, as the code has it: in every state reached from the set-up of
    the curated section by tab selections, Previous and Next clicks and
    completions of page renders, every stored page number is at least 1,
    and at most the number of pages [ceil(n / 8)] of its genre when the
    genre has [n ≥ 1] curated games; a tab selection stores page 1 for the
    selected genre and leaves the page stored for every other genre as it
    was. *)
Theorem currentPageByGenre_valid (curatedGames : list (string * CategoryData))
    (has_grid has_linkContainer has_pagination : bool) (s : Nav) :
  reachable curatedGames has_grid has_linkContainer has_pagination s →
  (∀ key page,
     currentPageByGenre s !! key = Some page →
     (1 ≤ page)%Z ∧
     ∀ l, games_of curatedGames key = Some l → l ≠ [] →
          (page ≤ totalPages l)%Z ∧ (8 * (page - 1) < Z.of_nat (length l))%Z) ∧
  (∀ genre s',
     step curatedGames has_grid has_linkContainer has_pagination
          (ClickTab genre) s = Some s' →
     currentPageByGenre s' !! genre = Some 1%Z ∧
     ∀ key, key ≠ genre →
            currentPageByGenre s' !! key = currentPageByGenre s !! key).
Proof.
  intros Hs. split.
  - intros key page Hpage.
    destruct (reachable_invariant _ _ _ _ s Hs) as (Hstored & _).
    destruct (Hstored key page Hpage) as [Hlo Hhi]. split; [done|].
    intros l Hl Hne. specialize (Hhi l Hl Hne).
    pose proof (totalPages_ceil l). lia.
  - intros genre s' Hstep.
    rewrite (click_tab_pages _ _ _ _ genre s s' Hstep). split.
    + apply lookup_insert_eq.
    + intros key Hkey. by apply lookup_insert_ne.
Qed.

Lemma demo_state_reachable : reachable demo_catalog true true true demo_state.
Proof.
  apply (reachable_run demo_catalog true true true demo_events demo_setup).
  - apply reachable_setup.
  - vm_compute. reflexivity.
Qed.

Example demo_state_pages :
  currentPageByGenre demo_state
  = ({[ "Action"%string := 2%Z; "RPG"%string := 1%Z ]} : gmap string Z).
Proof. vm_compute. reflexivity. Qed.

Lemma currentPageByGenre_valid_witness :
  reachable demo_catalog true true true demo_state ∧
  (1 ≤ 2 ≤ totalPages (sample_entries 9))%Z ∧
  ∀ s', step demo_catalog true true true (ClickTab "Action") demo_state = Some s' →
        currentPageByGenre s' !! "Action"%string = Some 1%Z ∧
        currentPageByGenre s' !! "RPG"%string = Some 1%Z.
Proof.
  split; [exact demo_state_reachable|].
  destruct (currentPageByGenre_valid demo_catalog true true true demo_state
              demo_state_reachable) as [Hbounds Htab].
  split.
  - destruct (Hbounds "Action"%string 2%Z) as [Hlo Hhi];
      [vm_compute; reflexivity|].
    destruct (Hhi (sample_entries 9)) as [Hhi' _];
      [vm_compute; reflexivity|discriminate|].
    split; [exact Hlo|exact Hhi'].
  - intros s' Hstep. destruct (Htab "Action"%string s' Hstep) as [H1 Hother].
    split; [exact H1|]. rewrite (Hother "RPG"%string) by discriminate.
    vm_compute. reflexivity.
Defined.

(** Coming back to the Action tab stores page 1 for it, although page 2
    was stored when the user left it. *)
Lemma pages_not_kept_on_tab_switch : ¬ pages_bounded_and_kept demo_catalog.
Proof.
  intros Hclaim.
  destruct (Hclaim demo_state demo_state_reachable) as [_ Hkept].
  destruct (step demo_catalog true true true (ClickTab "Action") demo_state)
    as [s'|] eqn:Hstep; [|vm_compute in Hstep; discriminate].
  specialize (Hkept "Action"%string s' Hstep "Action"%string 2%Z).
  rewrite (click_tab_pages _ _ _ _ _ _ _ Hstep), lookup_insert_eq in Hkept.
  assert (Some 1%Z = Some 2%Z) as Habs; [|discriminate Habs].
  apply Hkept. vm_compute. reflexivity.
Qed.

(** A genre with an empty list of games has no page, yet page 1 is stored
    for it when its tab is selected. *)
Example empty_genre_page :
  let catalog := [("Puzzle"%string, {| link := []; games := Some [] |})] in
  let s := setupCuratedSection catalog true true (constructed catalog) in
  reachable catalog true true true s ∧
  currentPageByGenre s !! "Puzzle"%string = Some 1%Z ∧
  games_of catalog "Puzzle" = Some [] ∧
  totalPages [] = 0%Z.
Proof.
  intros catalog s. split; [apply reachable_setup|].
  vm_compute. by split_and!.
Qed.

(** * Further properties of the code around the resolver *)

(** ** The search history under additions and removals *)

Import SearchManager.

Lemma removeFromHistory_ok (q : jsstring) (h : list HistoryItem) :
  history_ok h → history_ok (removeFromHistory q h).
Proof.
  intros [Hlen Hnd]. unfold removeFromHistory. split.
  - etrans; [apply length_filter|done].
  - eapply sublist_NoDup; [exact Hnd|]. apply fmap_sublist, sublist_filter.
Qed.

Lemma removeFromHistory_absent (q : jsstring) (h : list HistoryItem) :
  q ∉ query <$> removeFromHistory q h.
Proof.
  intros (item & Heq & Hin)%list_elem_of_fmap.
  apply list_elem_of_filter in Hin as [Hne _]. by apply Hne.
Qed.

Lemma callAll_snoc (calls : list HistoryCall) (c : HistoryCall)
    (h : list HistoryItem) :
  callAll (calls ++ [c]) h = call c (callAll calls h).
Proof. unfold callAll. by rewrite foldl_snoc. Qed.

(** X1: whatever mix of additions and removals is made on a history that
    has at most 50 entries with distinct queries, the history keeps at
    most 50 entries with distinct queries; and right after
    [removeFromHistory(q)] no entry has the query [q]. *)
Theorem history_add_remove_invariant (calls : list HistoryCall)
    (searchHistory : list HistoryItem) :
  history_ok searchHistory →
  let h := callAll calls searchHistory in
  length h ≤ 50 ∧ NoDup (query <$> h) ∧
  ∀ q, last calls = Some (Remove q) → ∀ item, item ∈ h → query item ≠ q.
Proof.
  intros Hok h.
  assert (history_ok h) as [Hlen Hnd].
  { subst h. revert searchHistory Hok.
    induction calls as [|c calls IH]; intros h0 Hok; [done|].
    apply IH. destruct c; [by apply addToHistory_ok|by apply removeFromHistory_ok]. }
  split_and!; [done..|].
  intros q Hlast item Hin Hq.
  apply last_Some in Hlast as [calls' ->]. subst h.
  rewrite callAll_snoc in Hin. simpl in Hin. subst q.
  apply (removeFromHistory_absent (query item) (callAll calls' searchHistory)).
  by apply list_elem_of_fmap_2.
Qed.

Lemma history_add_remove_invariant_witness :
  history_ok [] ∧
  let h := callAll [Add (js "persona") 10; Add (js "patapon") 20;
                    Remove (js "persona")] [] in
  length h ≤ 50 ∧ ∀ item, item ∈ h → query item ≠ js "persona".
Proof.
  split; [exact history_ok_nil|].
  destruct (history_add_remove_invariant
              [Add (js "persona") 10; Add (js "patapon") 20; Remove (js "persona")]
              [] history_ok_nil) as (Hlen & _ & Habsent).
  intros h. split; [exact Hlen|]. apply Habsent. reflexivity.
Defined.

Lemma filter_all {A : Type} (P : A → Prop) `{∀ x, Decision (P x)} (l : list A) :
  (∀ x, x ∈ l → P x) → filter P l = l.
Proof.
  induction l as [|x l IH]; intros Hl; [done|].
  rewrite filter_cons_True by (apply Hl; left).
  f_equal. apply IH. intros y Hy. apply Hl. by right.
Qed.

Lemma filter_take_filter {A : Type} (P : A → Prop) `{∀ x, Decision (P x)}
    (n : nat) (l : list A) :
  filter P (take n (filter P l)) = take n (filter P l).
Proof.
  apply filter_all. intros x Hx%(subseteq_take n).
  by apply list_elem_of_filter in Hx as [? _].
Qed.

(** X2: searching again for the query that is already the most recent one
    only refreshes its timestamp: adding [q] twice in a row leaves the same
    list as adding it once at the later time. *)
Theorem addToHistory_twice (q : jsstring) (t1 t2 : Z) (searchHistory : list HistoryItem) :
  addToHistory q t2 (addToHistory q t1 searchHistory) = addToHistory q t2 searchHistory.
Proof.
  destruct (decide (q = [])) as [->|Hq]; [done|].
  rewrite !addToHistory_nonempty by done. f_equal.
  rewrite filter_cons_False by (simpl; auto).
  rewrite filter_take_filter. by rewrite take_take, Nat.min_id.
Qed.

(** X3: what an addition does to the other entries. A query that is
    already in the history moves to the front and nothing is dropped; a new
    query is put in front of the unchanged list when fewer than 50 entries
    are stored, and pushes out the oldest entry when 50 are. *)
Theorem addToHistory_eviction (q : jsstring) (now : Z) (searchHistory : list HistoryItem) :
  q ≠ [] → length searchHistory ≤ 50 → NoDup (query <$> searchHistory) →
  let added := {| query := q; timestamp := now |} in
  let h := addToHistory q now searchHistory in
  (q ∈ query <$> searchHistory →
   h = added :: removeFromHistory q searchHistory ∧
   length h = length searchHistory) ∧
  (q ∉ query <$> searchHistory → length searchHistory < 50 →
   h = added :: searchHistory) ∧
  (q ∉ query <$> searchHistory → length searchHistory = 50 →
   h = added :: take 49 searchHistory ∧
   last searchHistory ≠ last h).
Proof.
  intros Hq Hlen Hnd added h. subst h. rewrite addToHistory_nonempty by done.
  fold added. fold (removeFromHistory q searchHistory).
  assert (q ∉ query <$> searchHistory → removeFromHistory q searchHistory = searchHistory)
    as Hfresh.
  { intros Hnot. apply filter_all. intros item Hin Heq. apply Hnot.
    rewrite <- Heq. by apply list_elem_of_fmap_2. }
  split_and!.
  - intros Hin.
    assert (S (length (removeFromHistory q searchHistory)) = length searchHistory)
      as Hone.
    { clear Hlen Hfresh. induction searchHistory as [|item l IH]; [by apply elem_of_nil in Hin|].
      rewrite fmap_cons in Hnd, Hin. apply NoDup_cons in Hnd as [Hnotin Hnd].
      unfold removeFromHistory in *. simpl.
      destruct (decide (query item = q)) as [Heq|Hne].
      - rewrite filter_cons_False by (simpl; auto). rewrite <- Heq in *.
        rewrite filter_all; [done|]. intros x Hx Hxq. apply Hnotin.
        rewrite <- Hxq. by apply list_elem_of_fmap_2.
      - rewrite filter_cons_True by done. simpl. f_equal. apply IH; [done|].
        apply elem_of_cons in Hin as [?|?]; [congruence|done]. }
    rewrite take_ge by (unfold maxHistoryItems; lia).
    split; [done|]. simpl. lia.
  - intros Hnot Hlt. rewrite Hfresh by done.
    by rewrite take_ge by (unfold maxHistoryItems; lia).
  - intros Hnot Hfull. rewrite Hfresh by done. split; [done|].
    rewrite !last_lookup. simpl. rewrite length_take, Hfull. simpl.
    rewrite lookup_take_lt by lia.
    intros Heq.
    destruct (lookup_lt_is_Some_2 searchHistory 49 ltac:(lia)) as [x Hx].
    destruct (lookup_lt_is_Some_2 searchHistory 48 ltac:(lia)) as [y Hy].
    rewrite Hx, Hy in Heq. injection Heq as ->.
    assert (49 = 48) by (eapply (NoDup_lookup _ 49 48 (query y) Hnd);
                          by rewrite list_lookup_fmap, ?Hx, ?Hy).
    lia.
Qed.

Lemma addToHistory_eviction_witness :
  let stored := [ {| query := js "persona"; timestamp := 10 |};
                  {| query := js "patapon"; timestamp := 20 |} ] in
  js "patapon" ≠ [] ∧ length stored ≤ 50 ∧ NoDup (query <$> stored) ∧
  addToHistory (js "patapon") 30 stored =
    [ {| query := js "patapon"; timestamp := 30 |};
      {| query := js "persona"; timestamp := 10 |} ] ∧
  addToHistory (js "lumines") 30 stored =
    {| query := js "lumines"; timestamp := 30 |} :: stored.
Proof.
  intros stored.
  assert (NoDup (query <$> stored)) as Hnd.
  { refine (bool_decide_unpack _ _). vm_compute. exact I. }
  split; [discriminate|]. split; [simpl; lia|]. split; [exact Hnd|].
  split.
  - destruct (addToHistory_eviction (js "patapon") 30 stored) as [Hpresent _];
      [discriminate|simpl; lia|exact Hnd|].
    destruct Hpresent as [-> _]; [|vm_compute; reflexivity].
    refine (bool_decide_unpack _ _). vm_compute. exact I.
  - destruct (addToHistory_eviction (js "lumines") 30 stored) as (_ & Hnew & _);
      [discriminate|simpl; lia|exact Hnd|].
    apply Hnew; [|simpl; lia].
    refine (bool_decide_unpack _ _). vm_compute. exact I.
Defined.

(** ** Keyboard navigation of the results *)

Lemma last_selected_none (index n : nat) (currentIndex : Z) :
  last_selected index (replicate n false) currentIndex = currentIndex.
Proof.
  revert index. induction n as [|n IH]; intros index; simpl; [done|apply IH].
Qed.

Lemma only_selected_0 (n : nat) : only_selected (S n) 0 = true :: replicate n false.
Proof. reflexivity. Qed.

Lemma only_selected_S (n i : nat) :
  only_selected (S n) (S i) = false :: only_selected n i.
Proof. reflexivity. Qed.

Lemma last_selected_only (index n i : nat) (currentIndex : Z) :
  i < n →
  last_selected index (only_selected n i) currentIndex = Z.of_nat (index + i).
Proof.
  revert index i currentIndex.
  induction n as [|n IH]; intros index i currentIndex Hi; [lia|].
  destruct i as [|i].
  - rewrite only_selected_0. simpl. rewrite last_selected_none. f_equal. lia.
  - rewrite only_selected_S. simpl. rewrite IH by lia. f_equal. lia.
Qed.

Lemma selected_count_cons (b : bool) (items : list bool) :
  selected_count (b :: items) = (if b then 1 else 0) + selected_count items.
Proof.
  unfold selected_count. destruct b.
  - by rewrite filter_cons_True.
  - by rewrite filter_cons_False.
Qed.

Lemma selected_count_none (n : nat) : selected_count (replicate n false) = 0.
Proof.
  induction n as [|n IH]; [done|].
  by rewrite replicate_S, selected_count_cons, IH.
Qed.

Lemma selected_count_only (n i : nat) : i < n → selected_count (only_selected n i) = 1.
Proof.
  revert i. induction n as [|n IH]; intros i Hi; [lia|].
  destruct i as [|i].
  - by rewrite only_selected_0, selected_count_cons, selected_count_none.
  - rewrite only_selected_S, selected_count_cons, IH; [done|lia].
Qed.

(** A list with at most one selected item has none or just one. *)
Lemma at_most_one_selected (items : list bool) :
  selected_count items ≤ 1 →
  items = replicate (length items) false ∨
  ∃ i, i < length items ∧ items = only_selected (length items) i.
Proof.
  induction items as [|b items IH]; intros Hcount; [by left|].
  rewrite selected_count_cons in Hcount.
  change (length (b :: items)) with (S (length items)).
  destruct b.
  - right. exists 0. split; [lia|]. rewrite only_selected_0. f_equal.
    destruct IH as [Hnone|(i & Hi & Honly)]; [lia|done|].
    exfalso. rewrite Honly, selected_count_only in Hcount by done. lia.
  - destruct IH as [Hnone|(i & Hi & Honly)]; [simpl in Hcount; lia| |].
    + left. rewrite replicate_S. by f_equal.
    + right. exists (S i). split; [lia|]. rewrite only_selected_S. by f_equal.
Qed.

Lemma length_only_selected (n i : nat) : length (only_selected n i) = n.
Proof. unfold only_selected. by rewrite length_insert, length_replicate. Qed.

(** The step from no selection, and from the selection of item [i]. *)
Lemma navigateResults_from_none (direction : Direction) (n : nat) :
  0 < n →
  navigateResults direction (Some (replicate n false)) =
  Some (only_selected n (match direction with down => 0 | up => n - 1 end)).
Proof.
  intros Hn. unfold navigateResults.
  rewrite length_replicate, decide_False by lia.
  rewrite last_selected_none.
  assert (set_selected (-1) false (replicate n false) = replicate n false) as ->.
  { unfold set_selected. by rewrite decide_False by lia. }
  rewrite length_replicate. unfold next_index, set_selected, only_selected.
  destruct direction; repeat case_decide; try lia; do 2 f_equal; lia.
Qed.

Lemma navigateResults_from_only (direction : Direction) (n i : nat) :
  i < n →
  navigateResults direction (Some (only_selected n i)) =
  Some (only_selected n
          (match direction with
           | down => if decide (i + 1 = n) then 0 else i + 1
           | up => if decide (i = 0) then n - 1 else i - 1
           end)).
Proof.
  intros Hi. unfold navigateResults.
  rewrite length_only_selected, decide_False by lia.
  rewrite last_selected_only by done. simpl.
  assert (set_selected (Z.of_nat i) false (only_selected n i) = replicate n false)
    as ->.
  { unfold set_selected, only_selected. rewrite decide_True by lia.
    rewrite Nat2Z.id, list_insert_insert_eq. apply insert_replicate. }
  rewrite length_replicate. unfold next_index, set_selected, only_selected.
  destruct direction; repeat case_decide; try lia; do 2 f_equal; lia.
Qed.

(** X4: when the result list is not empty and at most one of its items is
    highlighted, an arrow key leaves exactly one item highlighted, in a
    list of the same length. *)
Theorem navigateResults_one_selected (direction : Direction) (items : list bool) :
  items ≠ [] → selected_count items ≤ 1 →
  ∃ result,
    navigateResults direction (Some items) = Some result ∧
    length result = length items ∧
    selected_count result = 1.
Proof.
  intros Hne Hcount.
  assert (0 < length items) as Hlen by (destruct items; [done|simpl; lia]).
  destruct (at_most_one_selected items Hcount) as [->|(i & Hi & ->)];
    rewrite ?length_replicate, ?length_only_selected in *.
  - rewrite navigateResults_from_none by done. eexists. split; [done|].
    rewrite length_only_selected. split; [done|].
    apply selected_count_only. destruct direction; lia.
  - rewrite navigateResults_from_only by done. eexists. split; [done|].
    rewrite length_only_selected. split; [done|].
    apply selected_count_only. destruct direction; case_decide; lia.
Qed.

Lemma navigateResults_one_selected_witness :
  [false; true; false] ≠ [] ∧ selected_count [false; true; false] ≤ 1 ∧
  ∃ result,
    navigateResults down (Some [false; true; false]) = Some result ∧
    length result = 3 ∧ selected_count result = 1.
Proof.
  assert (selected_count [false; true; false] ≤ 1) as Hcount
    by (vm_compute; lia).
  split; [discriminate|]. split; [exact Hcount|].
  exact (navigateResults_one_selected down [false; true; false]
           ltac:(discriminate) Hcount).
Defined.

(** X5: the highlight moves by one item and wraps around: down from the
    last item goes to the first and up from the first goes to the last;
    with nothing highlighted, down highlights the first item and up the
    last; and up undoes down (and down undoes up) on any highlighted
    item. *)
Theorem navigateResults_wraps (n i : nat) :
  i < n →
  navigateResults down (Some (only_selected n i)) =
    Some (only_selected n (if decide (i = n - 1) then 0 else i + 1)) ∧
  navigateResults up (Some (only_selected n i)) =
    Some (only_selected n (if decide (i = 0) then n - 1 else i - 1)) ∧
  navigateResults down (Some (replicate n false)) = Some (only_selected n 0) ∧
  navigateResults up (Some (replicate n false)) = Some (only_selected n (n - 1)) ∧
  navigateResults up (navigateResults down (Some (only_selected n i))) =
    Some (only_selected n i) ∧
  navigateResults down (navigateResults up (Some (only_selected n i))) =
    Some (only_selected n i).
Proof.
  intros Hi. rewrite !navigateResults_from_only by done.
  rewrite !navigateResults_from_none by lia.
  split_and!; try done.
  - do 2 f_equal. repeat case_decide; lia.
  - rewrite navigateResults_from_only by (case_decide; lia).
    do 2 f_equal. repeat case_decide; lia.
  - rewrite navigateResults_from_only by (case_decide; lia).
    do 2 f_equal. repeat case_decide; lia.
Qed.

Lemma navigateResults_wraps_witness :
  2 < 3 ∧
  navigateResults down (Some [false; false; true]) = Some [true; false; false] ∧
  navigateResults up (Some [true; false; false]) = Some [false; false; true].
Proof.
  split; [lia|].
  destruct (navigateResults_wraps 3 2 ltac:(lia)) as (Hdown & _).
  destruct (navigateResults_wraps 3 0 ltac:(lia)) as (_ & Hup & _).
  split; [exact Hdown|exact Hup].
Defined.

(** ** The cache of the metadata client *)

Section client_facts.
Context {Data SearchResult Details : Type}.
Variable apiKey : jsstring.
Variable href : jsstring → list (string * GameAPI.ParamValue) → string.
Variable searchResult_of : Data → option SearchResult.
Variable details_of : Data → Data → option Details.

Local Abbreviation Cache := (gmap string (@GameAPI.Cached Data)).
Local Abbreviation key := (GameAPI.cacheKey apiKey href).
Local Abbreviation request := (GameAPI.request apiKey href).
Local Abbreviation searchGames := (GameAPI.searchGames apiKey href searchResult_of).
Local Abbreviation getGameDetails := (GameAPI.getGameDetails apiKey href details_of).

Lemma request_fresh (endpoint : jsstring) (params : list (string * GameAPI.ParamValue))
    (m : GameAPI.Moment) (cache : Cache) (data : Data) :
  GameAPI.fresh_copy cache (key endpoint params) (GameAPI.now m) = Some data →
  request endpoint params m cache = (Some data, cache, []).
Proof.
  unfold GameAPI.fresh_copy, GameAPI.request, GameAPI.makeRequest.
  destruct (cache !! _) as [cached|]; [|done].
  case_decide; [|done]. by intros [= <-].
Qed.

Lemma request_stale (endpoint : jsstring) (params : list (string * GameAPI.ParamValue))
    (m : GameAPI.Moment) (cache : Cache) :
  GameAPI.fresh_copy cache (key endpoint params) (GameAPI.now m) = None →
  request endpoint params m cache =
  match GameAPI.fetch m (key endpoint params) with
  | Some data =>
      (Some data,
       <[key endpoint params :=
           {| GameAPI.cached_data := data;
              GameAPI.cached_timestamp := GameAPI.now_stored m |}]>
         (GameAPI.during m cache),
       [key endpoint params])
  | None => (None, GameAPI.during m cache, [key endpoint params])
  end.
Proof.
  unfold GameAPI.fresh_copy, GameAPI.request, GameAPI.makeRequest.
  destruct (cache !! _) as [cached|]; [|done].
  by case_decide.
Qed.

Lemma fresh_copy_stored (cache : Cache) (url : string) (data : Data) (stored now : Z) :
  GameAPI.fresh_copy
    (<[url := {| GameAPI.cached_data := data; GameAPI.cached_timestamp := stored |}]> cache)
    url now
  = if decide (now - stored < GameAPI.cacheExpiry)%Z then Some data else None.
Proof. unfold GameAPI.fresh_copy. by rewrite lookup_insert_eq. Qed.


(** X7: a call never resolves with an expired copy. It resolves with a
    body only when the cache holds a copy of it younger than 15 minutes
    or the network has just returned it, and it rejects exactly when there
    is no such copy and the network fails, in which case it stores
    nothing. *)
Theorem makeRequest_never_stale (endpoint : jsstring)
    (params : list (string * GameAPI.ParamValue))
    (m : GameAPI.Moment) (cache : Cache) :
  let '(result, cache', fetched) := request endpoint params m cache in
  let url := key endpoint params in
  let copy := GameAPI.fresh_copy cache url (GameAPI.now m) in
  (∀ data, result = Some data →
           copy = Some data ∨ (copy = None ∧ GameAPI.fetch m url = Some data)) ∧
  (result = None ↔ copy = None ∧ GameAPI.fetch m url = None) ∧
  (result = None → cache' = GameAPI.during m cache) ∧
  (fetched = [] ↔ is_Some copy).
Proof.
  destruct (request endpoint params m cache) as [[result cache'] fetched] eqn:Hreq.
  cbv zeta.
  destruct (GameAPI.fresh_copy cache (key endpoint params) (GameAPI.now m))
    as [d|] eqn:Hcopy.
  - rewrite (request_fresh _ _ _ _ d) in Hreq by done. injection Hreq as <- <- <-.
    split_and!; [naive_solver..|]. split; [eauto|done].
  - rewrite request_stale in Hreq by done.
    destruct (GameAPI.fetch m _) as [d|]; injection Hreq as <- <- <-.
    + split_and!; [naive_solver..|]. split; [done|]. by intros [? ?].
    + split_and!; [naive_solver..|]. split; [done|]. by intros [? ?].
Qed.

Lemma request_cases (endpoint : jsstring) (params : list (string * GameAPI.ParamValue))
    (m : GameAPI.Moment) (cache : Cache) :
  let url := key endpoint params in
  (∃ data, GameAPI.fresh_copy cache url (GameAPI.now m) = Some data ∧
           request endpoint params m cache = (Some data, cache, [])) ∨
  (∃ data, GameAPI.fresh_copy cache url (GameAPI.now m) = None ∧
           GameAPI.fetch m url = Some data ∧
           request endpoint params m cache =
           (Some data,
            <[url := {| GameAPI.cached_data := data;
                        GameAPI.cached_timestamp := GameAPI.now_stored m |}]>
              (GameAPI.during m cache),
            [url])) ∨
  (GameAPI.fresh_copy cache url (GameAPI.now m) = None ∧
   GameAPI.fetch m url = None ∧
   request endpoint params m cache = (None, GameAPI.during m cache, [url])).
Proof.
  intros url.
  destruct (GameAPI.fresh_copy cache url (GameAPI.now m)) as [d|] eqn:Hcopy.
  - left. exists d. split; [done|]. by apply request_fresh.
  - right. rewrite request_stale by done. subst url.
    destruct (GameAPI.fetch m _) as [d|]; [left; by exists d|by right].
Qed.

(** X8: [getGameDetails] asks for the game first and for the screenshots
    only once the game has arrived: when the cache has no fresh copy of the
    game and the network fails for it, the call rejects after that single
    request, whatever is cached or available for the screenshots, and
    stores nothing. In every case at most the two URLs are fetched, in
    this order, and the call resolves only from two bodies that are fresh
    copies or were just fetched. *)
Theorem getGameDetails_sequential (gameSlug : jsstring) (m1 m2 : GameAPI.Moment)
    (between : Cache → Cache) (cache : Cache) :
  let game_url := key (js "games/" ++ gameSlug) [] in
  let shots_url := key (js "games/" ++ gameSlug ++ js "/screenshots") [] in
  let '(result, cache', fetched) := getGameDetails gameSlug m1 between m2 cache in
  (GameAPI.fresh_copy cache game_url (GameAPI.now m1) = None →
   GameAPI.fetch m1 game_url = None →
   result = None ∧ fetched = [game_url] ∧ cache' = GameAPI.during m1 cache) ∧
  fetched `sublist_of` [game_url; shots_url] ∧
  (∀ details, result = Some details →
     ∃ game screenshots,
       (request (js "games/" ++ gameSlug) [] m1 cache).1.1 = Some game ∧
       (GameAPI.fresh_copy
          (between (request (js "games/" ++ gameSlug) [] m1 cache).1.2)
          shots_url (GameAPI.now m2) = Some screenshots ∨
        GameAPI.fetch m2 shots_url = Some screenshots) ∧
       details_of game screenshots = Some details).
Proof.
  unfold GameAPI.getGameDetails.
  generalize (js "games/" ++ gameSlug ++ js "/screenshots").
  generalize (js "games/" ++ gameSlug).
  intros e1 e2.
  destruct (request_cases e1 [] m1 cache)
    as [(g & Hg & Hreq1)|[(g & Hg & Hnet & Hreq1)|(Hg & Hnet & Hreq1)]];
    rewrite Hreq1; cbn [fst snd].
  3: { split_and!; [done| |done].
       apply sublist_skip, sublist_nil_l. }
  all: match goal with
       | |- context [GameAPI.request _ _ ?e [] ?m ?c] =>
           destruct (request_cases e [] m c)
             as [(s & Hs & Hreq2)|[(s & Hs & Hnet2 & Hreq2)|(Hs & Hnet2 & Hreq2)]];
           rewrite Hreq2
       end.
  all: split_and!; [intros; congruence| |]; cbn [app].
  all: try (intros d Hd; exists g, s; by eauto).
  all: try done.
  all: try (repeat first [apply sublist_nil_l | apply sublist_skip | apply sublist_cons]; fail).
Qed.

(** X9: once [getGameDetails] has fetched the game and its screenshots,
    a second call for the same slug made less than 15 minutes after each
    body was stored resolves with the same details without any network
    request, as long as the two URLs differ and other traffic has left
    their entries alone. *)
Theorem getGameDetails_memoized (gameSlug : jsstring)
    (m1 m2 m3 m4 : GameAPI.Moment) (between between' : Cache → Cache)
    (cache cache1 : Cache) (details : Details) :
  let game_url := key (js "games/" ++ gameSlug) [] in
  let shots_url := key (js "games/" ++ gameSlug ++ js "/screenshots") [] in
  game_url ≠ shots_url →
  getGameDetails gameSlug m1 between m2 cache
    = (Some details, cache1, [game_url; shots_url]) →
  GameAPI.keeps game_url between →
  GameAPI.keeps game_url (GameAPI.during m2) →
  GameAPI.keeps shots_url between' →
  (GameAPI.now m3 - GameAPI.now_stored m1 < 900000)%Z →
  (GameAPI.now m4 - GameAPI.now_stored m2 < 900000)%Z →
  getGameDetails gameSlug m3 between' m4 cache1
    = (Some details, between' cache1, []).
Proof.
  unfold GameAPI.getGameDetails.
  generalize (js "games/" ++ gameSlug ++ js "/screenshots").
  generalize (js "games/" ++ gameSlug).
  intros e1 e2 Hne Hcall Hb Hd2 Hb' Ht3 Ht4.
  destruct (request_cases e1 [] m1 cache)
    as [(g & Hg & Hreq1)|[(g & Hg & Hnet & Hreq1)|(Hg & Hnet & Hreq1)]];
    rewrite Hreq1 in Hcall; [|clear Hreq1|done].
  { match type of Hcall with
    | context [GameAPI.request _ _ ?e [] ?m ?c] =>
        destruct (request_cases e [] m c)
          as [(s & Hs & Hreq2)|[(s & Hs & Hnet2 & Hreq2)|(Hs & Hnet2 & Hreq2)]];
        rewrite Hreq2 in Hcall; simplify_eq
    end. }
  match type of Hcall with
  | context [GameAPI.request _ _ ?e [] ?m ?c] =>
      destruct (request_cases e [] m c)
        as [(s & Hs & Hreq2)|[(s & Hs & Hnet2 & Hreq2)|(Hs & Hnet2 & Hreq2)]];
      rewrite Hreq2 in Hcall; [simplify_eq| |simplify_eq]
  end.
  clear Hreq2. injection Hcall as Hdetails <-.
  rewrite (request_fresh e1 [] m3 _ g).
  2: { unfold GameAPI.fresh_copy.
       rewrite lookup_insert_ne by done. rewrite Hd2, Hb, lookup_insert_eq. simpl.
       by rewrite decide_True by (unfold GameAPI.cacheExpiry; lia). }
  rewrite (request_fresh e2 [] m4 _ s).
  2: { unfold GameAPI.fresh_copy.
       rewrite Hb', lookup_insert_eq. simpl.
       by rewrite decide_True by (unfold GameAPI.cacheExpiry; lia). }
  by rewrite Hdetails.
Qed.

Lemma num_or_idemp (x : option Z) (d : Z) :
  d ≠ 0%Z → GameAPI.num_or (Some (GameAPI.num_or x d)) d = GameAPI.num_or x d.
Proof.
  intros Hd. unfold GameAPI.num_or.
  destruct x as [n|]; repeat case_decide; congruence.
Qed.

Lemma str_or_idemp (x : option jsstring) (d : jsstring) :
  d ≠ [] → GameAPI.str_or (Some (GameAPI.str_or x d)) d = GameAPI.str_or x d.
Proof.
  intros Hd. unfold GameAPI.str_or.
  destruct x as [n|]; repeat case_decide; congruence.
Qed.

Lemma truthy_idemp (x : option jsstring) :
  GameAPI.truthy (GameAPI.truthy x) = GameAPI.truthy x.
Proof.
  unfold GameAPI.truthy.
  destruct x as [n|]; repeat case_decide; done.
Qed.

Lemma searchGames_params_effective (query : jsstring) (options : GameAPI.SearchOptions) :
  GameAPI.searchGames_params query (GameAPI.effective options)
  = GameAPI.searchGames_params query options.
Proof.
  unfold GameAPI.searchGames_params, GameAPI.effective. cbn [GameAPI.pageSize
    GameAPI.page GameAPI.ordering GameAPI.platforms GameAPI.genres].
  by rewrite !num_or_idemp, str_or_idemp, !truthy_idemp.
Qed.

Lemma searchGames_url (query : jsstring) (options : GameAPI.SearchOptions) :
  key (js "games") (GameAPI.searchGames_params query options)
  = href (js "games")
      (("key"%string, GameAPI.PStr apiKey)
       :: GameAPI.searchGames_params query options).
Proof.
  unfold GameAPI.cacheKey, GameAPI.searchGames_params. f_equal.
  destruct (GameAPI.truthy (GameAPI.platforms options));
    destruct (GameAPI.truthy (GameAPI.genres options)); reflexivity.
Qed.

(** X10: the URL of a search, which is its cache key, carries the API key
    and then [search], [page_size], [page], [ordering] and the filters that
    are set, each once, with 20, 1 and [-rating] in place of a missing,
    zero or empty value. So two searches for one query whose options differ
    only in such values share a cache entry: within 15 minutes, the second
    is answered from the body the first has fetched, without a request. *)
Theorem searchGames_defaults_share_cache (query : jsstring)
    (options1 options2 : GameAPI.SearchOptions) (m1 m2 : GameAPI.Moment)
    (cache cache1 : Cache) (found : SearchResult) :
  let url := href (js "games")
               (("key"%string, GameAPI.PStr apiKey)
                :: GameAPI.searchGames_params query (GameAPI.effective options1)) in
  (searchGames query options1 m1 cache).2 `sublist_of` [url] ∧
  (GameAPI.effective options1 = GameAPI.effective options2 →
   searchGames query options1 m1 cache = (Some found, cache1, [url]) →
   (GameAPI.now m2 - GameAPI.now_stored m1 < 900000)%Z →
   searchGames query options2 m2 cache1 = (Some found, cache1, [])).
Proof.
  intros url. subst url.
  rewrite searchGames_params_effective, <- searchGames_url.
  unfold GameAPI.searchGames.
  split.
  { destruct (request_cases (js "games") (GameAPI.searchGames_params query options1)
                m1 cache)
      as [(d & _ & ->)|[(d & _ & _ & ->)|(_ & _ & ->)]]; cbn [snd];
      [apply sublist_nil_l|done..]. }
  intros Heff Hfirst Htime.
  rewrite <- (searchGames_params_effective query options2), <- Heff,
    searchGames_params_effective.
  destruct (request_cases (js "games") (GameAPI.searchGames_params query options1)
              m1 cache)
    as [(d & _ & Hreq1)|[(d & _ & _ & Hreq1)|(_ & _ & Hreq1)]];
    rewrite Hreq1 in Hfirst; [done| |done].
  injection Hfirst as Hfound <-.
  rewrite (request_fresh _ _ _ _ d).
  - cbn [mbind option_bind] in *. by rewrite Hfound.
  - rewrite fresh_copy_stored.
    by rewrite decide_True by (unfold GameAPI.cacheExpiry; lia).
Qed.

End client_facts.


Lemma getGameDetails_memoized_witness :
  let getGameDetails :=
    GameAPI.getGameDetails (js "k") GameAPI.sample_href (λ game shots, Some (game, shots))
                           (js "patapon") in
  let first :=
    getGameDetails (GameAPI.moment 1000 (Some 7) 1200) (λ cache, cache)
                   (GameAPI.moment 1300 (Some 9) 1500) ∅ in
  first.1.1 = Some (7, 9) ∧ length first.2 = 2 ∧
  getGameDetails (GameAPI.moment 5000 None 5000) (λ cache, cache)
                 (GameAPI.moment 5001 None 5001) first.1.2
  = (Some (7, 9), first.1.2, []).
Proof.
  intros getGameDetails first.
  split; [vm_compute; reflexivity|]. split; [vm_compute; reflexivity|].
  apply (getGameDetails_memoized (js "k") GameAPI.sample_href
           (λ game shots, Some (game, shots)) (js "patapon")
           (GameAPI.moment 1000 (Some 7) 1200) (GameAPI.moment 1300 (Some 9) 1500)
           (GameAPI.moment 5000 None 5000) (GameAPI.moment 5001 None 5001)
           (λ cache, cache) (λ cache, cache) ∅ first.1.2 (7, 9)).
  - vm_compute. discriminate.
  - vm_compute. reflexivity.
  - intros cache. reflexivity.
  - intros cache. reflexivity.
  - intros cache. reflexivity.
  - simpl. lia.
  - simpl. lia.
Defined.

Lemma searchGames_defaults_share_cache_witness :
  let options1 :=
    {| GameAPI.pageSize := Some 0%Z; GameAPI.page := None;
       GameAPI.ordering := Some []; GameAPI.platforms := Some [];
       GameAPI.genres := None |} in
  let options2 :=
    {| GameAPI.pageSize := None; GameAPI.page := Some 1%Z;
       GameAPI.ordering := Some (js "-rating"); GameAPI.platforms := None;
       GameAPI.genres := None |} in
  let searchGames := GameAPI.searchGames (js "k") GameAPI.sample_href Some (js "lumines") in
  let first := searchGames options1 (GameAPI.moment 1000 (Some 7) 1200) ∅ in
  first.1.1 = Some 7 ∧
  first.2
  = ["https://api.rawg.io/api/games?key=k&search=lumines&page_size=20&page=1&ordering=-rating"%string]
  ∧
  searchGames options2 (GameAPI.moment 2000 None 2000) first.1.2
  = (Some 7, first.1.2, []).
Proof.
  intros options1 options2 searchGames first.
  split; [vm_compute; reflexivity|]. split; [vm_compute; reflexivity|].
  apply (searchGames_defaults_share_cache (js "k") GameAPI.sample_href Some
           (js "lumines") options1 options2
           (GameAPI.moment 1000 (Some 7) 1200) (GameAPI.moment 2000 None 2000)
           ∅ first.1.2 7).
  - vm_compute. reflexivity.
  - vm_compute. reflexivity.
  - simpl. lia.
Defined.

(** ** The screenshot lightbox *)














(** ** Page navigation *)

Section page_navigation_facts.
Variable has_page : jsstring → bool.
Variable has_pushState : bool.

Local Abbreviation navigateToPage := (Navigation.navigateToPage has_page has_pushState).
Local Abbreviation nav_step := (Navigation.step has_page has_pushState).

Lemma navigateToPage_invariant (pageId : jsstring) (st : Navigation.State) :
  let invariant (st : Navigation.State) :=
    (∀ page, page ∈ Navigation.active_pages st →
             page = Navigation.currentPage st ∧ has_page page = true) ∧
    (Navigation.loaded st ≠ [] →
     last (Navigation.loaded st) = Some (Navigation.currentPage st) ∧
     (has_page (Navigation.currentPage st) = true →
      Navigation.currentPage st ∈ Navigation.active_pages st)) ∧
    Forall (λ pair, pair.1 = pair.2) (Navigation.tracked st) in
  invariant st → invariant (navigateToPage pageId st).
Proof.
  intros invariant (Hactive & Hloaded & Htracked). subst invariant.
  unfold Navigation.navigateToPage. cbn. split_and!.
  - intros page.
    destruct (has_page pageId) eqn:Hnew;
      destruct (has_page (Navigation.currentPage st)) eqn:Hcurrent;
      rewrite ?elem_of_union, ?elem_of_difference, ?elem_of_singleton;
      intros Hpage.
    + destruct Hpage as [[Hpage Hne]| ->]; [|done].
      by destruct (Hactive page Hpage).
    + destruct Hpage as [Hpage| ->]; [|done].
      destruct (Hactive page Hpage) as [-> ?]. congruence.
    + destruct Hpage as [Hpage Hne]. by destruct (Hactive page Hpage).
    + destruct (Hactive page Hpage) as [-> ?]. congruence.
  - intros _. rewrite last_snoc. split; [done|]. intros ->. set_solver.
  - done.
Qed.

Lemma nav_step_invariant (event : Navigation.Event) (st : Navigation.State) :
  let invariant (st : Navigation.State) :=
    (∀ page, page ∈ Navigation.active_pages st →
             page = Navigation.currentPage st ∧ has_page page = true) ∧
    (Navigation.loaded st ≠ [] →
     last (Navigation.loaded st) = Some (Navigation.currentPage st) ∧
     (has_page (Navigation.currentPage st) = true →
      Navigation.currentPage st ∈ Navigation.active_pages st)) ∧
    Forall (λ pair, pair.1 = pair.2) (Navigation.tracked st) in
  invariant st → invariant (nav_step event st).
Proof.
  intros invariant Hst. subst invariant. cbv beta in *.
  destruct event as [link [page|]|pageId];
    cbn [Navigation.step Navigation.handleNavClick];
    [|done|by apply navigateToPage_invariant].
  case_decide; [|done].
  destruct (navigateToPage_invariant page st Hst) as (Hactive & Hloaded & Htracked).
  cbn [Navigation.currentPage Navigation.active_pages Navigation.loaded
       Navigation.tracked].
  split_and!; try done.
  apply Forall_app. split; [done|]. by apply Forall_singleton.
Qed.

(** X13: however the navigation links are clicked and whatever pages
    [navigateToPage] is called with in between, as the genre cards call
    it, at most one page is shown, and it is the current page; after a
    navigation, the current page is the last page whose content was
    loaded, and it is shown whenever the document has its element. A
    click on the link of the current page, or on a link without a page,
    changes nothing. Every tracked [page_navigation] event has the target
    page as its [from] as well as its [to], since the current page is
    read after the switch. *)
Theorem navigation_one_page_shown (shown : bool) (events : list Navigation.Event)
    (link : nat) :
  let st := Navigation.run has_page has_pushState events (Navigation.start shown) in
  (shown = true → has_page (js "home") = true) →
  (∀ page, page ∈ Navigation.active_pages st → page = Navigation.currentPage st) ∧
  (Navigation.loaded st ≠ [] →
   last (Navigation.loaded st) = Some (Navigation.currentPage st) ∧
   Navigation.active_pages st
   = if has_page (Navigation.currentPage st) then {[Navigation.currentPage st]} else ∅) ∧
  nav_step (Navigation.ClickLink link (Some (Navigation.currentPage st))) st = st ∧
  nav_step (Navigation.ClickLink link None) st = st ∧
  Forall (λ pair, pair.1 = pair.2) (Navigation.tracked st).
Proof.
  intros st Hshown.
  assert ((∀ page, page ∈ Navigation.active_pages st →
             page = Navigation.currentPage st ∧ has_page page = true) ∧
    (Navigation.loaded st ≠ [] →
     last (Navigation.loaded st) = Some (Navigation.currentPage st) ∧
     (has_page (Navigation.currentPage st) = true →
      Navigation.currentPage st ∈ Navigation.active_pages st)) ∧
    Forall (λ pair, pair.1 = pair.2) (Navigation.tracked st))
    as (Hactive & Hloaded & Htracked).
  { subst st. unfold Navigation.run.
    assert ((∀ page, page ∈ Navigation.active_pages (Navigation.start shown) →
               page = Navigation.currentPage (Navigation.start shown)
               ∧ has_page page = true) ∧
      (Navigation.loaded (Navigation.start shown) ≠ [] →
       last (Navigation.loaded (Navigation.start shown))
       = Some (Navigation.currentPage (Navigation.start shown)) ∧
       (has_page (Navigation.currentPage (Navigation.start shown)) = true →
        Navigation.currentPage (Navigation.start shown)
        ∈ Navigation.active_pages (Navigation.start shown))) ∧
      Forall (λ pair, pair.1 = pair.2) (Navigation.tracked (Navigation.start shown)))
      as Hstart.
    { split_and!; try done.
      intros page. cbn. destruct shown; [|set_solver].
      rewrite elem_of_singleton. intros ->. by split; [|apply Hshown]. }
    revert Hstart. generalize (Navigation.start shown).
    induction events as [|event events IH]; intros st Hst; [done|].
    cbn [foldl]. apply IH. by apply nav_step_invariant. }
  split_and!; try done.
  - intros page Hpage. by destruct (Hactive page Hpage).
  - intros Hne. destruct (Hloaded Hne) as [Hlast Hin]. split; [done|].
    destruct (has_page (Navigation.currentPage st)) eqn:Hcurrent.
    + apply set_eq. intros page. rewrite elem_of_singleton. split.
      * intros Hpage. by destruct (Hactive page Hpage).
      * intros ->. by apply Hin.
    + apply set_eq. intros page. split; [|set_solver].
      intros Hpage. destruct (Hactive page Hpage) as [-> ?]. congruence.
  - cbn. case_decide as Hcase; [|done]. by destruct Hcase.
Qed.

End page_navigation_facts.

Lemma navigation_one_page_shown_witness :
  let has_page (page : jsstring) := bool_decide (page ∈ [js "home"; js "games"]) in
  let st :=
    Navigation.run has_page true
      [Navigation.ClickLink 1 (Some (js "games"));
       Navigation.ClickLink 1 (Some (js "games"));
       Navigation.Navigate (js "genre-detail");
       Navigation.ClickLink 0 (Some (js "home"))]
      (Navigation.start true) in
  Navigation.loaded st = [js "games"; js "genre-detail"; js "home"] ∧
  Navigation.tracked st = [(js "games", js "games"); (js "home", js "home")] ∧
  Navigation.active_pages st = {[js "home"]}.
Proof.
  intros has_page st.
  split; [vm_compute; reflexivity|]. split; [vm_compute; reflexivity|].
  destruct (navigation_one_page_shown has_page true true
              [Navigation.ClickLink 1 (Some (js "games"));
               Navigation.ClickLink 1 (Some (js "games"));
               Navigation.Navigate (js "genre-detail");
               Navigation.ClickLink 0 (Some (js "home"))] 0)
    as (_ & Hshown & _).
  - intros _. vm_compute. reflexivity.
  - destruct Hshown as [_ Hshown]; [vm_compute; discriminate|].
    exact Hshown.
Defined.

(** ** The games page *)

Section games_page_facts.
Variable has_grid : bool.
Variable has_pagination : bool.

Local Abbreviation games_step := (GamesPage.step has_grid has_pagination).
Local Abbreviation games_run := (GamesPage.run has_grid has_pagination).

Lemma games_step_bounds (event : GamesPage.Event) (st : GamesPage.State) :
  let bounds (st : GamesPage.State) :=
    (1 ≤ GamesPage.currentGamesPage st)%Z ∧
    (∀ n, GamesPage.label st = Some n → (1 ≤ n)%Z) ∧
    Forall (λ request,
              GameAPI.pageSize request.1 = Some 20%Z ∧
              GameAPI.platforms request.1 = Some (js "17") ∧
              (1 ≤ GamesPage.page_sent request)%Z)
           (GamesPage.requests st) in
  bounds st → bounds (games_step event st).
Proof.
  intros bounds (Hpage & Hlabel & Hrequests). subst bounds. cbv beta.
  assert (∀ page st',
            (1 ≤ page)%Z →
            Forall (λ request,
                      GameAPI.pageSize request.1 = Some 20%Z ∧
                      GameAPI.platforms request.1 = Some (js "17") ∧
                      (1 ≤ GamesPage.page_sent request)%Z)
                   (GamesPage.requests st') →
            Forall (λ request,
                      GameAPI.pageSize request.1 = Some 20%Z ∧
                      GameAPI.platforms request.1 = Some (js "17") ∧
                      (1 ≤ GamesPage.page_sent request)%Z)
                   (GamesPage.requests
                      (GamesPage.loadGamesPageWithNumber has_grid page st')))
    as Hload.
  { intros page st' Hge Hst'. unfold GamesPage.loadGamesPageWithNumber.
    destruct has_grid; [|done]. cbn. apply Forall_app. split; [done|].
    apply Forall_singleton. split_and!; try done.
    unfold GamesPage.page_sent, GameAPI.num_or. cbn. case_decide; lia. }
  assert (∀ page st',
            GamesPage.currentGamesPage
              (GamesPage.loadGamesPageWithNumber has_grid page st')
            = GamesPage.currentGamesPage st' ∧
            GamesPage.label (GamesPage.loadGamesPageWithNumber has_grid page st')
            = GamesPage.label st') as Hkeep.
  { intros page st'. unfold GamesPage.loadGamesPageWithNumber.
    by destruct has_grid. }
  destruct event as [|value|value| | | |request hasPrevious hasNext|request];
    cbn [GamesPage.step].
  - unfold GamesPage.loadGamesPage. destruct has_grid; [|done]. cbn.
    split_and!; try done. apply Forall_app. split; [done|].
    apply Forall_singleton. split_and!; done.
  - destruct (GamesPage.listening st); [|done].
    unfold GamesPage.applyFiltersAndReloadGames.
    destruct (Hkeep 1%Z (GamesPage.set_page 1
                (GamesPage.set_filters (GamesPage.field st) (GamesPage.direction st)
                   value st))) as [-> ->].
    split_and!; [done|done|]. by apply Hload.
  - destruct (GamesPage.listening st); [|done].
    unfold GamesPage.applyFiltersAndReloadGames.
    destruct (Hkeep 1%Z (GamesPage.set_page 1
                (GamesPage.set_filters value (GamesPage.direction st)
                   (GamesPage.genres_filter st) st))) as [-> ->].
    split_and!; [done|done|]. by apply Hload.
  - destruct (GamesPage.listening st); [|done].
    unfold GamesPage.applyFiltersAndReloadGames.
    match goal with
    | |- context [GamesPage.loadGamesPageWithNumber _ 1%Z ?s] =>
        destruct (Hkeep 1%Z s) as [-> ->]
    end.
    split_and!; [done|done|]. by apply Hload.
  - destruct (GamesPage.prev_button st); [|done]. case_decide; [|done].
    match goal with
    | |- context [GamesPage.loadGamesPageWithNumber _ ?p ?s] =>
        destruct (Hkeep p s) as [-> ->]
    end.
    split_and!; [cbn; lia|done|]. apply Hload; [lia|done].
  - destruct (GamesPage.next_button st); [|done].
    match goal with
    | |- context [GamesPage.loadGamesPageWithNumber _ ?p ?s] =>
        destruct (Hkeep p s) as [-> ->]
    end.
    split_and!; [cbn; lia|done|]. apply Hload; [lia|done].
  - destruct (GamesPage.pending request st) as [first|]; [|done].
    unfold GamesPage.setupPagination. destruct has_pagination; [|done].
    cbn. split_and!; [done| |done]. by intros n [= <-].
  - by destruct (GamesPage.pending request st) as [first|].
Qed.

(** X14: whatever the user does on the games page and whatever the server
    answers, in whatever order, the page counter never goes below 1, the
    label never shows a number below 1, and every search that the page
    makes asks for 20 PSP games (platform 17) of a page that is at least
    1; a change of the genre, of the sort field or of the sort direction
    puts the counter back to 1 and asks for page 1. *)
Theorem games_page_bounds (events : list GamesPage.Event) (value : jsstring) :
  let st := games_run events GamesPage.initial in
  (1 ≤ GamesPage.currentGamesPage st)%Z ∧
  (∀ n, GamesPage.label st = Some n → (1 ≤ n)%Z) ∧
  Forall (λ request,
            GameAPI.pageSize request.1 = Some 20%Z ∧
            GameAPI.platforms request.1 = Some (js "17") ∧
            (1 ≤ GamesPage.page_sent request)%Z)
         (GamesPage.requests st) ∧
  (GamesPage.listening st = true → has_grid = true →
   ∀ change, change ∈ [GamesPage.GenreChange value; GamesPage.SortChange value;
                       GamesPage.SortDirection] →
     GamesPage.currentGamesPage (games_step change st) = 1%Z ∧
     GamesPage.page_sent <$> last (GamesPage.requests (games_step change st))
     = Some 1%Z).
Proof.
  intros st.
  assert ((1 ≤ GamesPage.currentGamesPage st)%Z ∧
          (∀ n, GamesPage.label st = Some n → (1 ≤ n)%Z) ∧
          Forall (λ request,
                    GameAPI.pageSize request.1 = Some 20%Z ∧
                    GameAPI.platforms request.1 = Some (js "17") ∧
                    (1 ≤ GamesPage.page_sent request)%Z)
                 (GamesPage.requests st)) as (Hpage & Hlabel & Hrequests).
  { subst st. unfold GamesPage.run.
    assert ((1 ≤ GamesPage.currentGamesPage GamesPage.initial)%Z ∧
            (∀ n, GamesPage.label GamesPage.initial = Some n → (1 ≤ n)%Z) ∧
            Forall (λ request,
                      GameAPI.pageSize request.1 = Some 20%Z ∧
                      GameAPI.platforms request.1 = Some (js "17") ∧
                      (1 ≤ GamesPage.page_sent request)%Z)
                   (GamesPage.requests GamesPage.initial)) as Hinitial.
    { split_and!; [done|done|]. apply Forall_nil_2. }
    revert Hinitial. generalize GamesPage.initial.
    induction events as [|event events IH]; intros st Hst; [done|].
    cbn [foldl]. apply IH. by apply games_step_bounds. }
  split_and!; try done.
  intros Hlistening -> change Hchange.
  repeat (apply elem_of_cons in Hchange as [->|Hchange]);
    [| | |by apply elem_of_nil in Hchange];
    cbn [GamesPage.step]; rewrite Hlistening;
    unfold GamesPage.applyFiltersAndReloadGames, GamesPage.loadGamesPageWithNumber;
    cbn; by rewrite last_snoc.
Qed.

End games_page_facts.

Lemma ordering_of_desc (field : jsstring) :
  GamesPage.ordering_of field GamesPage.desc
  = js "-" ++ GamesPage.ordering_of field GamesPage.asc.
Proof.
  unfold GamesPage.ordering_of, GamesPage.startsWith_dash.
  destruct field as [|c field]; [done|].
  case_bool_decide; [|done]. by subst c.
Qed.

(** X15: the ordering that the games page sends for the descending
    direction is the one that it sends for the ascending direction with a
    [-] in front, whatever the sort field looks like, as long as the field
    is not empty or a single [-]; the ordering for the ascending direction
    is the field without its leading [-]. With an empty field, or a single
    [-], the ascending direction is sent as [-rating]. *)
Theorem games_page_ordering (field0 genres0 : jsstring) (pageNumber : Z)
    (st : GamesPage.State) :
  let sent direction :=
    GameAPI.searchGames_params []
      <$> (fst <$> last (GamesPage.requests
                   (GamesPage.loadGamesPageWithNumber true pageNumber
                      (GamesPage.set_filters field0 direction genres0 st)))) in
  let ascending :=
    if GamesPage.startsWith_dash field0 then drop 1 field0 else field0 in
  (ascending ≠ [] →
   (sent GamesPage.asc ≫= (.!! 3)) = Some ("ordering"%string, GameAPI.PStr ascending) ∧
   (sent GamesPage.desc ≫= (.!! 3))
   = Some ("ordering"%string, GameAPI.PStr (js "-" ++ ascending))) ∧
  (ascending = [] →
   (sent GamesPage.asc ≫= (.!! 3))
   = Some ("ordering"%string, GameAPI.PStr (js "-rating")) ∧
   (sent GamesPage.desc ≫= (.!! 3)) = Some ("ordering"%string, GameAPI.PStr (js "-"))).
Proof.
  intros sent ascending. subst sent. cbv beta.
  unfold GamesPage.loadGamesPageWithNumber, GamesPage.call.
  cbn [GamesPage.requests GamesPage.set_filters GamesPage.field GamesPage.direction
       GamesPage.genres_filter].
  rewrite !last_snoc. cbn [fmap option_fmap option_map fst mbind option_bind].
  unfold GameAPI.searchGames_params.
  cbn [GameAPI.ordering GameAPI.pageSize GameAPI.page app lookup list_lookup].
  rewrite ordering_of_desc.
  assert (GamesPage.ordering_of field0 GamesPage.asc = ascending) as -> by done.
  unfold GameAPI.str_or.
  split; intros Hascending.
  - rewrite decide_False by done. by rewrite decide_False.
  - rewrite decide_True by done. rewrite Hascending. by rewrite decide_False.
Qed.

Lemma games_load_in_turn (page : Z) (answer : GamesPage.Answer)
    (st st' : GamesPage.State) :
  GamesPage.settled st →
  (1 ≤ page)%Z →
  GamesPage.currentGamesPage st' = page →
  GamesPage.requests st' = GamesPage.requests st →
  GamesPage.answered st' = GamesPage.answered st →
  GamesPage.settled
    (if decide (length (GamesPage.requests
                          (GamesPage.loadGamesPageWithNumber true page st'))
                = length (GamesPage.requests st))
     then GamesPage.loadGamesPageWithNumber true page st'
     else GamesPage.step true true
            (GamesPage.answer_event (length (GamesPage.requests st)) answer)
            (GamesPage.loadGamesPageWithNumber true page st')).
Proof.
  intros (Hpage & Hanswered & Hgrid) Hge Hcurrent Hrequests Hans.
  unfold GamesPage.loadGamesPageWithNumber, GamesPage.call.
  cbn [GamesPage.requests]. rewrite Hrequests, Hans, length_app. cbn [length].
  rewrite decide_False by lia.
  assert (∀ st0,
            GamesPage.requests st0
            = GamesPage.requests st ++
              [({| GameAPI.pageSize := Some 20%Z;
                   GameAPI.page := Some page;
                   GameAPI.ordering :=
                     Some (GamesPage.ordering_of (GamesPage.field st')
                             (GamesPage.direction st'));
                   GameAPI.platforms := Some (js "17");
                   GameAPI.genres :=
                     if decide (GamesPage.genres_filter st' = []) then None
                     else Some (GamesPage.genres_filter st') |}, false)] →
            GamesPage.answered st0 = GamesPage.answered st →
            GamesPage.pending (length (GamesPage.requests st)) st0 = Some false)
    as Hpending.
  { intros st0 Hreq0 Hans0. unfold GamesPage.pending. rewrite Hreq0, Hans0.
    rewrite decide_False by (intros Hin; apply Hanswered in Hin; lia).
    by rewrite lookup_app_r, Nat.sub_diag by lia. }
  destruct answer as [hasPrevious hasNext|];
    cbn [GamesPage.answer_event GamesPage.step];
    rewrite Hpending by done; unfold GamesPage.settled; cbn.
  - split_and!.
    + lia.
    + intros request. rewrite elem_of_cons, length_app. cbn.
      intros [->|Hin]; [lia|]. apply Hanswered in Hin. lia.
    + intros request [= <-]. eexists. split.
      * by rewrite lookup_app_r, Nat.sub_diag by lia.
      * unfold GamesPage.page_sent, GameAPI.num_or. cbn.
        rewrite decide_False by lia. by rewrite Hcurrent.
  - split_and!.
    + lia.
    + intros request. rewrite elem_of_cons, length_app. cbn.
      intros [->|Hin]; [lia|]. apply Hanswered in Hin. lia.
    + done.
Qed.

Lemma games_act_in_turn (action : GamesPage.Event) (answer : GamesPage.Answer)
    (st : GamesPage.State) :
  GamesPage.user_action action → action ≠ GamesPage.Open →
  GamesPage.settled st →
  GamesPage.settled (GamesPage.act true true action answer st).
Proof.
  intros Huser Hopen Hst. pose proof Hst as (Hpage & _ & _).
  unfold GamesPage.act.
  destruct action as [|value|value| | | |request hasPrevious hasNext|request];
    try done; cbn [GamesPage.step].
  - destruct (GamesPage.listening st); [|by rewrite decide_True].
    by apply games_load_in_turn.
  - destruct (GamesPage.listening st); [|by rewrite decide_True].
    by apply games_load_in_turn.
  - destruct (GamesPage.listening st); [|by rewrite decide_True].
    by apply games_load_in_turn.
  - destruct (GamesPage.prev_button st); [|by rewrite decide_True].
    destruct (decide (1 < GamesPage.currentGamesPage st)%Z);
      [|by rewrite decide_True].
    apply games_load_in_turn; [done|lia|done..].
  - destruct (GamesPage.next_button st); [|by rewrite decide_True].
    apply games_load_in_turn; [done|lia|done..].
Qed.

(** X16: when the games page is opened once and every search settles
    before the next action of the user, the label of the pagination shows
    the page of the games in the grid whenever the grid shows games,
    whatever the user does with the filters and the buttons and whether
    the searches succeed or fail. *)
Theorem games_page_label_in_turn (first : GamesPage.Answer)
    (turns : list (GamesPage.Event * GamesPage.Answer)) (request : nat) :
  Forall (λ turn, GamesPage.user_action turn.1 ∧ turn.1 ≠ GamesPage.Open) turns →
  let st :=
    GamesPage.run_in_turn true true ((GamesPage.Open, first) :: turns)
      GamesPage.initial in
  GamesPage.grid st = GamesPage.Games request →
  ∃ options,
    GamesPage.requests st !! request = Some options ∧
    GamesPage.label st = Some (GamesPage.page_sent options).
Proof.
  intros Hturns st.
  assert (GamesPage.settled st) as (_ & _ & Hgrid); [|by apply Hgrid].
  subst st. unfold GamesPage.run_in_turn. cbn [foldl fst snd].
  assert (GamesPage.settled
            (GamesPage.act true true GamesPage.Open first GamesPage.initial))
    as Hopened.
  { assert (GamesPage.answered
              (GamesPage.act true true GamesPage.Open first GamesPage.initial) = [0]
            ∧ length (GamesPage.requests
                (GamesPage.act true true GamesPage.Open first GamesPage.initial)) = 1
            ∧ GamesPage.currentGamesPage
                (GamesPage.act true true GamesPage.Open first GamesPage.initial) = 1%Z
            ∧ (GamesPage.page_sent
                 <$> GamesPage.requests
                       (GamesPage.act true true GamesPage.Open first GamesPage.initial)
                     !! 0) = Some 1%Z
            ∧ (GamesPage.grid
                 (GamesPage.act true true GamesPage.Open first GamesPage.initial)
               = GamesPage.Failed ∨
               GamesPage.grid
                 (GamesPage.act true true GamesPage.Open first GamesPage.initial)
               = GamesPage.Games 0 ∧
               GamesPage.label
                 (GamesPage.act true true GamesPage.Open first GamesPage.initial)
               = Some 1%Z))
      as (Hans & Hlen & Hcurrent & Hsent & Hshown).
    { destruct first; split_and!; try reflexivity; [right|left]; by split. }
    split_and!.
    - lia.
    - intros r. rewrite Hans, Hlen, elem_of_cons, elem_of_nil. intros [->|[]]. lia.
    - intros r Hr. destruct Hshown as [Hfailed|[Hgames Hlabel]]; [congruence|].
      rewrite Hgames in Hr. injection Hr as <-.
      destruct (GamesPage.requests _ !! 0) as [options|]; [|done].
      exists options. split; [done|]. rewrite Hlabel. by injection Hsent as ->. }
  revert Hopened.
  generalize (GamesPage.act true true GamesPage.Open first GamesPage.initial).
  induction Hturns as [|[action answer] turns [Huser Hopen] _ IH]; intros st Hst;
    [exact Hst|].
  cbn [foldl fst snd]. apply IH. by apply games_act_in_turn.
Qed.

Lemma games_page_label_in_turn_witness :
  let st :=
    GamesPage.run_in_turn true true
      [(GamesPage.Open, GamesPage.Resolved false true);
       (GamesPage.Next, GamesPage.Rejected);
       (GamesPage.Next, GamesPage.Resolved true true)]
      GamesPage.initial in
  GamesPage.grid st = GamesPage.Games 2 ∧
  GamesPage.label st = Some 3%Z ∧
  ∃ options,
    GamesPage.requests st !! 2 = Some options ∧
    GamesPage.label st = Some (GamesPage.page_sent options).
Proof.
  intros st.
  assert (GamesPage.grid st = GamesPage.Games 2) as Hgrid by (vm_compute; reflexivity).
  split; [exact Hgrid|]. split; [vm_compute; reflexivity|].
  apply (games_page_label_in_turn (GamesPage.Resolved false true)
           [(GamesPage.Next, GamesPage.Rejected);
            (GamesPage.Next, GamesPage.Resolved true true)] 2).
  - repeat constructor; discriminate.
  - exact Hgrid.
Defined.

(** ** The pages of a curated genre *)

Lemma pages_concat (l : list CuratedEntry) (k : nat) :
  concat ((λ page, Pagination.pageGameObjects l (Z.of_nat page)) <$> seq 1 k)
  = take (8 * k) l.
Proof.
  induction k as [|k IH]; [done|].
  rewrite seq_S, fmap_app, concat_app, IH. cbn [fmap list_fmap concat].
  rewrite app_nil_r, pageGameObjects_take_drop by lia.
  replace (Z.to_nat ((Z.of_nat (1 + k) - 1) * 8)) with (8 * k) by lia.
  rewrite take_take_drop. f_equal. lia.
Qed.

(** X17: the pages of a curated genre partition its list: put one after
    the other, pages [1] to [totalPages] give back the list, so every game
    is on exactly one page, in list order; every page before the last has
    exactly 8 games, and a page after the last is empty. *)
Theorem curated_pages_partition (l : list CuratedEntry) (page : Z) :
  concat ((λ page, Pagination.pageGameObjects l (Z.of_nat page))
            <$> seq 1 (Z.to_nat (Pagination.totalPages l))) = l ∧
  ((1 ≤ page < Pagination.totalPages l)%Z →
   length (Pagination.pageGameObjects l page) = 8) ∧
  ((Pagination.totalPages l < page)%Z → Pagination.pageGameObjects l page = []).
Proof.
  pose proof (totalPages_ceil l) as Hceil. split_and!.
  - rewrite pages_concat. apply take_ge. lia.
  - intros Hpage. rewrite pageGameObjects_take_drop by lia.
    rewrite length_take, length_drop. lia.
  - intros Hpage. rewrite pageGameObjects_take_drop by lia.
    rewrite drop_ge by lia. done.
Qed.

Lemma reachable_rendering (curatedGames : list (string * Pagination.CategoryData))
    (has_grid has_linkContainer has_pagination : bool) (s : Pagination.Nav) :
  Pagination.reachable curatedGames has_grid has_linkContainer has_pagination s →
  ∀ r, r ∈ Pagination.rendering s →
    ∃ l, Pagination.games_of curatedGames
           (Pagination.property_key (Pagination.rendering_genre r)) = Some l ∧
         Pagination.rendering_entries r
         = Pagination.pageGameObjects l (Pagination.rendering_page r).
Proof.
  assert (∀ genre page s0,
            (∀ r, r ∈ Pagination.rendering s0 →
               ∃ l, Pagination.games_of curatedGames
                      (Pagination.property_key (Pagination.rendering_genre r)) = Some l ∧
                    Pagination.rendering_entries r
                    = Pagination.pageGameObjects l (Pagination.rendering_page r)) →
            ∀ r, r ∈ Pagination.rendering
                       (Pagination.displayCuratedGamesForGenre curatedGames
                          has_grid has_linkContainer genre page s0) →
               ∃ l, Pagination.games_of curatedGames
                      (Pagination.property_key (Pagination.rendering_genre r)) = Some l ∧
                    Pagination.rendering_entries r
                    = Pagination.pageGameObjects l (Pagination.rendering_page r))
    as Hdisplay.
  { intros genre page s0 Hs0 r. unfold Pagination.displayCuratedGamesForGenre.
    destruct (negb _); [apply Hs0|]. cbn [Pagination.activeCuratedTab].
    case_decide; [apply Hs0|].
    destruct (Pagination.games_of _ _) as [l|] eqn:Hl; [|apply Hs0].
    cbn [Pagination.rendering]. rewrite elem_of_app, elem_of_cons, elem_of_nil.
    intros [Hr|[->|[]]]; [by apply Hs0|]. by exists l. }
  induction 1 as [|e s s' _ IH Hstep].
  - apply Hdisplay. cbn. intros r Hr. by apply elem_of_nil in Hr.
  - destruct e as [genre| | |k]; cbn [Pagination.step] in Hstep.
    + case_decide; [|done]. injection Hstep as <-. by apply Hdisplay.
    + destruct (Pagination.prev (Pagination.pagination s)) as [[genre page]|];
        [|done].
      injection Hstep as <-. by apply Hdisplay.
    + destruct (Pagination.next (Pagination.pagination s)) as [[genre page]|];
        [|done].
      injection Hstep as <-. by apply Hdisplay.
    + destruct (Pagination.rendering s !! k) as [r0|] eqn:Hk; [|done].
      injection Hstep as <-. unfold Pagination.renderCuratedPagination.
      intros r Hr. apply IH.
      destruct (negb has_pagination); cbn [Pagination.rendering] in Hr;
        by eapply list_elem_of_delete_inv.
Qed.

(** X18: the curated section never shows a blank page of a genre that has
    games: in every state reached by tab selections, Previous and Next
    clicks and completions of renders, every page that is being rendered
    is the page view of its genre at a page number between 1 and the
    number of pages, and shows between 1 and 8 games. *)
Theorem curated_render_never_blank
    (curatedGames : list (string * Pagination.CategoryData))
    (has_grid has_linkContainer has_pagination : bool) (s : Pagination.Nav)
    (r : Pagination.Rendering) :
  Pagination.reachable curatedGames has_grid has_linkContainer has_pagination s →
  r ∈ Pagination.rendering s →
  ∃ l, Pagination.games_of curatedGames
         (Pagination.property_key (Pagination.rendering_genre r)) = Some l ∧
       Pagination.rendering_entries r
       = Pagination.pageGameObjects l (Pagination.rendering_page r) ∧
       Pagination.rendering_totalPages r = Pagination.totalPages l ∧
       (l ≠ [] →
        (1 ≤ Pagination.rendering_page r ≤ Pagination.totalPages l)%Z ∧
        1 ≤ length (Pagination.rendering_entries r) ≤ 8).
Proof.
  intros Hs Hr.
  destruct (reachable_rendering _ _ _ _ s Hs r Hr) as (l & Hl & Hentries).
  destruct (reachable_invariant _ _ _ _ s Hs) as (_ & _ & _ & Hrendering).
  destruct (Hrendering r Hr) as ([Hge Hle] & l' & Hl' & Htotal).
  assert (l' = l) as -> by congruence.
  exists l. split_and!; [done..|].
  intros Hne. specialize (Hle l Hl Hne). split; [lia|].
  rewrite Hentries, pageGameObjects_take_drop by done.
  rewrite length_take, length_drop.
  pose proof (totalPages_ceil l). lia.
Qed.

Lemma curated_render_never_blank_witness :
  ∃ r, Pagination.rendering Pagination.demo_state !! 0 = Some r ∧
       Pagination.rendering_page r = 2%Z ∧
       length (Pagination.rendering_entries r) = 1 ∧
       ∃ l, Pagination.games_of Pagination.demo_catalog
              (Pagination.property_key (Pagination.rendering_genre r)) = Some l ∧
            Pagination.rendering_entries r
            = Pagination.pageGameObjects l (Pagination.rendering_page r).
Proof.
  destruct (Pagination.rendering Pagination.demo_state !! 0) as [r|] eqn:Hr;
    [|vm_compute in Hr; discriminate].
  exists r. split; [done|].
  assert (Some r = Pagination.rendering Pagination.demo_state !! 0) as Hr' by done.
  vm_compute in Hr'. injection Hr' as Hr'.
  split; [by rewrite Hr'|]. split; [by rewrite Hr'|].
  destruct (curated_render_never_blank Pagination.demo_catalog true true true
              Pagination.demo_state r demo_state_reachable
              (list_elem_of_lookup_2 _ _ _ Hr))
    as (l & Hl & Hentries & _).
  by exists l.
Defined.

(** ** The placeholders of the curated grid *)

Lemma patch_placeholder_first_at (placeholderId p : nat) (new : Pipeline.Cell)
    (cells : list Pipeline.Cell) :
  Placeholders.first_at placeholderId p cells →
  Pipeline.patch_placeholder placeholderId new cells = <[p := new]> cells.
Proof.
  revert p. induction cells as [|c cells IH]; intros p [Hp Hbefore]; [done|].
  cbn [Pipeline.patch_placeholder]. destruct p as [|p].
  - cbn in Hp. injection Hp as Hp. by rewrite decide_True.
  - rewrite decide_False by (apply (Hbefore 0 c); [lia|done]).
    cbn. f_equal. apply IH. split; [done|].
    intros q c' Hq Hc'. apply (Hbefore (S q) c'); [lia|done].
Qed.

Lemma first_at_insert (placeholderId p : nat) (new : Pipeline.Cell)
    (cells : list Pipeline.Cell) :
  Placeholders.first_at placeholderId p cells →
  Pipeline.placeholder_id new = Some placeholderId →
  Placeholders.first_at placeholderId p (<[p := new]> cells).
Proof.
  intros [Hp Hbefore] Hnew. split.
  - destruct (cells !! p) as [c|] eqn:Hc; [|done].
    rewrite list_lookup_insert_eq by (by eapply lookup_lt_Some). cbn. by rewrite Hnew.
  - intros q c Hq. rewrite list_lookup_insert_ne by lia. by apply Hbefore.
Qed.

Lemma first_at_placeholders (startIndex count index : nat) :
  index < count →
  Placeholders.first_at (startIndex + index) index
    (Placeholders.placeholders startIndex count).
Proof.
  intros Hindex. unfold Placeholders.placeholders. split.
  - rewrite list_lookup_fmap, lookup_seq_lt by done. done.
  - intros q c Hq. rewrite list_lookup_fmap.
    rewrite lookup_seq_lt by lia. intros [= <-]. cbn. intros [=]. lia.
Qed.

(** X19: while the tab is not switched and the other callbacks leave the
    placeholder of an entry where it is, the resolution of the entry is
    not aborted and writes exactly one cell of the grid, the one of its
    placeholder: it becomes the game card of the record found, or the
    not-found card; no other cell is written. *)
Theorem renderEntry_fills_placeholder (toLowerCase : jsstring → jsstring)
    (getGameDetails : jsstring → option GameRecord)
    (searchGames : jsstring → nat → string → option (list GameRecord))
    (during_lookup during_search before_render : Pipeline.World → Pipeline.World)
    (gameObject : CuratedEntry) (genre : option string)
    (placeholderId p : nat) (w : Pipeline.World) :
  Pipeline.tab_unchanged genre during_lookup during_search w →
  (∀ w', Pipeline.activeCuratedTab (before_render w') = Pipeline.activeCuratedTab w') →
  Placeholders.keeps_placeholder placeholderId p during_lookup →
  Placeholders.keeps_placeholder placeholderId p during_search →
  Placeholders.keeps_placeholder placeholderId p before_render →
  Placeholders.first_at placeholderId p (Pipeline.grid w) →
  let '(result, fetched, _) :=
    Pipeline.fetchCuratedGameData toLowerCase getGameDetails searchGames
      during_lookup during_search gameObject genre placeholderId w in
  Pipeline.status result ≠ Pipeline.aborted ∧
  Pipeline.grid
    (Pipeline.renderEntry toLowerCase getGameDetails searchGames
       during_lookup during_search before_render gameObject genre placeholderId w)
  = <[p := match Pipeline.status result, Pipeline.data result with
           | Pipeline.found, Some record =>
               Pipeline.GameCard record (entry_title gameObject)
           | _, _ => Pipeline.NotFoundCard (entry_title gameObject)
           end]> (Pipeline.grid (before_render fetched)).
Proof.
  intros (Hw & Hlookup & Hsearch) Hrender Hkeep1 Hkeep2 Hkeep3 Hfirst.
  unfold Pipeline.renderEntry.
  destruct (Pipeline.fetchCuratedGameData _ _ _ _ _ _ _ _ _)
    as [[result fetched] requests] eqn:Hfetch.
  assert (Pipeline.status result ≠ Pipeline.aborted ∧
          Pipeline.activeCuratedTab fetched = genre ∧
          Placeholders.first_at placeholderId p (Pipeline.grid fetched))
    as (Hstatus & Htab & Hfetched).
  { unfold Pipeline.fetchCuratedGameData, Pipeline.searchFallback in Hfetch.
    pose proof (Hkeep1 w Hfirst) as Hfirst1.
    destruct (getGameDetails _) as [record|].
    - rewrite decide_False in Hfetch by (rewrite Hlookup; by intros []).
      injection Hfetch as <- <- <-. split_and!; [done| |done].
      by rewrite Hlookup.
    - assert (Placeholders.first_at placeholderId p
                (Pipeline.grid
                   (during_search
                      (Pipeline.set_grid
                         (Pipeline.patch_placeholder placeholderId
                            (Pipeline.Searching placeholderId (entry_title gameObject)))
                         (during_lookup w))))) as Hfirst2.
      { apply Hkeep2. cbn [Pipeline.set_grid Pipeline.grid].
        rewrite (patch_placeholder_first_at _ p) by done.
        by apply first_at_insert. }
      assert (Pipeline.activeCuratedTab
                (during_search
                   (Pipeline.set_grid
                      (Pipeline.patch_placeholder placeholderId
                         (Pipeline.Searching placeholderId (entry_title gameObject)))
                      (during_lookup w))) = genre) as Htab2.
      { by rewrite Hsearch, activeCuratedTab_set_grid, Hlookup. }
      destruct (searchGames _ _ _) as [games|].
      + rewrite decide_False in Hfetch by (rewrite Htab2; by intros []).
        destruct (findBestMatch _ _ _); injection Hfetch as <- <- <-; done.
      + injection Hfetch as <- <- <-. done. }
  split; [done|].
  rewrite decide_False by (rewrite Hrender, Htab; by intros []).
  cbn [Pipeline.set_grid Pipeline.grid].
  by apply patch_placeholder_first_at, Hkeep3.
Qed.

Lemma patch_placeholder_other (placeholderId other p : nat) (new : Pipeline.Cell)
    (cells : list Pipeline.Cell) :
  other ≠ placeholderId →
  Pipeline.placeholder_id new ≠ Some placeholderId →
  Placeholders.first_at placeholderId p cells →
  Placeholders.first_at placeholderId p
    (Pipeline.patch_placeholder other new cells).
Proof.
  intros Hother Hnew. revert p.
  induction cells as [|c cells IH]; intros p [Hp Hbefore]; [done|].
  cbn [Pipeline.patch_placeholder]. case_decide as Hc.
  - destruct p as [|p].
    + cbn in Hp. congruence.
    + split; [done|]. intros [|q] c' Hq; cbn.
      * intros [= <-]. done.
      * intros Hc'. apply (Hbefore (S q) c'); [lia|done].
  - destruct p as [|p].
    + split; [done|]. intros q c' Hq. lia.
    + destruct (IH p) as [Hp' Hbefore'].
      { split; [done|]. intros q c' Hq Hc'. apply (Hbefore (S q) c'); [lia|done]. }
      split; [done|]. intros [|q] c' Hq; cbn.
      * intros [= <-]. apply (Hbefore 0 c); [lia|done].
      * apply Hbefore'. lia.
Qed.

(** X20: the resolution of an entry leaves the placeholders of the other
    entries where they are, whatever the network answers and whether or not
    the tab is switched, as long as the callbacks that run during its
    awaits do so. *)
Theorem renderEntry_keeps_other_placeholders (toLowerCase : jsstring → jsstring)
    (getGameDetails : jsstring → option GameRecord)
    (searchGames : jsstring → nat → string → option (list GameRecord))
    (during_lookup during_search before_render : Pipeline.World → Pipeline.World)
    (gameObject : CuratedEntry) (genre : option string)
    (placeholderId other p : nat) :
  other ≠ placeholderId →
  Placeholders.keeps_placeholder placeholderId p during_lookup →
  Placeholders.keeps_placeholder placeholderId p during_search →
  Placeholders.keeps_placeholder placeholderId p before_render →
  Placeholders.keeps_placeholder placeholderId p
    (Pipeline.renderEntry toLowerCase getGameDetails searchGames
       during_lookup during_search before_render gameObject genre other).
Proof.
  intros Hother Hkeep1 Hkeep2 Hkeep3 w Hfirst.
  unfold Pipeline.renderEntry.
  destruct (Pipeline.fetchCuratedGameData _ _ _ _ _ _ _ _ _)
    as [[result fetched] requests] eqn:Hfetch.
  assert (Placeholders.first_at placeholderId p (Pipeline.grid fetched)) as Hfetched.
  { unfold Pipeline.fetchCuratedGameData, Pipeline.searchFallback in Hfetch.
    pose proof (Hkeep1 w Hfirst) as Hfirst1.
    destruct (getGameDetails _) as [record|].
    - case_decide; by injection Hfetch as <- <- <-.
    - assert (Placeholders.first_at placeholderId p
                (Pipeline.grid
                   (during_search
                      (Pipeline.set_grid
                         (Pipeline.patch_placeholder other
                            (Pipeline.Searching other (entry_title gameObject)))
                         (during_lookup w))))) as Hfirst2.
      { apply Hkeep2. cbn [Pipeline.set_grid Pipeline.grid].
        apply patch_placeholder_other; [done| |done]. cbn. congruence. }
      destruct (searchGames _ _ _) as [games|].
      + case_decide; [by injection Hfetch as <- <- <-|].
        destruct (findBestMatch _ _ _); by injection Hfetch as <- <- <-.
      + by injection Hfetch as <- <- <-. }
  case_decide; [by apply Hkeep3|].
  cbn [Pipeline.set_grid Pipeline.grid].
  apply patch_placeholder_other; [done| |by apply Hkeep3].
  by destruct (Pipeline.status result), (Pipeline.data result).
Qed.

Lemma renderEntry_fills_placeholder_witness :
  Pipeline.grid
    (Pipeline.renderEntry ascii_toLowerCase (λ _, None) Pipeline.sample_search
       id id id Pipeline.rpg_entry (Some "RPG"%string) 1 Pipeline.rpg_world)
  = [Pipeline.Skeleton 0;
     Pipeline.GameCard (sample_game 8 "crisis core") (js "Crisis Core")].
Proof.
  pose proof (renderEntry_fills_placeholder ascii_toLowerCase (λ _, None)
                Pipeline.sample_search id id id Pipeline.rpg_entry
                (Some "RPG"%string) 1 1 Pipeline.rpg_world
                (tab_unchanged_idle Pipeline.rpg_world)
                (λ w', eq_refl) (λ w' H, H) (λ w' H, H) (λ w' H, H)
                (first_at_placeholders 0 2 1 ltac:(lia))) as Hfilled.
  destruct (Pipeline.fetchCuratedGameData _ _ _ _ _ _ _ _ _)
    as [[result fetched] requests] eqn:Hfetch.
  destruct Hfilled as [_ ->].
  vm_compute in Hfetch. injection Hfetch as <- <- <-.
  vm_compute. reflexivity.
Defined.

Lemma renderEntry_keeps_other_placeholders_witness :
  Placeholders.first_at 1 1
    (Pipeline.grid
       (Pipeline.renderEntry ascii_toLowerCase (λ _, None) Pipeline.sample_search
          id id id Pipeline.rpg_entry (Some "RPG"%string) 0 Pipeline.rpg_world)).
Proof.
  apply (renderEntry_keeps_other_placeholders ascii_toLowerCase (λ _, None)
           Pipeline.sample_search id id id Pipeline.rpg_entry
           (Some "RPG"%string) 1 0 1).
  - lia.
  - intros w H. exact H.
  - intros w H. exact H.
  - intros w H. exact H.
  - exact (first_at_placeholders 0 2 1 ltac:(lia)).
Defined.

(** ** The distance is a metric, and what that means for the selector *)

Lemma edits_trans (n m : nat) (a b c : jsstring) :
  edits n a b → edits m b c → edits (n + m) a c.
Proof.
  induction 1 as [a|n a a' b He _ IH]; intros Hc; [done|].
  cbn. eapply edits_step; [done|]. by apply IH.
Qed.

Lemma edit1_length (a b : jsstring) :
  edit1 a b → length a ≤ length b + 1 ∧ length b ≤ length a + 1.
Proof. destruct 1; rewrite !length_app; cbn; lia. Qed.

Lemma edits_length (n : nat) (a b : jsstring) :
  edits n a b → length a ≤ length b + n ∧ length b ≤ length a + n.
Proof.
  induction 1 as [a|n a a' b He _ IH]; [lia|].
  apply edit1_length in He. lia.
Qed.

Lemma lev_upper_bound (a b : jsstring) : lev a b ≤ length a `max` length b.
Proof.
  revert b. induction a as [|x a IHa]; intros b; [cbn; lia|].
  destruct b as [|y b]; [rewrite lev_nil_r; lia|].
  rewrite lev_cons. pose proof (IHa b). pose proof (indicator_le x y).
  unfold Math_min. cbn [length]. lia.
Qed.

(** X21: the distance that [levenshteinDistance] computes is a metric on
    strings: it is zero exactly for equal strings and it obeys the
    triangle inequality; it is at least the difference of the two lengths
    and at most the greater of them. *)
Theorem levenshteinDistance_metric (a b c : jsstring) :
  (levenshteinDistance a b = 0 ↔ a = b) ∧
  levenshteinDistance a c ≤ levenshteinDistance a b + levenshteinDistance b c ∧
  length a - length b ≤ levenshteinDistance a b ∧
  length b - length a ≤ levenshteinDistance a b ∧
  levenshteinDistance a b ≤ length a `max` length b.
Proof.
  rewrite !levenshteinDistance_lev.
  pose proof (edits_length _ _ _ (lev_script a b)) as Hlength.
  split_and!; [|..|lia|lia|apply lev_upper_bound].
  - split.
    + intros Hzero. pose proof (lev_script a b) as Hscript.
      rewrite Hzero in Hscript. by inversion Hscript.
    + intros ->. apply lev_refl.
  - apply lev_lower_bound. eapply edits_trans; apply lev_script.
Qed.

(** X22: the selector never returns a candidate whose name is much
    longer or shorter than the title: a candidate that it returns either
    matches the title exactly, case aside, or the title is not empty and
    the length of its lower-cased name differs from the length of the
    lower-cased title by less than half the length of the title. *)
Theorem findBestMatch_length_window (toLowerCase : jsstring → jsstring)
    (targetTitle : jsstring) (results : option (list GameRecord))
    (selected : GameRecord) :
  findBestMatch toLowerCase targetTitle results = Some selected →
  toLowerCase (name selected) = toLowerCase targetTitle ∨
  (targetTitle ≠ [] ∧
   2 * levenshteinDistance (toLowerCase targetTitle) (toLowerCase (name selected))
   < length targetTitle ∧
   2 * (length (toLowerCase (name selected)) - length (toLowerCase targetTitle))
   < length targetTitle ∧
   2 * (length (toLowerCase targetTitle) - length (toLowerCase (name selected)))
   < length targetTitle).
Proof.
  unfold findBestMatch. destruct results as [[|r rs]|]; [done| |done].
  set (l := r :: rs).
  destruct (List.find _ l) as [e|] eqn:He.
  - intros [= <-]. left. apply find_some in He as [_ He].
    by apply bool_decide_eq_true_1 in He.
  - destruct (sort_by_score_first toLowerCase targetTitle l)
      as (pre & g & post & _ & _ & _ & Hhd); [done|].
    rewrite Hhd. cbn [score game]. case_bool_decide as Hscore; [|done].
    intros [= <-]. right.
    rewrite levenshteinDistance_lev in *.
    pose proof (edits_length _ _ _
                  (lev_script (toLowerCase targetTitle) (toLowerCase (name g)))).
    split_and!; [|lia..]. intros ->. cbn in Hscore. lia.
Qed.

Lemma findBestMatch_length_window_witness :
  findBestMatch ascii_toLowerCase (js "Patapon") (Some [sample_game 1 "PATAPON 2"])
  = Some (sample_game 1 "PATAPON 2") ∧
  2 * (length (ascii_toLowerCase (js "PATAPON 2")) - length (ascii_toLowerCase (js "Patapon")))
  < length (js "Patapon").
Proof.
  assert (findBestMatch ascii_toLowerCase (js "Patapon")
            (Some [sample_game 1 "PATAPON 2"])
          = Some (sample_game 1 "PATAPON 2")) as Hselected
    by (vm_compute; reflexivity).
  split; [exact Hselected|].
  destruct (findBestMatch_length_window ascii_toLowerCase (js "Patapon")
              (Some [sample_game 1 "PATAPON 2"]) (sample_game 1 "PATAPON 2")
              Hselected) as [Hexact|(_ & _ & Hlonger & _)].
  - vm_compute in Hexact. discriminate.
  - exact Hlonger.
Defined.

(** ** The router *)

Lemma split_nonempty (sep : N) (s : jsstring) : Router.split sep s ≠ [].
Proof.
  destruct s as [|c s]; [done|]. cbn.
  case_decide; [done|]. by destruct (Router.split sep s).
Qed.

Lemma split_no_sep (sep : N) (s : jsstring) :
  sep ∉ s → Router.split sep s = [s].
Proof.
  induction s as [|c s IH]; [done|].
  rewrite not_elem_of_cons. intros [Hc Hs]. cbn.
  rewrite decide_False by done. by rewrite IH.
Qed.

Lemma split_app_sep (sep : N) (part rest : jsstring) :
  sep ∉ part →
  Router.split sep (part ++ sep :: rest) = part :: Router.split sep rest.
Proof.
  induction part as [|c part IH]; cbn.
  - intros _. by rewrite decide_True.
  - rewrite not_elem_of_cons. intros [Hc Hpart].
    rewrite decide_False by done. by rewrite IH.
Qed.

Lemma split_cons_inv (sep : N) (s part : jsstring) (parts : list jsstring) :
  Router.split sep s = part :: parts →
  (sep ∉ part) ∧
  (parts = [] ∧ s = part ∨
   ∃ rest, s = part ++ sep :: rest ∧ Router.split sep rest = parts).
Proof.
  revert part parts. induction s as [|c s IH]; intros part parts; cbn.
  - intros [= <- <-]. split; [apply not_elem_of_nil|by left].
  - case_decide as Hc.
    + intros [= <- <-]. split; [apply not_elem_of_nil|].
      right. exists s. by rewrite Hc.
    + destruct (Router.split sep s) as [|part' parts'] eqn:Hsplit;
        [by apply split_nonempty in Hsplit|].
      intros [= <- <-].
      destruct (IH part' parts' eq_refl) as [Hpart' Hcases].
      split; [rewrite not_elem_of_cons; by split|].
      destruct Hcases as [[-> ->]|(rest & -> & Hrest)]; [by left|].
      right. by exists rest.
Qed.

Lemma matchDynamicRoute_one_parameter (prefix name0 actualPath : jsstring)
    (params0 : gmap jsstring jsstring) :
  47%N ∉ prefix → 47%N ∉ name0 → take 1 prefix ≠ js ":" →
  (Router.matchDynamicRoute (js "/" ++ prefix ++ js "/:" ++ name0) actualPath
   = Some params0 ↔
   ∃ value, (47%N ∉ value) ∧ actualPath = js "/" ++ prefix ++ js "/" ++ value ∧
            params0 = {[name0 := value]}).
Proof.
  intros Hprefix Hname Hcolon. unfold Router.matchDynamicRoute.
  assert (Router.split 47 (js "/" ++ prefix ++ js "/:" ++ name0)
          = [[]; prefix; js ":" ++ name0]) as ->.
  { change (js "/" ++ prefix ++ js "/:" ++ name0)
      with ([] ++ 47%N :: (prefix ++ 47%N :: (js ":" ++ name0))).
    rewrite split_app_sep by apply not_elem_of_nil.
    rewrite split_app_sep by done.
    rewrite split_no_sep; [done|].
    cbn. rewrite not_elem_of_cons. split; [done|done]. }
  split.
  - case_decide as Hlength; [done|].
    destruct (Router.split 47 actualPath) as [|p0 [|p1 [|p2 [|p3 parts]]]] eqn:Hsplit;
      try (cbn in Hlength; lia).
    cbn [Router.match_parts].
    rewrite (decide_False (P := take 1 [] = js ":")) by done.
    case_decide as Hp0; [done|].
    rewrite (decide_False (P := take 1 prefix = js ":")) by done.
    case_decide as Hp1; [done|].
    rewrite (decide_True (P := take 1 (js ":" ++ name0) = js ":")) by done.
    intros [= <-].
    subst p0 p1.
    apply split_cons_inv in Hsplit as [_ [[? ?]|(rest1 & -> & Hsplit)]]; [done|].
    apply split_cons_inv in Hsplit as [_ [[? ?]|(rest2 & -> & Hsplit)]]; [done|].
    apply split_cons_inv in Hsplit as [Hp2 [[_ ->]|(rest3 & -> & Hsplit)]];
      [|by apply split_nonempty in Hsplit].
    exists p2. split_and!; [done|done|]. cbn. by rewrite insert_empty.
  - intros (value & Hvalue & -> & ->).
    change (js "/" ++ prefix ++ js "/" ++ value)
      with ([] ++ 47%N :: (prefix ++ 47%N :: value)).
    rewrite split_app_sep by apply not_elem_of_nil.
    rewrite split_app_sep by done.
    rewrite split_no_sep by done.
    rewrite decide_False by (cbn; lia).
    cbn [Router.match_parts].
    rewrite (decide_False (P := take 1 [] = js ":")) by done.
    rewrite (decide_False (P := [] ≠ [])) by (by intros ?).
    rewrite (decide_False (P := take 1 prefix = js ":")) by done.
    rewrite (decide_False (P := prefix ≠ prefix)) by (by intros ?).
    rewrite (decide_True (P := take 1 (js ":" ++ name0) = js ":")) by done.
    cbn. by rewrite insert_empty.
Qed.

Lemma matchRoute_dynamic (path0 : jsstring) :
  Router.routes_get path0 = None →
  Router.matchRoute path0 =
  match Router.matchDynamicRoute (js "/game/:id") path0 with
  | Some params0 =>
      Some {| Router.config := {| Router.page := js "game-detail";
                                  Router.title := js "Game Details";
                                  Router.description :=
                                    js "Detailed information about a PSP game";
                                  Router.dynamic := true |};
              Router.path := js "/game/:id"; Router.params := params0 |}
  | None =>
      match Router.matchDynamicRoute (js "/genre/:slug") path0 with
      | Some params0 =>
          Some {| Router.config := {| Router.page := js "genre-detail";
                                      Router.title := js "Genre Games";
                                      Router.description :=
                                        js "Games in a specific genre";
                                      Router.dynamic := true |};
                  Router.path := js "/genre/:slug"; Router.params := params0 |}
      | None => None
      end
  end.
Proof. intros Hget. unfold Router.matchRoute. by rewrite Hget. Qed.

Lemma find_key {V : Type} (l : list (jsstring * V)) (key : jsstring) (v : V) :
  NoDup l.*1 →
  (snd <$> List.find (λ entry, bool_decide (entry.1 = key)) l = Some v ↔
   (key, v) ∈ l).
Proof.
  induction l as [|[k0 v0] l IH]; cbn [List.find fmap list_fmap fst].
  - intros _. split; [done|]. by intros ?%elem_of_nil.
  - rewrite NoDup_cons. intros [Hk0 Hl]. rewrite elem_of_cons.
    case_bool_decide as Hkey.
    + subst k0. cbn. split; [intros [= <-]; by left|].
      intros [[= <-]|Hin]; [done|].
      destruct Hk0. apply list_elem_of_fmap. by exists (key, v).
    + rewrite (IH Hl). split; [by right|]. intros [[= ? ?]|Hin]; [by subst|done].
Qed.

Lemma routes_get_Some (path0 : jsstring) (routeConfig : Router.RouteConfig) :
  Router.routes_get path0 = Some routeConfig ↔ (path0, routeConfig) ∈ Router.routes.
Proof.
  apply find_key. refine (bool_decide_unpack _ _). vm_compute. exact I.
Qed.

(** Closed decidable facts about the routes. *)
Ltac by_computation := refine (bool_decide_unpack _ _); vm_compute; exact I.

(** X23: [matchRoute] finds a route exactly for the seven paths of the
    table, which match themselves without parameters, and for the paths
    [/game/x] and [/genre/x] with [x] free of slashes, which match the
    dynamic routes with [x] as [id] and as [slug]; every other path has no
    route, and [navigateTo] then ends on the home route after one more
    call. *)
Theorem matchRoute_characterised (path0 : jsstring) :
  match Router.matchRoute path0 with
  | Some route =>
      ((path0, Router.config route) ∈ Router.routes ∧
       Router.path route = path0 ∧ Router.params route = ∅) ∨
      (∃ value,
         (47%N ∉ value) ∧ path0 = js "/game/" ++ value ∧
         Router.page (Router.config route) = js "game-detail" ∧
         Router.path route = js "/game/:id" ∧
         Router.params route = {[js "id" := value]}) ∨
      (∃ value,
         (47%N ∉ value) ∧ path0 = js "/genre/" ++ value ∧
         Router.page (Router.config route) = js "genre-detail" ∧
         Router.path route = js "/genre/:slug" ∧
         Router.params route = {[js "slug" := value]})
  | None =>
      (∀ routeConfig, (path0, routeConfig) ∉ Router.routes) ∧
      (∀ value, 47%N ∉ value →
                path0 ≠ js "/game/" ++ value ∧ path0 ≠ js "/genre/" ++ value) ∧
      Router.page ∘ Router.config <$> Router.navigateTo 2 path0 = Some (js "home")
  end ∧
  Router.navigateTo 2 path0 ≠ None.
Proof.
  pose proof (matchDynamicRoute_one_parameter (js "game") (js "id") path0)
    as Hgame.
  pose proof (matchDynamicRoute_one_parameter (js "genre") (js "slug") path0)
    as Hgenre.
  cbn [Router.navigateTo].
  destruct (Router.routes_get path0) as [routeConfig|] eqn:Hget.
  { unfold Router.matchRoute. rewrite Hget. split; [|done].
    left. split_and!; [|done..]. by apply routes_get_Some. }
  rewrite !(matchRoute_dynamic path0) by done.
  destruct (Router.matchDynamicRoute (js "/game/:id") path0) as [params0|] eqn:Hid.
  { split; [|done]. right. left.
    apply Hgame in Hid as (value & Hvalue & -> & ->);
      [|by_computation..|done].
    by exists value. }
  destruct (Router.matchDynamicRoute (js "/genre/:slug") path0) as [params0|] eqn:Hslug.
  { split; [|done]. right. right.
    apply Hgenre in Hslug as (value & Hvalue & -> & ->);
      [|by_computation..|done].
    by exists value. }
  split; [|done]. split_and!.
  - intros routeConfig Hin. apply routes_get_Some in Hin. congruence.
  - intros value Hvalue. split; intros ->.
    + assert (Router.matchDynamicRoute (js "/game/:id") (js "/game/" ++ value)
              = Some {[js "id" := value]}) as Hsome; [|congruence].
      apply (matchDynamicRoute_one_parameter (js "game") (js "id"));
        [by_computation..|done|]. by exists value.
    + assert (Router.matchDynamicRoute (js "/genre/:slug") (js "/genre/" ++ value)
              = Some {[js "slug" := value]}) as Hsome; [|congruence].
      apply (matchDynamicRoute_one_parameter (js "genre") (js "slug"));
        [by_computation..|done|]. by exists value.
  - done.
Qed.

Lemma substitution_cons (matched before after rest : jsstring) (c : N) :
  c ≠ 36%N →
  Router.substitution matched before after (c :: rest)
  = c :: Router.substitution matched before after rest.
Proof.
  intros Hc. destruct c as [|p]; [done|].
  do 6 (destruct p as [p|p|]; try done).
Qed.

Lemma substitution_plain (matched before after replacement : jsstring) :
  36%N ∉ replacement →
  Router.substitution matched before after replacement = replacement.
Proof.
  induction replacement as [|c rest IH]; [done|].
  rewrite not_elem_of_cons. intros [Hc Hrest].
  rewrite substitution_cons by done. by rewrite IH.
Qed.

Lemma routes_get_parameter (prefix value : jsstring) :
  prefix = js "/game/" ∧ value ≠ js ":id" ∨ prefix = js "/genre/" ∧ value ≠ js ":slug" →
  Router.routes_get (prefix ++ value) = None.
Proof.
  intros Hcases.
  destruct (Router.routes_get (prefix ++ value)) as [routeConfig|] eqn:Hget; [|done].
  apply routes_get_Some in Hget. unfold Router.routes in Hget.
  rewrite !elem_of_cons, elem_of_nil in Hget.
  destruct Hcases as [[-> Hvalue]|[-> Hvalue]];
    repeat (destruct Hget as [[= Heq _]|Hget]; try done).
Qed.

Lemma matchRoute_game (value : jsstring) :
  47%N ∉ value → value ≠ js ":id" →
  ∃ route,
    Router.matchRoute (js "/game/" ++ value) = Some route ∧
    Router.page (Router.config route) = js "game-detail" ∧
    Router.params route = {[js "id" := value]}.
Proof.
  intros Hslash Hid.
  rewrite matchRoute_dynamic by (apply routes_get_parameter; by left).
  assert (Router.matchDynamicRoute (js "/game/:id") (js "/game/" ++ value)
          = Some {[js "id" := value]}) as ->.
  { apply (matchDynamicRoute_one_parameter (js "game") (js "id"));
      [by_computation..|done|]. by exists value. }
  by eexists.
Qed.

Lemma matchRoute_genre (value : jsstring) :
  47%N ∉ value → value ≠ js ":slug" →
  ∃ route,
    Router.matchRoute (js "/genre/" ++ value) = Some route ∧
    Router.page (Router.config route) = js "genre-detail" ∧
    Router.params route = {[js "slug" := value]}.
Proof.
  intros Hslash Hslug.
  rewrite matchRoute_dynamic by (apply routes_get_parameter; by right).
  assert (Router.matchDynamicRoute (js "/game/:id") (js "/genre/" ++ value) = None)
    as ->.
  { destruct (Router.matchDynamicRoute _ _) as [params0|] eqn:Hmatch; [|done].
    apply (matchDynamicRoute_one_parameter (js "game") (js "id")) in Hmatch
      as (v & _ & Hv & _); [done|by_computation..|done]. }
  assert (Router.matchDynamicRoute (js "/genre/:slug") (js "/genre/" ++ value)
          = Some {[js "slug" := value]}) as ->.
  { apply (matchDynamicRoute_one_parameter (js "genre") (js "slug"));
      [by_computation..|done|]. by exists value. }
  by eexists.
Qed.

(** X24: [generateUrl] and [matchRoute] are inverse to each other on the
    dynamic routes: for a value without slash and without dollar, other
    than the name of the parameter itself, the URL generated for a game
    or a genre is [/game/value] or [/genre/value], and it matches the
    route it was generated for, with the value as its parameter. The five
    static pages generate their own path, which matches them. *)
Theorem generateUrl_round_trip (value : jsstring) :
  47%N ∉ value → 36%N ∉ value →
  (value ≠ js ":id" →
   Router.generateUrl (js "game-detail") [(js "id", value)] = js "/game/" ++ value ∧
   ∃ route,
     Router.matchRoute (Router.generateUrl (js "game-detail") [(js "id", value)])
     = Some route ∧
     Router.page (Router.config route) = js "game-detail" ∧
     Router.params route = {[js "id" := value]}) ∧
  (value ≠ js ":slug" →
   Router.generateUrl (js "genre-detail") [(js "slug", value)] = js "/genre/" ++ value ∧
   ∃ route,
     Router.matchRoute (Router.generateUrl (js "genre-detail") [(js "slug", value)])
     = Some route ∧
     Router.page (Router.config route) = js "genre-detail" ∧
     Router.params route = {[js "slug" := value]}) ∧
  (∀ path0 routeConfig,
     (path0, routeConfig) ∈ Router.routes → Router.dynamic routeConfig = false →
     Router.generateUrl (Router.page routeConfig) [] = path0 ∧
     Router.matchRoute path0
     = Some {| Router.config := routeConfig; Router.path := path0;
               Router.params := ∅ |}).
Proof.
  intros Hslash Hdollar.
  assert (Router.generateUrl (js "game-detail") [(js "id", value)]
          = js "/game/" ++ value) as Hgame.
  { change (Router.generateUrl (js "game-detail") [(js "id", value)])
      with (Router.replace (js ":id") value (js "/game/:id")).
    unfold Router.replace.
    change (Router.indexOf (js ":id") (js "/game/:id")) with (Some (js "/game/", [] : jsstring)).
    cbv iota beta. by rewrite substitution_plain, app_nil_r. }
  assert (Router.generateUrl (js "genre-detail") [(js "slug", value)]
          = js "/genre/" ++ value) as Hgenre.
  { change (Router.generateUrl (js "genre-detail") [(js "slug", value)])
      with (Router.replace (js ":slug") value (js "/genre/:slug")).
    unfold Router.replace.
    change (Router.indexOf (js ":slug") (js "/genre/:slug"))
      with (Some (js "/genre/", [] : jsstring)).
    cbv iota beta. by rewrite substitution_plain, app_nil_r. }
  split_and!.
  - intros Hid. split; [done|]. rewrite Hgame. by apply matchRoute_game.
  - intros Hslug. split; [done|]. rewrite Hgenre. by apply matchRoute_genre.
  - intros path0 routeConfig Hin Hstatic. unfold Router.routes in Hin.
    rewrite !elem_of_cons, elem_of_nil in Hin.
    repeat (destruct Hin as [[= -> ->]|Hin]; [done|]). done.
Qed.

Lemma generateUrl_round_trip_witness :
  Router.generateUrl (js "game-detail") [(js "id", js "patapon-3")]
  = js "/game/patapon-3" ∧
  Router.params <$> Router.matchRoute (js "/game/patapon-3")
  = Some {[js "id" := js "patapon-3"]}.
Proof.
  destruct (generateUrl_round_trip (js "patapon-3")) as ((Hurl & route & Hroute & _ & Hparams) & _);
    [by_computation..|].
  split; [exact Hurl|].
  rewrite Hurl in Hroute.
  change (js "/game/" ++ js "patapon-3") with (js "/game/patapon-3") in Hroute.
  by rewrite Hroute, <- Hparams.
Defined.

(** ** The notification manager *)

Lemma size_insert_le (active : gmap jsstring Notifications.Notification)
    (key : jsstring) (notification : Notifications.Notification) :
  size active ≤ size (<[key := notification]> active) ≤ S (size active).
Proof. rewrite map_size_insert. destruct (active !! key); cbn; lia. Qed.

Lemma size_delete_le (active : gmap jsstring Notifications.Notification)
    (key : jsstring) :
  size (delete key active) ≤ size active.
Proof. rewrite map_size_delete. destruct (active !! key); cbn; lia. Qed.

Lemma processQueue_spec (queue0 : list Notifications.Notification)
    (active : gmap jsstring Notifications.Notification)
    (shown : list Notifications.Notification) :
  size active ≤ 5 →
  let st := Notifications.processQueue queue0 active shown in
  size (Notifications.notifications st) ≤ 5 ∧
  (Notifications.queue st ≠ [] → size (Notifications.notifications st) = 5) ∧
  Notifications.displayed st ++ Notifications.queue st = shown ++ queue0.
Proof.
  revert active shown.
  induction queue0 as [|next queue0 IH]; intros active shown Hsize; cbn.
  - split_and!; [done|done|done].
  - unfold Notifications.maxNotifications. case_decide as Hroom.
    + pose proof (size_insert_le active (Notifications.notification_id next) next).
      destruct (IH (<[Notifications.notification_id next := next]> active)
                  (shown ++ [next]) ltac:(lia)) as (H1 & H2 & H3).
      split_and!; [done|done|]. by rewrite H3, <- app_assoc.
    + cbn. split_and!; [done|lia|done].
Qed.

(** [show] keeps the cap, leaves nothing waiting while there is room when
    nothing was, and adds the notification to those displayed or
    waiting. *)
Lemma show_spec (notification : Notifications.Notification)
    (st : Notifications.State) :
  size (Notifications.notifications st) ≤ 5 →
  let st' := Notifications.show notification st in
  size (Notifications.notifications st') ≤ 5 ∧
  (Notifications.queue st' ≠ [] → size (Notifications.notifications st') = 5) ∧
  Notifications.displayed st' ++ Notifications.queue st'
  ≡ₚ (Notifications.displayed st ++ Notifications.queue st) ++ [notification] ∧
  ((Notifications.queue st ≠ [] → size (Notifications.notifications st) = 5) →
   Notifications.displayed st' ++ Notifications.queue st'
   = (Notifications.displayed st ++ Notifications.queue st) ++ [notification]).
Proof.
  intros Hsize. unfold Notifications.show, Notifications.maxNotifications.
  case_decide as Hfull; cbn.
  - split_and!; [done|lia| |]; by rewrite app_assoc.
  - unfold Notifications.displayNotification.
    pose proof (size_insert_le (Notifications.notifications st)
                  (Notifications.notification_id notification) notification).
    destruct (processQueue_spec (Notifications.queue st)
                (<[Notifications.notification_id notification := notification]>
                   (Notifications.notifications st))
                (Notifications.displayed st ++ [notification]) ltac:(lia))
      as (H1 & H2 & ->).
    split_and!; [done|done| |].
    + rewrite <- !app_assoc. apply Permutation_app_head, Permutation_app_comm.
    + intros Hqueue.
      destruct (Notifications.queue st) as [|queued queue0] eqn:Hq.
      * by rewrite !app_nil_r.
      * specialize (Hqueue ltac:(done)). lia.
Qed.

(** The calls of a callback keep the cap, and add the notifications they
    show unless they clear. *)
Lemma calls_spec (calls : list (Notifications.Call Notifications.Notification))
    (st : Notifications.State) :
  size (Notifications.notifications st) ≤ 5 →
  let st' := foldl (λ st c, Notifications.call c st) st calls in
  size (Notifications.notifications st') ≤ 5 ∧
  (existsb (λ c, match c with
                 | Notifications.CallClearAll => true
                 | Notifications.CallShow _ => false
                 end) calls = false →
   Notifications.displayed st' ++ Notifications.queue st'
   ≡ₚ (Notifications.displayed st ++ Notifications.queue st)
      ++ (calls ≫= λ c, match c with
                        | Notifications.CallShow shown => [shown]
                        | Notifications.CallClearAll => []
                        end)).
Proof.
  revert st. induction calls as [|c calls IH]; intros st Hsize; cbn [foldl].
  - split; [done|]. intros _. cbn. by rewrite app_nil_r.
  - destruct c as [notification|]; cbn [Notifications.call existsb orb].
    + destruct (show_spec notification st Hsize) as (H1 & _ & H3 & _).
      destruct (IH _ H1) as [H4 H5]. split; [done|].
      intros Hclear. rewrite (H5 Hclear), H3. cbn. by rewrite <- !app_assoc.
    + destruct (IH (Notifications.clearAll st)) as [H4 _].
      { cbn. rewrite map_size_empty. lia. }
      split; [done|]. done.
Qed.

Lemma notifications_step_cap (event : Notifications.Event)
    (st : Notifications.State) :
  size (Notifications.notifications st) ≤ 5 →
  let st' := Notifications.step event st in
  size (Notifications.notifications st') ≤ 5 ∧
  (Notifications.interrupted event = false →
   Notifications.queue st' ≠ [] → size (Notifications.notifications st') = 5).
Proof.
  intros Hsize.
  destruct event as [notification|notificationId notification|];
    cbn [Notifications.step].
  - destruct (show_spec notification st Hsize) as (H1 & H2 & _). by split.
  - unfold Notifications.removed, Notifications.interrupted,
      Notifications.throws_on_close.
    pose proof (size_delete_le (Notifications.notifications st) notificationId)
      as Hdelete.
    destruct (Notifications.onClose notification) as [callback|].
    + match goal with
      | |- context [foldl ?f ?st0 (Notifications.calls callback)] =>
          destruct (calls_spec (Notifications.calls callback) st0) as [Hcalls _];
            [cbn; lia|]; cbv zeta in Hcalls;
            generalize dependent (foldl f st0 (Notifications.calls callback))
      end.
      intros st' Hcalls. destruct (Notifications.throws callback).
      * by split.
      * destruct (processQueue_spec (Notifications.queue st')
                    (Notifications.notifications st')
                    (Notifications.displayed st') Hcalls) as (H1 & H2 & _).
        by split.
    + cbn [Notifications.notifications Notifications.queue Notifications.displayed].
      destruct (processQueue_spec (Notifications.queue st)
                  (delete notificationId (Notifications.notifications st))
                  (Notifications.displayed st) ltac:(lia)) as (H1 & H2 & _).
      by split.
  - cbn. split; [rewrite map_size_empty; lia|done].
Qed.

Lemma notifications_run_cap (events : list Notifications.Event)
    (st : Notifications.State) :
  size (Notifications.notifications st) ≤ 5 →
  size (Notifications.notifications (Notifications.run events st)) ≤ 5.
Proof.
  revert st. induction events as [|event events IH]; intros st Hsize; [done|].
  cbn [Notifications.run foldl]. apply IH.
  by destruct (notifications_step_cap event st Hsize).
Qed.

(** X25: whatever notifications are shown, removed and cleared, by the
    application or by [onClose] callbacks, at most five are active at a
    time; and none waits in the queue while fewer than five are active,
    unless the last thing that happened is a removal whose [onClose]
    threw, which leaves the queue unprocessed. *)
Theorem notifications_capped (events : list Notifications.Event) :
  let st := Notifications.run events Notifications.initial in
  size (Notifications.notifications st) ≤ 5 ∧
  ((∀ event, last events = Some event → Notifications.interrupted event = false) →
   Notifications.queue st ≠ [] → size (Notifications.notifications st) = 5).
Proof.
  assert (size (Notifications.notifications Notifications.initial) ≤ 5) as Hinitial.
  { cbn. rewrite map_size_empty. lia. }
  cbv zeta. split; [by apply notifications_run_cap|].
  destruct events as [|event events _] using rev_ind; [done|].
  intros Hlast. specialize (Hlast event (last_snoc _ _)).
  unfold Notifications.run. rewrite foldl_app. cbn [foldl].
  fold (Notifications.run events Notifications.initial).
  by apply notifications_step_cap; [apply notifications_run_cap|].
Qed.

(** The queue is left unprocessed by a callback that throws: one
    notification waits although only four are active. *)
Example notifications_stall_after_throw :
  let st := Notifications.run Notifications.throwing_events Notifications.initial in
  size (Notifications.notifications st) = 4 ∧
  Notifications.queue st = [Notifications.sample "n6"].
Proof. vm_compute. by split. Qed.

Lemma notifications_step_order (event : Notifications.Event)
    (st : Notifications.State) :
  Notifications.clears event = false →
  size (Notifications.notifications st) ≤ 5 →
  let st' := Notifications.step event st in
  Notifications.displayed st' ++ Notifications.queue st'
  ≡ₚ (Notifications.displayed st ++ Notifications.queue st)
     ++ Notifications.shown_by [event] ∧
  (Notifications.quiet event = true →
   (Notifications.queue st ≠ [] → size (Notifications.notifications st) = 5) →
   Notifications.displayed st' ++ Notifications.queue st'
   = (Notifications.displayed st ++ Notifications.queue st)
     ++ Notifications.shown_by [event]).
Proof.
  intros Hclear Hsize.
  destruct event as [notification|notificationId notification|]; [| |done];
    cbn [Notifications.step Notifications.shown_by mbind list_bind concat
         fmap list_fmap app]; rewrite ?app_nil_r.
  - destruct (show_spec notification st Hsize) as (_ & _ & H3 & H4).
    split; [done|]. intros _. apply H4.
  - cbn [Notifications.clears Notifications.quiet] in *.
    unfold Notifications.removed, Notifications.clears_on_close,
      Notifications.shown_on_close, Notifications.throws_on_close in *.
    pose proof (size_delete_le (Notifications.notifications st) notificationId)
      as Hdelete.
    destruct (Notifications.onClose notification) as [callback|].
    + match goal with
      | |- context [foldl ?f ?st0 (Notifications.calls callback)] =>
          destruct (calls_spec (Notifications.calls callback) st0) as [Hcap Hcalls];
            [cbn; lia|]; cbv zeta in Hcap, Hcalls; specialize (Hcalls Hclear);
            cbn [Notifications.notifications Notifications.queue
                 Notifications.displayed] in Hcalls
      end.
      split.
      * destruct (Notifications.throws callback); [done|].
        match goal with
        | |- context [Notifications.processQueue ?q ?a ?d] =>
            destruct (processQueue_spec q a d Hcap) as (_ & _ & ->)
        end.
        done.
      * intros [Hshown Hthrows]%andb_true_iff _.
        apply bool_decide_eq_true in Hshown. apply negb_true_iff in Hthrows.
        rewrite Hthrows.
        destruct (Notifications.calls callback) as [|[shown|] calls] eqn:Hcallback;
          [|done..].
        cbn [foldl Notifications.notifications Notifications.queue
             Notifications.displayed].
        destruct (processQueue_spec (Notifications.queue st)
                    (delete notificationId (Notifications.notifications st))
                    (Notifications.displayed st) ltac:(lia)) as (_ & _ & ->).
        by rewrite app_nil_r.
    + cbn [Notifications.notifications Notifications.queue Notifications.displayed].
      destruct (processQueue_spec (Notifications.queue st)
                  (delete notificationId (Notifications.notifications st))
                  (Notifications.displayed st) ltac:(lia)) as (_ & _ & ->).
      by rewrite app_nil_r.
Qed.

(** X26: as long as nothing calls [clearAll], no notification is lost or
    duplicated: the notifications displayed so far and those that wait in
    the queue are the notifications shown so far, by the application or
    by [onClose] callbacks, each as often as it was shown. They are
    displayed in the order in which they were shown (the notifications
    displayed, followed by the queue, are the notifications shown, in
    order), provided no [onClose] callback that ran showed a notification
    or threw. *)
Theorem notifications_in_order (events : list Notifications.Event) :
  Forall (λ event, Notifications.clears event = false) events →
  let st := Notifications.run events Notifications.initial in
  Notifications.displayed st ++ Notifications.queue st
  ≡ₚ Notifications.shown_by events ∧
  (Forall (λ event, Notifications.quiet event = true) events →
   Notifications.displayed st ++ Notifications.queue st
   = Notifications.shown_by events).
Proof.
  intros Hclear. cbv zeta.
  induction events as [|event events IH] using rev_ind; [done|].
  apply Forall_app in Hclear as [Hclear [Hevent _]%Forall_cons].
  destruct (IH Hclear) as [IHperm IHorder]. clear IH.
  assert (size (Notifications.notifications
                  (Notifications.run events Notifications.initial)) ≤ 5) as Hsize.
  { apply notifications_run_cap. cbn. rewrite map_size_empty. lia. }
  unfold Notifications.run. rewrite foldl_app. cbn [foldl].
  fold (Notifications.run events Notifications.initial).
  destruct (notifications_step_order event _ Hevent Hsize) as [Hperm Horder].
  cbv zeta in Hperm, Horder.
  assert (Notifications.shown_by (events ++ [event])
          = Notifications.shown_by events ++ Notifications.shown_by [event]) as ->.
  { unfold Notifications.shown_by. by rewrite bind_app. }
  split.
  - by rewrite Hperm, IHperm.
  - intros [Hquiet [Hlast _]%Forall_cons]%Forall_app.
    rewrite Horder, IHorder; [done..|].
    destruct events as [|previous events _] using rev_ind; [done|].
    apply Forall_app in Hquiet as [_ [Hprevious _]%Forall_cons].
    unfold Notifications.run. rewrite foldl_app. cbn [foldl].
    fold (Notifications.run events Notifications.initial).
    apply notifications_step_cap.
    + apply notifications_run_cap. cbn. rewrite map_size_empty. lia.
    + destruct previous as [?|? notification|]; [done| |done].
      cbn in *. by destruct (Notifications.throws_on_close notification),
                     (bool_decide _).
Qed.

Lemma notifications_in_order_witness :
  let st := Notifications.run Notifications.sample_events Notifications.initial in
  Forall (λ event, Notifications.clears event = false) Notifications.sample_events ∧
  Notifications.queue st = [Notifications.sample "n7"] ∧
  Notifications.displayed st ++ Notifications.queue st
  = Notifications.shown_by Notifications.sample_events.
Proof.
  intros st.
  assert (Forall (λ event, Notifications.clears event = false)
            Notifications.sample_events) as Hclear.
  { repeat (apply Forall_cons; split; [reflexivity|]). apply Forall_nil_2. }
  split; [exact Hclear|]. split; [vm_compute; reflexivity|].
  apply (notifications_in_order Notifications.sample_events Hclear).
  repeat (apply Forall_cons; split; [reflexivity|]). apply Forall_nil_2.
Defined.

(** A notification shown by an [onClose] callback is displayed at once,
    ahead of the one that waits in the queue. *)
Example notifications_shown_on_close_overtake :
  let st := Notifications.run Notifications.reentrant_events Notifications.initial in
  Notifications.shown_by Notifications.reentrant_events
  = Notifications.sample_closing "n1"
      {| Notifications.calls := [Notifications.CallShow (Notifications.sample "n7")];
         Notifications.throws := false |}
    :: (Notifications.sample <$> ["n2"; "n3"; "n4"; "n5"; "n6"; "n7"]%string) ∧
  last (Notifications.displayed st) = Some (Notifications.sample "n7") ∧
  Notifications.queue st = [Notifications.sample "n6"].
Proof. vm_compute. by split_and!. Qed.

(** ** The search dialog *)

Lemma elem_of_addToHistory (query0 : jsstring) (now : Z)
    (history : list HistoryItem) (item : HistoryItem) :
  item ∈ addToHistory query0 now history →
  item ∈ history ∨ (query0 ≠ [] ∧ query item = query0).
Proof.
  unfold addToHistory. case_decide as Hquery; [by left|].
  intros Hin. apply subseteq_take in Hin.
  apply elem_of_cons in Hin as [->|Hin]; [by right|].
  apply list_elem_of_filter in Hin as [_ Hin]. by left.
Qed.

Lemma search_step_invariant (has_container : bool) (stored : list HistoryItem)
    (typed : list jsstring) (event : SearchFlow.Event) (st : SearchFlow.State) :
  let invariant (typed : list jsstring) (st : SearchFlow.State) :=
    history_ok (SearchFlow.searchHistory st) ∧
    (SearchFlow.currentQuery st = [] ∨
     ∃ value, value ∈ typed ∧ SearchFlow.currentQuery st = SearchFlow.trim value) ∧
    (∀ item, item ∈ SearchFlow.searchHistory st →
       item ∈ stored ∨
       (query item ≠ [] ∧
        ∃ value, value ∈ typed ∧ query item = SearchFlow.trim value)) ∧
    Forall (λ request,
              2 ≤ length request.1 ∧ request.2 = 20%Z ∧
              ∃ value, value ∈ typed ∧ request.1 = SearchFlow.trim value)
           (SearchFlow.requests st) in
  invariant typed st →
  invariant (typed ++ SearchFlow.inputs [event])
            (SearchFlow.step has_container event st).
Proof.
  intros invariant (Hok & Hquery & Hhistory & Hrequests). subst invariant. cbv beta.
  assert (∀ value, value ∈ typed → value ∈ typed ++ SearchFlow.inputs [event])
    as Hmono by (intros value Hvalue; apply elem_of_app; by left).
  assert (SearchFlow.currentQuery st = [] ∨
          ∃ value, value ∈ typed ++ SearchFlow.inputs [event] ∧
                   SearchFlow.currentQuery st = SearchFlow.trim value) as Hquery'.
  { destruct Hquery as [?|(value & ? & ?)]; [by left|right; eauto]. }
  assert (∀ item, item ∈ SearchFlow.searchHistory st →
            item ∈ stored ∨
            (query item ≠ [] ∧
             ∃ value, value ∈ typed ++ SearchFlow.inputs [event] ∧
                      query item = SearchFlow.trim value)) as Hhistory'.
  { intros item Hitem.
    destruct (Hhistory item Hitem) as [?|(? & value & ? & ?)]; [by left|].
    right. eauto. }
  assert (Forall (λ request,
                    2 ≤ length request.1 ∧ request.2 = 20%Z ∧
                    ∃ value, value ∈ typed ++ SearchFlow.inputs [event] ∧
                             request.1 = SearchFlow.trim value)
                 (SearchFlow.requests st)) as Hrequests'.
  { eapply Forall_impl; [exact Hrequests|]. cbv beta.
    intros request (? & ? & value & ? & ?). eauto 10. }
  assert (∀ shown st', SearchFlow.searchHistory (SearchFlow.set_view has_container shown st')
                       = SearchFlow.searchHistory st') as Hview_history by done.
  destruct event as [value|request games now|request|query0| | |].
  - cbn [SearchFlow.step]. unfold SearchFlow.handleSearchInput.
    assert (value ∈ typed ++ SearchFlow.inputs [SearchFlow.Input value]) as Hvalue.
    { apply elem_of_app. right. apply elem_of_cons. by left. }
    assert (SearchFlow.inputs [SearchFlow.Input value] = [value]) as Hinputs by done.
    repeat case_decide.
    + unfold SearchFlow.showSearchHistory.
      destruct has_container; [case_decide|]; cbn; split_and!; try done; right; eauto.
    + cbn. split_and!; try done. right. eauto.
    + cbn. split_and!; try done; [right; eauto|].
      apply Forall_app. split; [done|]. apply Forall_singleton. cbn.
      split_and!; [lia|done|eauto].
  - cbn [SearchFlow.step]. destruct (SearchFlow.pending _ _); [|by split_and!].
    unfold SearchFlow.displayResults.
    destruct has_container; [|by split_and!].
    case_decide; [by split_and!|]. cbn. split_and!; try done.
    + by apply addToHistory_ok.
    + intros item Hitem. apply elem_of_addToHistory in Hitem as [Hitem|[Hne Hitem]].
      * by apply Hhistory'.
      * right. split; [congruence|].
        destruct Hquery' as [?|(value & ? & ?)]; [done|].
        exists value. split; [done|congruence].
  - cbn [SearchFlow.step]. destruct (SearchFlow.pending _ _); by split_and!.
  - cbn [SearchFlow.step]. unfold SearchFlow.showSearchHistory.
    assert (history_ok (SearchManager.removeFromHistory query0
                          (SearchFlow.searchHistory st))) as Hok'
      by (by apply removeFromHistory_ok).
    assert (∀ item, item ∈ SearchManager.removeFromHistory query0
                             (SearchFlow.searchHistory st) →
              item ∈ stored ∨
              (query item ≠ [] ∧
               ∃ value, value ∈ typed ++ SearchFlow.inputs [SearchFlow.RemoveHistory query0] ∧
                        query item = SearchFlow.trim value)) as Hremoved.
    { intros item Hitem. apply list_elem_of_filter in Hitem as [_ Hitem].
      by apply Hhistory'. }
    destruct has_container; [case_decide|]; cbn; by split_and!.
  - cbn. split_and!; try done. by left.
  - cbn [SearchFlow.step]. case_decide; [|by split_and!].
    unfold SearchFlow.showSearchHistory.
    destruct has_container; [case_decide|]; cbn; by split_and!.
  - cbn. by split_and!.
Qed.

Lemma trimStart_head (s : jsstring) (c : N) (rest : jsstring) :
  SearchFlow.trimStart s = c :: rest → SearchFlow.is_space c = false.
Proof.
  induction s as [|d s IH]; [done|]. cbn.
  destruct (SearchFlow.is_space d) eqn:Hd; [done|]. by intros [= <- <-].
Qed.

Lemma trimStart_suffix (s : jsstring) : SearchFlow.trimStart s `suffix_of` s.
Proof.
  induction s as [|d s IH]; [done|]. cbn.
  destruct (SearchFlow.is_space d); [by apply suffix_cons_r|done].
Qed.

Lemma trim_ends (s : jsstring) :
  (∀ c rest, SearchFlow.trim s = c :: rest → SearchFlow.is_space c = false) ∧
  (∀ c init, SearchFlow.trim s = init ++ [c] → SearchFlow.is_space c = false).
Proof.
  unfold SearchFlow.trim. split.
  - intros c rest Htrim.
    destruct (trimStart_suffix (reverse (SearchFlow.trimStart s))) as [skipped Hskipped].
    apply (f_equal reverse) in Hskipped.
    rewrite reverse_involutive, reverse_app, Htrim in Hskipped.
    cbn in Hskipped. by eapply trimStart_head.
  - intros c init Htrim. apply (f_equal reverse) in Htrim.
    rewrite reverse_involutive, reverse_app, reverse_singleton in Htrim.
    cbn in Htrim. by eapply trimStart_head.
Qed.

(** X27: the search dialog only searches for what was entered, trimmed,
    when that has at least two characters, and always asks for 20 results;
    whatever is entered and removed and in whatever order the searches
    settle, the history keeps at most 50 entries with distinct queries, and
    every entry that was not in the stored history has the trimmed text of
    an input as its query: it is not empty and neither starts nor ends
    with white space. *)
Theorem search_dialog_history (has_container : bool) (stored : list HistoryItem)
    (events : list SearchFlow.Event) :
  history_ok stored →
  let st := SearchFlow.run has_container events (SearchFlow.loaded stored) in
  history_ok (SearchFlow.searchHistory st) ∧
  (∀ item, item ∈ SearchFlow.searchHistory st →
     item ∈ stored ∨
     ∃ value first middle,
       value ∈ SearchFlow.inputs events ∧
       query item = SearchFlow.trim value ∧
       query item = first :: middle ∧
       SearchFlow.is_space first = false ∧
       SearchFlow.is_space (List.last (query item) first) = false) ∧
  Forall (λ request,
            2 ≤ length request.1 ∧ request.2 = 20%Z ∧
            ∃ value, value ∈ SearchFlow.inputs events ∧
                     request.1 = SearchFlow.trim value)
         (SearchFlow.requests st).
Proof.
  intros Hstored st.
  assert (history_ok (SearchFlow.searchHistory st) ∧
          (SearchFlow.currentQuery st = [] ∨
           ∃ value, value ∈ SearchFlow.inputs events ∧
                    SearchFlow.currentQuery st = SearchFlow.trim value) ∧
          (∀ item, item ∈ SearchFlow.searchHistory st →
             item ∈ stored ∨
             (query item ≠ [] ∧
              ∃ value, value ∈ SearchFlow.inputs events ∧
                       query item = SearchFlow.trim value)) ∧
          Forall (λ request,
                    2 ≤ length request.1 ∧ request.2 = 20%Z ∧
                    ∃ value, value ∈ SearchFlow.inputs events ∧
                             request.1 = SearchFlow.trim value)
                 (SearchFlow.requests st)) as (Hok & _ & Hhistory & Hrequests).
  { subst st. induction events as [|event events IH] using rev_ind.
    - cbn. split_and!; [done|by left|by left|done].
    - unfold SearchFlow.run, SearchFlow.inputs. rewrite foldl_app, bind_app.
      cbn [foldl].
      by apply (search_step_invariant has_container stored
                  (SearchFlow.inputs events) event). }
  split_and!; [done| |done].
  intros item Hitem. destruct (Hhistory item Hitem) as [?|(Hne & value & Hvalue & Htrim)];
    [by left|right].
  destruct (query item) as [|first middle] eqn:Hquery; [done|].
  exists value, first, middle. split_and!; [done..| |].
  - symmetry in Htrim. by apply (proj1 (trim_ends value)) in Htrim.
  - destruct (exists_last (l := first :: middle)) as (init & c & Hlast); [done|].
    rewrite Hlast, List.last_last. rewrite Hlast in Htrim. symmetry in Htrim.
    by apply (proj2 (trim_ends value)) in Htrim.
Qed.

Lemma search_dialog_history_witness :
  let st :=
    SearchFlow.run true
      [SearchFlow.Input (js "  god of war ");
       SearchFlow.Input (js "g");
       SearchFlow.Resolve 0 [sample_game 1 "God of War"] 10]
      (SearchFlow.loaded []) in
  SearchFlow.requests st = [(js "god of war", 20%Z)] ∧
  query <$> SearchFlow.searchHistory st = [js "g"] ∧
  history_ok (SearchFlow.searchHistory st).
Proof.
  intros st. split; [vm_compute; reflexivity|]. split; [vm_compute; reflexivity|].
  apply (search_dialog_history true []
           [SearchFlow.Input (js "  god of war ");
            SearchFlow.Input (js "g");
            SearchFlow.Resolve 0 [sample_game 1 "God of War"] 10]).
  exact history_ok_nil.
Defined.

(** ** The event queue of the analytics manager *)

Lemma slice_last_app {A : Type} (n : nat) (l1 l2 : list A) :
  Analytics.slice_last n (Analytics.slice_last n l1 ++ l2)
  = Analytics.slice_last n (l1 ++ l2).
Proof.
  unfold Analytics.slice_last.
  rewrite <- (drop_app_le l1 l2 (length l1 - n)) by lia.
  rewrite drop_drop. f_equal.
  rewrite length_drop, !length_app. lia.
Qed.

Lemma analytics_step_invariant {A : Type} (stored0 : list A)
    (event : Analytics.Event A) (st : Analytics.State A) (seen : list A) :
  let invariant (seen : list A) (st : Analytics.State A) :=
    Analytics.written st ++ concat (Analytics.failed st) ++ Analytics.eventQueue st
    ≡ₚ seen ∧
    (Analytics.written st = [] ∧ Analytics.stored st = stored0 ∨
     Analytics.stored st
     = Analytics.slice_last 1000 (stored0 ++ Analytics.written st)) in
  Analytics.enabled st = true →
  invariant seen st →
  Analytics.enabled (Analytics.step event st) = true ∧
  invariant (seen ++ Analytics.tracked [event]) (Analytics.step event st).
Proof.
  intros invariant Henabled [Hperm Hstored]. subst invariant. cbv beta.
  assert (∀ force storage_ok (st' : Analytics.State A) seen',
            Analytics.enabled st' = true →
            Analytics.written st' ++ concat (Analytics.failed st')
              ++ Analytics.eventQueue st' ≡ₚ seen' →
            (Analytics.written st' = [] ∧ Analytics.stored st' = stored0 ∨
             Analytics.stored st'
             = Analytics.slice_last 1000 (stored0 ++ Analytics.written st')) →
            Analytics.enabled (Analytics.flush force storage_ok st') = true ∧
            (Analytics.written (Analytics.flush force storage_ok st')
               ++ concat (Analytics.failed (Analytics.flush force storage_ok st'))
               ++ Analytics.eventQueue (Analytics.flush force storage_ok st')
             ≡ₚ seen') ∧
            (Analytics.written (Analytics.flush force storage_ok st') = [] ∧
             Analytics.stored (Analytics.flush force storage_ok st') = stored0 ∨
             Analytics.stored (Analytics.flush force storage_ok st')
             = Analytics.slice_last 1000
                 (stored0 ++ Analytics.written (Analytics.flush force storage_ok st'))))
    as Hflush.
  { intros force storage_ok st' seen' Henabled' Hperm' Hstored'.
    unfold Analytics.flush. case_decide; [done|].
    destruct (negb force && _); [done|].
    unfold Analytics.sendEvents. destruct storage_ok;
      cbn [Analytics.stored Analytics.written Analytics.failed
           Analytics.eventQueue Analytics.enabled].
    - split_and!; [done| |].
      + rewrite <- Hperm', app_nil_r.
        rewrite (Permutation_app_comm (concat _) (Analytics.eventQueue st')).
        by rewrite app_assoc.
      + right. destruct Hstored' as [[-> ->]| ->]; [done|].
        by rewrite slice_last_app, app_assoc.
    - split_and!; [done| |done].
      rewrite <- Hperm', app_nil_r, concat_app. cbn. by rewrite app_nil_r. }
  destruct event as [event storage_ok|force storage_ok|]; cbn [Analytics.step].
  - unfold Analytics.track. rewrite Henabled.
    cbn [Analytics.tracked mbind list_bind concat fmap list_fmap app].
    assert (Analytics.written st ++ concat (Analytics.failed st)
              ++ (Analytics.eventQueue st ++ [event]) ≡ₚ seen ++ [event] ++ [])
      as Hperm'.
    { rewrite <- Hperm, app_nil_r. by rewrite !app_assoc. }
    case_decide; [|by split_and!].
    by apply Hflush.
  - cbn [Analytics.tracked mbind list_bind concat fmap list_fmap app].
    rewrite app_nil_r. by apply Hflush.
  - cbn [Analytics.tracked mbind list_bind concat fmap list_fmap app].
    rewrite app_nil_r. unfold Analytics.caught.
    destruct st as [enabled0 queue0 stored1 written0 [|events failed']];
      cbn [Analytics.stored Analytics.written Analytics.failed
           Analytics.eventQueue Analytics.enabled] in *; [by split_and!|].
    split_and!; [done| |done].
    rewrite <- Hperm. cbn [concat].
    rewrite (app_assoc (concat failed')), (Permutation_app_comm (concat failed') events).
    by rewrite <- !app_assoc.
Qed.

Lemma analytics_step_in_order {A : Type} (event : Analytics.Event A)
    (st : Analytics.State A) (seen : list A) :
  let in_order (seen : list A) (st : Analytics.State A) :=
    Analytics.enabled st = true ∧ Analytics.failed st = [] ∧
    Analytics.written st ++ Analytics.eventQueue st = seen ∧
    length (Analytics.eventQueue st) < 10 in
  Analytics.storage_fine event →
  in_order seen st →
  in_order (seen ++ Analytics.tracked [event]) (Analytics.step event st).
Proof.
  intros in_order Hfine (Henabled & Hfailed & Horder & Hlength). subst in_order.
  cbv beta.
  destruct st as [enabled0 queue0 stored1 written0 failed0].
  cbn [Analytics.stored Analytics.written Analytics.failed
       Analytics.eventQueue Analytics.enabled] in *. subst enabled0 failed0.
  destruct event as [event storage_ok|force storage_ok|];
    cbn [Analytics.step Analytics.storage_fine Analytics.tracked mbind list_bind
         concat fmap list_fmap app] in *; rewrite ?app_nil_r.
  - subst storage_ok. unfold Analytics.track, Analytics.flush, Analytics.batchSize.
    cbn [Analytics.stored Analytics.written Analytics.failed
         Analytics.eventQueue Analytics.enabled].
    rewrite length_app. cbn [length].
    case_decide as Hfull.
    + rewrite decide_False by lia.
      rewrite bool_decide_eq_false_2 by lia. cbn.
      split_and!; [done|done| |lia]. by rewrite app_nil_r, app_assoc, Horder.
    + cbn. split_and!; [done|done| |rewrite length_app; cbn; lia].
      by rewrite app_assoc, Horder.
  - subst storage_ok. unfold Analytics.flush, Analytics.batchSize.
    cbn [Analytics.stored Analytics.written Analytics.failed
         Analytics.eventQueue Analytics.enabled].
    case_decide; [by split_and!|].
    destruct force; cbn [negb andb].
    + cbn. split_and!; [done|done| |lia]. by rewrite app_nil_r.
    + rewrite bool_decide_eq_true_2 by lia. by split_and!.
  - by split_and!.
Qed.

(** X28: no event that was tracked is lost or sent twice: at any time,
    every tracked event is exactly once in the queue, in a batch whose
    sending has failed and that is about to be put back, or among the
    events written to the store, which holds the last 1000 events of what
    it held before followed by what was written. As long as the store
    does not fail, the events written followed by the queue are the events
    tracked, in order, and the queue holds fewer than 10 events. *)
Theorem analytics_no_event_lost {A : Type} (stored0 : list A)
    (events : list (Analytics.Event A)) :
  let st := Analytics.run events (Analytics.constructed true stored0) in
  (Analytics.written st ++ concat (Analytics.failed st) ++ Analytics.eventQueue st
   ≡ₚ Analytics.tracked events) ∧
  (Analytics.written st = [] ∧ Analytics.stored st = stored0 ∨
   Analytics.stored st
   = Analytics.slice_last 1000 (stored0 ++ Analytics.written st)) ∧
  (Forall Analytics.storage_fine events →
   Analytics.failed st = [] ∧
   Analytics.written st ++ Analytics.eventQueue st = Analytics.tracked events ∧
   length (Analytics.eventQueue st) < 10).
Proof.
  intros st. subst st.
  assert (Analytics.enabled (Analytics.run events (Analytics.constructed true stored0))
          = true ∧
          (Analytics.written (Analytics.run events (Analytics.constructed true stored0))
             ++ concat (Analytics.failed
                          (Analytics.run events (Analytics.constructed true stored0)))
             ++ Analytics.eventQueue
                  (Analytics.run events (Analytics.constructed true stored0))
           ≡ₚ Analytics.tracked events) ∧
          (Analytics.written (Analytics.run events (Analytics.constructed true stored0))
           = [] ∧
           Analytics.stored (Analytics.run events (Analytics.constructed true stored0))
           = stored0 ∨
           Analytics.stored (Analytics.run events (Analytics.constructed true stored0))
           = Analytics.slice_last 1000
               (stored0 ++ Analytics.written
                             (Analytics.run events (Analytics.constructed true stored0)))))
    as (_ & Hperm & Hstored).
  { induction events as [|event events IH] using rev_ind.
    - cbn. split_and!; [done|done|by left].
    - destruct IH as (Henabled & Hperm & Hstored).
      unfold Analytics.run, Analytics.tracked in *.
      rewrite foldl_app, bind_app. cbn [foldl].
      destruct (analytics_step_invariant stored0 event _ _ Henabled
                  (conj Hperm Hstored)) as (? & ? & ?).
      by split_and!. }
  split_and!; [done|done|].
  intros Hfine.
  assert (Analytics.enabled (Analytics.run events (Analytics.constructed true stored0))
          = true ∧
          Analytics.failed (Analytics.run events (Analytics.constructed true stored0))
          = [] ∧
          Analytics.written (Analytics.run events (Analytics.constructed true stored0))
            ++ Analytics.eventQueue
                 (Analytics.run events (Analytics.constructed true stored0))
          = Analytics.tracked events ∧
          length (Analytics.eventQueue
                    (Analytics.run events (Analytics.constructed true stored0))) < 10)
    as (_ & ? & ? & ?); [|done].
  clear Hperm Hstored.
  induction events as [|event events IH] using rev_ind.
  - cbn. split_and!; [done|done|done|lia].
  - apply Forall_app in Hfine as [Hfine Hevent].
    rewrite Forall_singleton in Hevent. specialize (IH Hfine).
    unfold Analytics.run, Analytics.tracked in *.
    rewrite foldl_app, bind_app. cbn [foldl].
    exact (analytics_step_in_order event _ _ Hevent IH).
Qed.

(** ** The collection manager *)

Lemma find_id_Some (games : list Collections.Item) (gameId : Z) :
  is_Some (List.find (λ game, bool_decide (Collections.item_id game = gameId)) games) ↔
  ∃ game, game ∈ games ∧ Collections.item_id game = gameId.
Proof.
  induction games as [|g games IH]; cbn.
  - split; [by intros [? ?]|]. intros (game & Hin & _). by apply elem_of_nil in Hin.
  - case_bool_decide as Hid.
    + split; [|done]. intros _. exists g. split; [by left|done].
    + rewrite IH. split.
      * intros (game & Hin & Hgame). exists game. split; [by right|done].
      * intros (game & [->|Hin]%elem_of_cons & Hgame); [done|]. by exists game.
Qed.

Lemma isGameInCollection_listed (collectionType0 : jsstring) (gameId : Z)
    (collections : gmap jsstring (list Collections.Item)) :
  Collections.isGameInCollection collectionType0 gameId collections = true ↔
  Collections.listed collectionType0 gameId collections.
Proof.
  unfold Collections.isGameInCollection, Collections.getGameFromCollection,
    Collections.listed.
  rewrite bool_decide_eq_true.
  destruct (collections !! collectionType0) as [games|].
  - rewrite find_id_Some. split.
    + intros (game & ? & ?). by exists games, game.
    + intros (games' & game & [= <-] & ? & ?). by exists game.
  - split; [by intros [? ?]|]. by intros (? & ? & ? & _).
Qed.

Lemma distinct_insert (collectionType0 : jsstring) (games : list Collections.Item)
    (collections : gmap jsstring (list Collections.Item)) :
  Collections.distinct collections →
  NoDup (Collections.item_id <$> games) →
  Collections.distinct (<[collectionType0 := games]> collections).
Proof.
  intros Hdistinct Hgames t l. rewrite lookup_insert. case_decide.
  - by intros [= <-].
  - apply Hdistinct.
Qed.

Lemma distinct_default (collectionType0 : jsstring)
    (collections : gmap jsstring (list Collections.Item)) :
  Collections.distinct collections →
  NoDup (Collections.item_id <$> default [] (collections !! collectionType0)).
Proof.
  intros Hdistinct. destruct (collections !! collectionType0) as [games|] eqn:Hgames.
  - by apply (Hdistinct collectionType0).
  - constructor.
Qed.

Lemma upsert_distinct (collectionType0 : jsstring) (game : Collections.Item)
    (now : Z) (collections : gmap jsstring (list Collections.Item)) :
  Collections.distinct collections →
  Collections.distinct (Collections.upsert collectionType0 game now collections).
Proof.
  intros Hdistinct. unfold Collections.upsert.
  pose proof (distinct_default collectionType0 collections Hdistinct) as Hgames.
  destruct (list_find _ _) as [[existingIndex existing]|] eqn:Hfind.
  - apply distinct_insert; [done|].
    apply list_find_Some in Hfind as (Hexisting & Hid & _).
    rewrite list_fmap_insert. cbn.
    rewrite <- Hid. rewrite list_insert_id; [done|].
    by rewrite list_lookup_fmap, Hexisting.
  - apply distinct_insert; [done|].
    rewrite fmap_app. cbn. apply NoDup_app. split_and!; [done| |apply NoDup_singleton].
    intros id (item & -> & Hitem)%list_elem_of_fmap.
    rewrite list_elem_of_singleton. intros Hsame.
    apply list_find_None in Hfind. rewrite Forall_forall in Hfind.
    by apply (Hfind item).
Qed.

Lemma removeFromCollection_distinct (collectionType0 : jsstring) (gameId : Z)
    (collections : gmap jsstring (list Collections.Item)) :
  Collections.distinct collections →
  Collections.distinct
    (Collections.removeFromCollection collectionType0 gameId collections).1.
Proof.
  intros Hdistinct. unfold Collections.removeFromCollection.
  destruct (collections !! collectionType0) as [games|] eqn:Hgames; [|done].
  apply distinct_insert; [done|].
  eapply sublist_NoDup; [by apply (Hdistinct collectionType0)|].
  apply fmap_sublist, sublist_filter.
Qed.

Lemma autoBacklog_distinct (gameId now : Z)
    (collections : gmap jsstring (list Collections.Item)) :
  Collections.distinct collections →
  Collections.distinct (Collections.autoBacklog gameId now collections).
Proof.
  intros Hdistinct. unfold Collections.autoBacklog.
  destruct (negb _ && negb _) eqn:Hcheck; [|done].
  destruct (Collections.getGameFromCollection _ _ _) as [game|] eqn:Hgame; [|done].
  apply distinct_insert; [done|].
  pose proof (distinct_default (js "backlog") collections Hdistinct) as Hbacklog.
  rewrite fmap_app. cbn [fmap list_fmap Collections.item_id].
  apply NoDup_app. split_and!; [done| |apply NoDup_singleton].
  intros id (item & -> & Hitem)%list_elem_of_fmap.
  rewrite list_elem_of_singleton. intros Hsame.
  apply andb_true_iff in Hcheck as [_ Hbacklog'].
  apply negb_true_iff, not_true_iff_false in Hbacklog'. apply Hbacklog'.
  apply isGameInCollection_listed.
  assert (Collections.item_id game = gameId) as Hid.
  { unfold Collections.getGameFromCollection in Hgame.
    destruct (collections !! js "owned"); [|done].
    apply find_some in Hgame as [_ Hgame]. by apply bool_decide_eq_true_1 in Hgame. }
  destruct (collections !! js "backlog") as [games|] eqn:Hgames;
    [|by apply elem_of_nil in Hitem].
  exists games, item. split_and!; [done|done|congruence].
Qed.

Lemma piece_distinct (p : Collections.Piece)
    (collections : gmap jsstring (list Collections.Item)) :
  Collections.distinct collections →
  Collections.distinct (Collections.piece p collections).
Proof.
  intros Hdistinct. destruct p as [t game now|t gameId|t gameId|gameId now]; cbn.
  - by apply upsert_distinct.
  - by apply removeFromCollection_distinct.
  - unfold Collections.autoRemove. destruct (Collections.isGameInCollection _ _ _);
      [by apply removeFromCollection_distinct|done].
  - by apply autoBacklog_distinct.
Qed.

(** X29: no collection ever lists a game twice: when the stored
    collections have no duplicates, they have none after any number of
    additions, removals and automatic moves, also when calls overlap and
    their pieces interleave. *)
Theorem collections_ids_distinct (ps : list Collections.Piece)
    (collections : gmap jsstring (list Collections.Item)) :
  Collections.distinct collections →
  Forall Collections.well_formed ps →
  Collections.distinct (Collections.pieces ps collections).
Proof.
  intros Hdistinct Hps. revert collections Hdistinct. unfold Collections.pieces.
  induction Hps as [|p ps _ _ IH]; intros collections Hdistinct; [done|].
  cbn [foldl]. by apply IH, piece_distinct.
Qed.

Lemma listed_insert (collectionType0 t : jsstring) (gameId : Z)
    (games : list Collections.Item)
    (collections : gmap jsstring (list Collections.Item)) :
  Collections.listed t gameId (<[collectionType0 := games]> collections) ↔
  if decide (collectionType0 = t)
  then ∃ game, game ∈ games ∧ Collections.item_id game = gameId
  else Collections.listed t gameId collections.
Proof.
  unfold Collections.listed. rewrite lookup_insert. case_decide; [|done].
  split.
  - intros (games' & game & [= <-] & ? & ?). by exists game.
  - intros (game & ? & ?). by exists games, game.
Qed.

Lemma listed_default (t : jsstring) (gameId : Z)
    (collections : gmap jsstring (list Collections.Item)) :
  Collections.listed t gameId collections ↔
  ∃ game, game ∈ default [] (collections !! t) ∧ Collections.item_id game = gameId.
Proof.
  unfold Collections.listed. destruct (collections !! t) as [games|]; cbn.
  - split.
    + intros (games' & game & [= <-] & ? & ?). by exists game.
    + intros (game & ? & ?). by exists games, game.
  - split; [by intros (? & ? & ? & _)|]. intros (game & Hin & _).
    by apply elem_of_nil in Hin.
Qed.

Lemma listed_upsert (collectionType0 t : jsstring) (game : Collections.Item)
    (now gameId : Z) (collections : gmap jsstring (list Collections.Item)) :
  Collections.listed t gameId (Collections.upsert collectionType0 game now collections) ↔
  Collections.listed t gameId collections ∨
  (t = collectionType0 ∧ gameId = Collections.item_id game).
Proof.
  unfold Collections.upsert.
  destruct (list_find _ _) as [[existingIndex existing]|] eqn:Hfind.
  - apply list_find_Some in Hfind as (Hexisting & Hid & _).
    rewrite listed_insert. case_decide as Ht.
    + subst t. rewrite (listed_default collectionType0). split.
      * intros (item & Hitem & Hitem_id).
        apply list_elem_of_lookup in Hitem as [i Hi].
        destruct (decide (i = existingIndex)) as [->|Hne].
        -- rewrite list_lookup_insert_eq in Hi by (by eapply lookup_lt_Some).
           injection Hi as <-. cbn in Hitem_id. by right.
        -- rewrite list_lookup_insert_ne in Hi by done.
           left. exists item. split; [by eapply list_elem_of_lookup_2|done].
      * intros [(item & Hitem & Hitem_id)|[_ ->]].
        -- apply list_elem_of_lookup in Hitem as [i Hi].
           destruct (decide (i = existingIndex)) as [->|Hne].
           ++ eexists. split.
              ** eapply list_elem_of_lookup_2. apply list_lookup_insert_eq.
                 by eapply lookup_lt_Some.
              ** cbn. congruence.
           ++ exists item. split; [|done]. eapply list_elem_of_lookup_2.
              by rewrite list_lookup_insert_ne.
        -- eexists. split.
           ++ eapply list_elem_of_lookup_2. apply list_lookup_insert_eq.
              by eapply lookup_lt_Some.
           ++ done.
    + split; [by left|]. by intros [?|[? _]].
  - rewrite listed_insert. case_decide as Ht.
    + subst t. rewrite (listed_default collectionType0). split.
      * intros (item & [Hitem|Hitem]%elem_of_app & Hitem_id).
        -- left. by exists item.
        -- apply list_elem_of_singleton in Hitem as ->. by right.
      * intros [(item & Hitem & Hitem_id)|[_ ->]].
        -- exists item. split; [apply elem_of_app; by left|done].
        -- eexists. split; [apply elem_of_app; right; by apply list_elem_of_singleton|done].
    + split; [by left|]. by intros [?|[? _]].
Qed.

Lemma listed_removeFromCollection (collectionType0 t : jsstring) (removed gameId : Z)
    (collections : gmap jsstring (list Collections.Item)) :
  Collections.listed t gameId
    (Collections.removeFromCollection collectionType0 removed collections).1 ↔
  Collections.listed t gameId collections ∧
  ¬ (t = collectionType0 ∧ gameId = removed).
Proof.
  unfold Collections.removeFromCollection.
  destruct (collections !! collectionType0) as [games|] eqn:Hgames; cbn [fst].
  - rewrite listed_insert. case_decide as Ht.
    + subst t. unfold Collections.listed. rewrite Hgames. split.
      * intros (game & [Hgame Hin]%list_elem_of_filter & Hid).
        split; [by exists games, game|]. intros [_ ->]. done.
      * intros [(games' & game & [= <-] & Hin & Hid) Hne].
        exists game. split; [|done]. apply list_elem_of_filter. split; [|done].
        intros Hsame. apply Hne. split; [done|congruence].
    + split; [|by intros [? _]]. intros Hlisted. split; [done|]. by intros [? _].
  - split; [|by intros [? _]]. intros Hlisted. split; [done|].
    intros [-> ->]. destruct Hlisted as (games & game & Hgames' & _). congruence.
Qed.

Lemma listed_autoRemove (collectionType0 t : jsstring) (removed gameId : Z)
    (collections : gmap jsstring (list Collections.Item)) :
  Collections.listed t gameId (Collections.autoRemove collectionType0 removed collections) ↔
  Collections.listed t gameId collections ∧
  ¬ (t = collectionType0 ∧ gameId = removed).
Proof.
  unfold Collections.autoRemove.
  destruct (Collections.isGameInCollection _ _ _) eqn:Hin.
  - apply listed_removeFromCollection.
  - split; [|by intros [? _]]. intros Hlisted. split; [done|]. intros [-> ->].
    apply isGameInCollection_listed in Hlisted. congruence.
Qed.

Lemma listed_autoRemove_all (ts : list jsstring) (t : jsstring) (removed gameId : Z)
    (collections : gmap jsstring (list Collections.Item)) :
  Collections.listed t gameId
    (foldl (λ collections collectionType0,
              Collections.autoRemove collectionType0 removed collections)
           collections ts) ↔
  Collections.listed t gameId collections ∧ ¬ (t ∈ ts ∧ gameId = removed).
Proof.
  revert collections. induction ts as [|t0 ts IH]; intros collections; cbn [foldl].
  - split; [|by intros [? _]]. intros Hlisted. split; [done|].
    intros [Hin _]. by apply elem_of_nil in Hin.
  - rewrite IH, listed_autoRemove, elem_of_cons. naive_solver.
Qed.

Lemma listed_autoBacklog (t : jsstring) (gameId now id : Z)
    (collections : gmap jsstring (list Collections.Item)) :
  Collections.listed t id (Collections.autoBacklog gameId now collections) →
  Collections.listed t id collections ∨ (t = js "backlog" ∧ id = gameId).
Proof.
  unfold Collections.autoBacklog.
  destruct (negb _ && negb _); [|by left].
  destruct (Collections.getGameFromCollection _ _ _) as [game|] eqn:Hgame; [|by left].
  assert (Collections.item_id game = gameId) as Hid.
  { unfold Collections.getGameFromCollection in Hgame.
    destruct (collections !! js "owned"); [|done].
    apply find_some in Hgame as [_ Hgame]. by apply bool_decide_eq_true_1 in Hgame. }
  rewrite listed_insert. case_decide as Ht; [|by left].
  subst t. rewrite (listed_default (js "backlog")).
  intros (item & [Hitem|Hitem]%elem_of_app & Hitem_id).
  - left. by exists item.
  - apply list_elem_of_singleton in Hitem as ->. right.
    cbn [Collections.item_id] in Hitem_id. split; [done|congruence].
Qed.

Lemma autoBacklog_keeps (t : jsstring) (gameId now id : Z)
    (collections : gmap jsstring (list Collections.Item)) :
  Collections.listed t id collections →
  Collections.listed t id (Collections.autoBacklog gameId now collections).
Proof.
  intros Hlisted. unfold Collections.autoBacklog.
  destruct (negb _ && negb _); [|done].
  destruct (Collections.getGameFromCollection _ _ _) as [game|]; [|done].
  rewrite listed_insert. case_decide as Ht; [|done].
  subst t. apply (listed_default (js "backlog")) in Hlisted as (item & ? & ?).
  exists item. split; [apply elem_of_app; by left|done].
Qed.

Lemma rules_other (collectionType0 : jsstring) :
  (collectionType0 ∉ Collections.rules collectionType0) ∧
  (js "owned" ∉ Collections.rules collectionType0).
Proof.
  unfold Collections.rules.
  repeat case_decide; subst; split; by_computation.
Qed.

(** X30: [addToCollection], for one of the seven collections, leaves the
    game listed in that collection; a game added to [completed] or
    [dropped] is no longer listed in [playing] and [backlog], and a game
    added to [playing] is no longer listed in [backlog]; a game added to
    [owned] is listed in [playing], [completed], [dropped] or [backlog]
    afterwards. The entries of the other games are where they were. *)
Theorem addToCollection_status (collectionType0 : jsstring) (game : Collections.Item)
    (now later : Z) (collections : gmap jsstring (list Collections.Item)) :
  collectionType0 ∈ Collections.collectionTypes →
  let after :=
    Collections.addToCollection collectionType0 game now later collections in
  let gameId := Collections.item_id game in
  Collections.listed collectionType0 gameId after ∧
  (∀ t, t ∈ Collections.rules collectionType0 → ¬ Collections.listed t gameId after) ∧
  (collectionType0 = js "owned" →
   Collections.listed (js "playing") gameId after ∨
   Collections.listed (js "completed") gameId after ∨
   Collections.listed (js "dropped") gameId after ∨
   Collections.listed (js "backlog") gameId after) ∧
  (∀ t id, id ≠ gameId →
           Collections.listed t id after ↔ Collections.listed t id collections).
Proof.
  intros Htype after gameId. subst after gameId.
  unfold Collections.addToCollection, Collections.autoManageCollections.
  destruct (rules_other collectionType0) as [Hself Howned].
  set (upserted := Collections.upsert collectionType0 game now collections).
  set (cleaned :=
         foldl (λ collections t, Collections.autoRemove t (Collections.item_id game)
                                   collections)
               upserted (Collections.rules collectionType0)).
  assert (Collections.listed collectionType0 (Collections.item_id game) cleaned)
    as Hlisted.
  { apply listed_autoRemove_all. split; [|by intros [? _]].
    apply listed_upsert. by right. }
  assert (∀ t, t ∈ Collections.rules collectionType0 →
               ¬ Collections.listed t (Collections.item_id game) cleaned) as Hrules.
  { intros t Ht Hin. apply listed_autoRemove_all in Hin as [_ Hin]. by apply Hin. }
  assert (∀ t id, id ≠ Collections.item_id game →
            Collections.listed t id cleaned ↔ Collections.listed t id collections)
    as Hothers.
  { intros t id Hid. unfold cleaned. rewrite listed_autoRemove_all.
    unfold upserted. rewrite listed_upsert. naive_solver. }
  case_decide as Hon.
  - subst collectionType0. split_and!.
    + by apply autoBacklog_keeps.
    + intros t Ht. exfalso. revert Ht. by_computation.
    + intros _.
      destruct (Collections.isGameInCollection (js "playing")
                  (Collections.item_id game) cleaned) eqn:Hplaying.
      { left. by apply autoBacklog_keeps, isGameInCollection_listed. }
      destruct (Collections.isGameInCollection (js "completed")
                  (Collections.item_id game) cleaned) eqn:Hcompleted.
      { right. left. by apply autoBacklog_keeps, isGameInCollection_listed. }
      destruct (Collections.isGameInCollection (js "dropped")
                  (Collections.item_id game) cleaned) eqn:Hdropped.
      { right. right. left. by apply autoBacklog_keeps, isGameInCollection_listed. }
      destruct (Collections.isGameInCollection (js "backlog")
                  (Collections.item_id game) cleaned) eqn:Hbacklog.
      { right. right. right. by apply autoBacklog_keeps, isGameInCollection_listed. }
      right. right. right.
      unfold Collections.autoBacklog.
      rewrite Hplaying, Hcompleted, Hdropped, Hbacklog. cbn [negb orb andb].
      apply isGameInCollection_listed in Hlisted.
      unfold Collections.isGameInCollection in Hlisted.
      apply bool_decide_eq_true in Hlisted as [owned_game Howned_game].
      rewrite Howned_game. apply listed_insert. rewrite decide_True by done.
      eexists. split; [apply elem_of_app; right; by apply list_elem_of_singleton|].
      cbn [Collections.item_id].
      unfold Collections.getGameFromCollection in Howned_game.
      destruct (cleaned !! js "owned"); [|done].
      apply find_some in Howned_game as [_ Hid]. by apply bool_decide_eq_true_1 in Hid.
    + intros t id Hid. rewrite <- Hothers by done. split.
      * intros [?|[_ ?]]%listed_autoBacklog; done.
      * apply autoBacklog_keeps.
  - split_and!; [done|done|done|done].
Qed.

Lemma collections_ids_distinct_witness :
  let after :=
    Collections.pieces
      [Collections.Upsert (js "owned") (Collections.sample_item 1 "Patapon") 10;
       Collections.AutoBacklog 1 11;
       Collections.Upsert (js "backlog") (Collections.sample_item 1 "Patapon") 12;
       Collections.Upsert (js "playing") (Collections.sample_item 1 "Patapon") 13;
       Collections.AutoRemove (js "backlog") 1] ∅ in
  Collections.item_id <$> default [] (after !! js "owned") = [1%Z] ∧
  after !! js "backlog" = Some [] ∧
  Collections.distinct after.
Proof.
  intros after. split; [vm_compute; reflexivity|]. split; [vm_compute; reflexivity|].
  apply (collections_ids_distinct
           [Collections.Upsert (js "owned") (Collections.sample_item 1 "Patapon") 10;
            Collections.AutoBacklog 1 11;
            Collections.Upsert (js "backlog") (Collections.sample_item 1 "Patapon") 12;
            Collections.Upsert (js "playing") (Collections.sample_item 1 "Patapon") 13;
            Collections.AutoRemove (js "backlog") 1] ∅).
  - intros t games Hgames. by rewrite lookup_empty in Hgames.
  - repeat constructor; by_computation.
Defined.

Lemma addToCollection_status_witness :
  let after :=
    Collections.addToCollection (js "owned") (Collections.sample_item 1 "Patapon")
      10 11 ∅ in
  Collections.item_id <$> default [] (after !! js "backlog") = [1%Z] ∧
  Collections.listed (js "owned") 1 after.
Proof.
  intros after. split; [vm_compute; reflexivity|].
  destruct (addToCollection_status (js "owned") (Collections.sample_item 1 "Patapon")
              10 11 ∅) as (Hlisted & _); [by_computation|].
  exact Hlisted.
Defined.
